(** * Sideby Pass: the candidate registry, classifier, scorer and manifest parser

A shallow embedding of the detection core of the extension:
- [background.js]: [cleanByteRangeUrl], [isPlayableVideo], [scoreVideo],
  [getVideosForTab], the parsing loop of [fetchAndParseM3U8] and
  [addVideoToTab];
- [watcher.js]: [dispatchVideo], [embedHeaders], [isAlreadyProxied] and
  the parsing loop of [HLSParser.onLoad];
- [contentScript.js]: the source tags the adapters send.

JavaScript strings are lists of characters, the code units below 256
([toLowerCase] and the [i] flag fold the letters A-Z and those of
Latin-1).  Numbers are integers: [NaN] is [None] where [parseInt] can
produce it, and a statement that depends on the digits of a number
bounds it by 2^53, below which JavaScript's numbers are exact.  A value
that is a number in one run and a string or a function in another (a
looked-up priority, a score) has a type of its own.  [Date.now()] is an
explicit argument, and the regular expressions of the source are values
of a small syntax interpreted by a backtracking matcher. *)

From stdpp Require Import gmap.
From Stdlib Require Import List String Ascii ZArith Lia Bool Permutation Sorted.
Import ListNotations.

Open Scope Z_scope.
Open Scope list_scope.

(** ** Strings *)

Abbreviation str := (list ascii).

(** A string literal of the source. *)
Definition lit (s : string) : str := list_ascii_of_string s.

Module Str.

Definition eqb (a b : str) : bool :=
  if list_eq_dec Ascii.ascii_dec a b then true else false.

Definition code (c : ascii) : nat := nat_of_ascii c.

Definition between (lo hi c : ascii) : bool :=
  (Nat.leb (code lo) (code c) && Nat.leb (code c) (code hi))%bool.

Definition isUpper (c : ascii) : bool := between "A" "Z" c.
Definition isLower (c : ascii) : bool := between "a" "z" c.
Definition isDigit (c : ascii) : bool := between "0" "9" c.

(** The capital letters of Latin-1, U+00C0 to U+00DE without the
    multiplication sign, and their small forms, 32 above. *)
Definition isUpperLatin (c : ascii) : bool :=
  (between "192" "222" c && negb (Ascii.eqb c "215"))%bool.
Definition isLowerLatin (c : ascii) : bool :=
  (between "224" "254" c && negb (Ascii.eqb c "247"))%bool.

(** The lower-case form of a character, and the form the [i] flag
    compares characters in: the upper-case form when that is a character
    below 256 (it is not for U+00B5, U+00DF and U+00FF, which stay). *)
Definition lowerChar (c : ascii) : ascii :=
  if (isUpper c || isUpperLatin c)%bool then ascii_of_nat (code c + 32) else c.
Definition upperChar (c : ascii) : ascii :=
  if (isLower c || isLowerLatin c)%bool then ascii_of_nat (code c - 32) else c.

(** [String.prototype.toLowerCase] *)
Definition toLowerCase (s : str) : str := List.map lowerChar s.

(** White space of [trim], [\s] and [parseInt] below 256: TAB, LF, VT,
    FF, CR, SP and the no-break space U+00A0. *)
Definition isSpace (c : ascii) : bool :=
  (between "009" "013" c || Ascii.eqb c " " || Ascii.eqb c "160")%bool.

Fixpoint trimStart (s : str) : str :=
  match s with
  | c :: s' => if isSpace c then trimStart s' else s
  | [] => []
  end.

(** [String.prototype.trim] *)
Definition trim (s : str) : str := rev (trimStart (rev (trimStart s))).

(** [a < b] on strings: by the first code unit in which they differ, a
    proper prefix first. *)
Fixpoint ltb (a b : str) : bool :=
  match a, b with
  | _, [] => false
  | [], _ :: _ => true
  | x :: a', y :: b' =>
      if Nat.ltb (code x) (code y) then true
      else if Nat.ltb (code y) (code x) then false
      else ltb a' b'
  end.

(** [String.prototype.startsWith] *)
Fixpoint startsWith (s p : str) : bool :=
  match p, s with
  | [], _ => true
  | _ :: _, [] => false
  | a :: p', b :: s' => (Ascii.eqb a b && startsWith s' p')%bool
  end.

(** [String.prototype.includes] *)
Fixpoint includes (s p : str) : bool :=
  (startsWith s p ||
   match s with
   | [] => false
   | _ :: s' => includes s' p
   end)%bool.

(** [String.prototype.split] with a non-empty string separator: [go]
    scans the rest of the subject, [cur] holds the current piece reversed. *)
Fixpoint splitGo (sep : str) (fuel : nat) (s cur : str) : list str :=
  match fuel with
  | O => [rev cur ++ s]
  | S fuel' =>
      match s with
      | [] => [rev cur]
      | c :: s' =>
          if startsWith s sep
          then rev cur :: splitGo sep fuel' (skipn (List.length sep) s) []
          else splitGo sep fuel' s' (c :: cur)
      end
  end.

Definition split (s sep : str) : list str :=
  splitGo sep (S (List.length s)) s [].

(** Decimal rendering of a non-negative integer, as a template literal
    prints a number. *)
Definition digitChar (d : Z) : ascii := ascii_of_nat (48 + Z.to_nat d).

Fixpoint decGo (fuel : nat) (n : Z) (acc : str) : str :=
  match fuel with
  | O => acc
  | S fuel' =>
      let acc' := digitChar (n mod 10) :: acc in
      if n <? 10 then acc' else decGo fuel' (n / 10) acc'
  end.

Definition ofNumber (n : Z) : str :=
  if n <? 0 then "-"%char :: decGo (S (Z.to_nat (Z.log2 (- n)))) (- n) []
  else decGo (S (Z.to_nat (Z.log2 n))) n [].

(** Value of a digit in a radix, if it is one. *)
Definition digitVal (radix : Z) (c : ascii) : option Z :=
  let v :=
    if isDigit c then Z.of_nat (code c) - 48
    else if isLower c then Z.of_nat (code c) - 87
    else if isUpper c then Z.of_nat (code c) - 55
    else 99 in
  if v <? radix then Some v else None.

Fixpoint digitsGo (radix : Z) (s : str) (acc : option Z) : option Z :=
  match s with
  | [] => acc
  | c :: s' =>
      match digitVal radix c with
      | Some v =>
          digitsGo radix s' (Some (match acc with Some a => a * radix + v | None => v end))
      | None => acc
      end
  end.

(** [parseInt(s)] with no radix argument: leading white space, a sign, a
    [0x] prefix for hexadecimal, then the longest run of digits; [None]
    is [NaN]. *)
Definition parseInt (s : str) : option Z :=
  let s1 := trimStart s in
  let '(neg, s2) :=
    match s1 with
    | c :: r => if Ascii.eqb c "-" then (true, r)
                else if Ascii.eqb c "+" then (false, r) else (false, s1)
    | [] => (false, s1)
    end in
  let '(radix, s3) :=
    match s2 with
    | c0 :: cx :: r =>
        if (Ascii.eqb c0 "0" && (Ascii.eqb cx "x" || Ascii.eqb cx "X"))%bool
        then (16, r) else (10, s2)
    | _ => (10, s2)
    end in
  match digitsGo radix s3 None with
  | Some v => Some (if neg then - v else v)
  | None => None
  end.

End Str.

(** ** Regular expressions

The syntax covers what the patterns of the source use: literals,
classes, [.], sequence, alternation, the greedy star (with [+] and [?]
derived from it), capture groups and the anchors [^] and [$]. *)

Inductive re : Type :=
| Eps
| Chr (c : ascii)
| Cls (negated : bool) (ranges : list (ascii * ascii))
| Dot
| Seq (r1 r2 : re)
| Alt (r1 r2 : re)
| Star (r : re)
| Grp (i : nat) (r : re)
| Bol
| Eol.

Module Re.

Definition Plus (r : re) : re := Seq r (Star r).
Definition Opt (r : re) : re := Alt r Eps.

(** A run of literal characters followed by [k]. *)
Fixpoint Lit (s : str) (k : re) : re :=
  match s with
  | [] => k
  | c :: s' => Seq (Chr c) (Lit s' k)
  end.

(** [\d] and [\s] *)
Definition digit : re := Cls false [("0"%char, "9"%char)].
Definition space : re :=
  Cls false [("009"%char, "013"%char); (" "%char, " "%char); ("160"%char, "160"%char)].

Definition inRanges (ranges : list (ascii * ascii)) (c : ascii) : bool :=
  existsb (fun '(lo, hi) => Str.between lo hi c) ranges.

Section Matcher.

(** [icase] is the [i] flag; [total] is the length of the whole subject,
    which is what [^] compares the rest with. *)
Variable icase : bool.
Variable total : nat.

Definition chrMatches (p c : ascii) : bool :=
  if icase then Ascii.eqb (Str.upperChar p) (Str.upperChar c) else Ascii.eqb p c.

Definition clsMatches (negated : bool) (ranges : list (ascii * ascii)) (c : ascii) : bool :=
  xorb negated
    (inRanges ranges c ||
     (icase && (inRanges ranges (Str.upperChar c) || inRanges ranges (Str.lowerChar c))))%bool.

Definition captures := list (nat * str).

Definition isLineTerminator (c : ascii) : bool :=
  (Ascii.eqb c "010" || Ascii.eqb c "013")%bool.

(** The rounds of a star whose body is [step]: as many as possible
    first, each consuming at least one character, then [k]. *)
Fixpoint rounds {A : Type}
    (step : str -> captures -> (str -> captures -> option A) -> option A)
    (k : str -> captures -> option A) (fuel : nat) (s : str) (cs : captures)
    {struct fuel} : option A :=
  match fuel with
  | O => k s cs
  | S fuel' =>
      match step s cs
              (fun s1 cs1 =>
                 if Nat.ltb (List.length s1) (List.length s)
                 then rounds step k fuel' s1 cs1 else None) with
      | Some a => Some a
      | None => k s cs
      end
  end.

(** [run r s cs k]: match [r] at the front of [s], then continue with
    [k] on the rest; alternatives are tried in the order of the
    pattern, and what comes later is tried again after each of them
    (backtracking). *)
Fixpoint run {A : Type} (r : re) (s : str) (cs : captures)
    (k : str -> captures -> option A) {struct r} : option A :=
  match r with
  | Eps => k s cs
  | Chr p =>
      match s with
      | c :: s' => if chrMatches p c then k s' cs else None
      | [] => None
      end
  | Cls negated ranges =>
      match s with
      | c :: s' => if clsMatches negated ranges c then k s' cs else None
      | [] => None
      end
  | Dot =>
      match s with
      | c :: s' => if isLineTerminator c then None else k s' cs
      | [] => None
      end
  | Seq r1 r2 => run r1 s cs (fun s1 cs1 => run r2 s1 cs1 k)
  | Alt r1 r2 =>
      match run r1 s cs k with
      | Some a => Some a
      | None => run r2 s cs k
      end
  | Star r1 => rounds (fun s0 cs0 k0 => run r1 s0 cs0 k0) k (List.length s) s cs
  | Grp i r1 =>
      run r1 s cs
        (fun s1 cs1 => k s1 ((i, firstn (List.length s - List.length s1) s) :: cs1))
  | Bol => if Nat.eqb (List.length s) total then k s cs else None
  | Eol => match s with [] => k s cs | _ :: _ => None end
  end.

(** A match at the front of [s]: the rest after it and the captures. *)
Definition matchAt (r : re) (s : str) : option (str * captures) :=
  run r s [] (fun s1 cs1 => Some (s1, cs1)).

(** The leftmost match in [s]. *)
Fixpoint search (r : re) (s : str) : option (str * captures) :=
  match matchAt r s with
  | Some m => Some m
  | None =>
      match s with
      | [] => None
      | _ :: s' => search r s'
      end
  end.

(** Replace every match, left to right, the way [replace] does with
    the [g] flag: after an empty match one character is copied. *)
Fixpoint replaceGo (r : re) (by_ : str) (fuel : nat) (s : str) : str :=
  match fuel with
  | O => s
  | S fuel' =>
      match matchAt r s with
      | Some (rest, _) =>
          if Nat.ltb (List.length rest) (List.length s)
          then by_ ++ replaceGo r by_ fuel' rest
          else match s with
               | [] => by_
               | c :: s' => by_ ++ c :: replaceGo r by_ fuel' s'
               end
      | None =>
          match s with
          | [] => []
          | c :: s' => c :: replaceGo r by_ fuel' s'
          end
      end
  end.

End Matcher.

(** A regular expression literal: its pattern and its [i] flag. *)
Record t := mk { pattern : re; ignoreCase : bool }.

(** [RegExp.prototype.test] *)
Definition test (r : t) (s : str) : bool :=
  match search (ignoreCase r) (List.length s) (pattern r) s with
  | Some _ => true
  | None => false
  end.

Definition group (i : nat) (cs : captures) : option str :=
  match List.find (fun '(j, _) => Nat.eqb i j) cs with
  | Some (_, g) => Some g
  | None => None
  end.

(** [String.prototype.match] without the [g] flag: the captures of the
    leftmost match. *)
Definition exec (r : t) (s : str) : option captures :=
  match search (ignoreCase r) (List.length s) (pattern r) s with
  | Some (_, cs) => Some cs
  | None => None
  end.

(** [String.prototype.split] with a pattern: [cur] is the piece since
    the last separator, reversed; a match that is empty at the start of
    a piece does not split. *)
Fixpoint splitGo (r : t) (total : nat) (fuel : nat) (s cur : str) : list str :=
  match fuel with
  | O => [rev cur ++ s]
  | S fuel' =>
      match s with
      | [] => [rev cur]
      | c :: s' =>
          match matchAt (ignoreCase r) total (pattern r) s with
          | Some (rest, _) =>
              if (Nat.eqb (List.length rest) (List.length s) &&
                  match cur with [] => true | _ :: _ => false end)%bool
              then splitGo r total fuel' s' (c :: cur)
              else rev cur :: splitGo r total fuel' rest []
          | None => splitGo r total fuel' s' (c :: cur)
          end
      end
  end.

Definition split (r : t) (s : str) : list str :=
  match s with
  | [] => match matchAt (ignoreCase r) 0 (pattern r) [] with
          | Some _ => []
          | None => [[]]
          end
  | _ :: _ => splitGo r (List.length s) (2 * List.length s + 2) s []
  end.

(** [String.prototype.replace] with a [g]-flagged pattern and a
    replacement string without [$]. *)
Definition replaceAll (r : t) (by_ : str) (s : str) : str :=
  replaceGo (ignoreCase r) (List.length s) (pattern r) by_ (S (List.length s)) s.

End Re.

Declare Scope re_scope.
Delimit Scope re_scope with re.
Bind Scope re_scope with re.
Infix "-+-" := Seq (at level 41, right associativity) : re_scope.
Infix "-|-" := Alt (at level 42, right associativity) : re_scope.

(** The characters of a word, in sequence. *)
Definition word (s : string) : re := Re.Lit (lit s) Eps.
(** A class of single characters, [[abc]]. *)
Definition oneOf (s : string) : re := Cls false (List.map (fun c => (c, c)) (lit s)).
Definition noneOf (s : string) : re := Cls true (List.map (fun c => (c, c)) (lit s)).

(** ** JavaScript values that may be missing *)

Inductive js (A : Type) : Type :=
| undefined
| null
| val (a : A).
Arguments undefined {A}.
Arguments null {A}.
Arguments val {A} a.

Module Js.
(** Truthiness of a string, a number and a boolean that may be missing. *)
Definition truthyStr (v : js str) : bool :=
  match v with val (_ :: _) => true | _ => false end.
Definition truthyNum (v : js Z) : bool :=
  match v with val n => negb (n =? 0) | _ => false end.
Definition truthyBool (v : js bool) : bool :=
  match v with val b => b | _ => false end.

(** [v || null] *)
Definition strOrNull (v : js str) : js str := if truthyStr v then v else null.
Definition numOrNull (v : js Z) : js Z := if truthyNum v then v else null.
End Js.

(** ** Configuration and patterns of [background.js] *)

Definition MIN_VIDEO_SIZE_BYTES : Z := 500000.
Definition MAX_RESULTS : nat := 5.
Definition ENTRY_TTL_MS : Z := 10 * 60 * 1000.

Section Patterns.
Local Open Scope re_scope.

(** [/\.(mp4|m4v|mov|m3u8)(\?|#|$)/i] *)
Definition VIDEO_EXTENSIONS : Re.t :=
  Re.mk (Chr "." -+- Grp 1 (word "mp4" -|- word "m4v" -|- word "mov" -|- word "m3u8")
         -+- Grp 2 (Chr "?" -|- Chr "#" -|- Eol)) true.

(** [/\.(ts|m4s|m4a)(\?|#|$)/i] *)
Definition SEGMENT_EXTENSIONS : Re.t :=
  Re.mk (Chr "." -+- Grp 1 (word "ts" -|- word "m4s" -|- word "m4a")
         -+- Grp 2 (Chr "?" -|- Chr "#" -|- Eol)) true.

(** [/^(video\/|application\/(vnd\.apple\.mpegurl|x-mpegurl))/i] *)
Definition VIDEO_CONTENT_TYPES : Re.t :=
  Re.mk (Bol -+- Grp 1 (word "video/" -|-
                        word "application/" -+-
                        Grp 2 (word "vnd.apple.mpegurl" -|- word "x-mpegurl"))) true.

Definition SEGMENT_PATTERNS : list Re.t :=
  [ (* /[_\-/](seg|segment|frag|fragment|chunk|part)[_\-]?\d+/i *)
    Re.mk (oneOf "_-/" -+-
           Grp 1 (word "seg" -|- word "segment" -|- word "frag" -|- word "fragment" -|-
                  word "chunk" -|- word "part")
           -+- Re.Opt (oneOf "_-") -+- Re.Plus Re.digit) true;
    (* /[_\-/]init[_\-]?\d*\.(mp4|m4s)/i *)
    Re.mk (oneOf "_-/" -+- word "init" -+- Re.Opt (oneOf "_-") -+- Star Re.digit -+-
           Chr "." -+- Grp 1 (word "mp4" -|- word "m4s")) true;
    (* /[&?]range=\d+[_\-]\d+/i *)
    Re.mk (oneOf "&?" -+- word "range=" -+- Re.Plus Re.digit -+- oneOf "_-" -+-
           Re.Plus Re.digit) true;
    (* /\/range\/\d+/i *)
    Re.mk (word "/range/" -+- Re.Plus Re.digit) true;
    (* /[&?]bytestart=/i *)
    Re.mk (oneOf "&?" -+- word "bytestart=") true;
    (* /[&?]byteend=/i *)
    Re.mk (oneOf "&?" -+- word "byteend=") true ].

Definition AUDIO_ONLY_PATTERNS : list Re.t :=
  [ (* /[_\-/]audio[_\-/]/i *)
    Re.mk (oneOf "_-/" -+- word "audio" -+- oneOf "_-/") true;
    (* /audio[_\-]only/i *)
    Re.mk (word "audio" -+- oneOf "_-" -+- word "only") true;
    (* /\.m4a(\?|#|$)/i *)
    Re.mk (word ".m4a" -+- Grp 1 (Chr "?" -|- Chr "#" -|- Eol)) true;
    (* /\.aac(\?|#|$)/i *)
    Re.mk (word ".aac" -+- Grp 1 (Chr "?" -|- Chr "#" -|- Eol)) true ].

(** The patterns written inside the functions. *)

(** [/\.webm(\?|#|$)/i] *)
Definition WEBM_EXTENSION : Re.t :=
  Re.mk (word ".webm" -+- Grp 1 (Chr "?" -|- Chr "#" -|- Eol)) true.
(** [/\.m4s(\?|#|$)/i] *)
Definition M4S_EXTENSION : Re.t :=
  Re.mk (word ".m4s" -+- Grp 1 (Chr "?" -|- Chr "#" -|- Eol)) true.
(** [/\.mp4(\?|#|$)/i] *)
Definition MP4_EXTENSION : Re.t :=
  Re.mk (word ".mp4" -+- Grp 1 (Chr "?" -|- Chr "#" -|- Eol)) true.
(** [/\.m3u8(\?|#|$)/i] *)
Definition M3U8_EXTENSION : Re.t :=
  Re.mk (word ".m3u8" -+- Grp 1 (Chr "?" -|- Chr "#" -|- Eol)) true.
(** [/1080|1920|hd|high/i] *)
Definition HD_HINT : Re.t :=
  Re.mk (word "1080" -|- word "1920" -|- word "hd" -|- word "high") true.
(** [/720/i] *)
Definition HINT_720 : Re.t := Re.mk (word "720") true.

(** [/&bytestart=\d*/gi], [/&byteend=\d*/gi], [/\?bytestart=\d*&?/gi], [/\?$/g] *)
Definition AMP_BYTESTART : Re.t := Re.mk (word "&bytestart=" -+- Star Re.digit) true.
Definition AMP_BYTEEND : Re.t := Re.mk (word "&byteend=" -+- Star Re.digit) true.
Definition QM_BYTESTART : Re.t :=
  Re.mk (word "?bytestart=" -+- Star Re.digit -+- Re.Opt (Chr "&")) true.
Definition QM_AT_END : Re.t := Re.mk (Chr "?" -+- Eol) false.

End Patterns.

(** Source priority scores (higher = more relevant): the object literal
    [SOURCE_PRIORITY], entry by entry. *)
Definition SOURCE_PRIORITY : list (str * Z) :=
  [ (lit "instagram", 100);
    (lit "twitter", 100);
    (lit "vimeo", 100);
    (lit "tiktok", 100);
    (lit "instagram-json", 95);
    (lit "api", 90);
    (lit "hls", 85);
    (lit "og:video", 80);
    (lit "dom-playing", 75);
    (lit "dom", 50);
    (lit "webRequest", 40) ].

(** [obj[key]] on a table of own properties. *)
Fixpoint prop {A : Type} (obj : list (str * A)) (key : str) : option A :=
  match obj with
  | [] => None
  | (k, a) :: obj' => if Str.eqb k key then Some a else prop obj' key
  end.

(** The property name a missing value turns into. *)
Definition propertyKey (v : js str) : str :=
  match v with
  | undefined => lit "undefined"
  | null => lit "null"
  | val s => s
  end.

(** [SOURCE_PRIORITY] is a plain object: a lookup that finds no entry of
    its own goes on to [Object.prototype].  These are the members found
    there, each with the string its value turns into when it is added or
    compared: the text of a built-in function as Chrome prints it, and
    [[object Object]] for the prototype itself, which [__proto__] gives. *)
Definition nativeFunction (name : string) : str :=
  lit "function " ++ lit name ++ lit "() { [native code] }".

Definition Object_prototype : list (str * str) :=
  [ (lit "constructor", nativeFunction "Object");
    (lit "__defineGetter__", nativeFunction "__defineGetter__");
    (lit "__defineSetter__", nativeFunction "__defineSetter__");
    (lit "hasOwnProperty", nativeFunction "hasOwnProperty");
    (lit "__lookupGetter__", nativeFunction "__lookupGetter__");
    (lit "__lookupSetter__", nativeFunction "__lookupSetter__");
    (lit "isPrototypeOf", nativeFunction "isPrototypeOf");
    (lit "propertyIsEnumerable", nativeFunction "propertyIsEnumerable");
    (lit "toString", nativeFunction "toString");
    (lit "valueOf", nativeFunction "valueOf");
    (lit "__proto__", lit "[object Object]");
    (lit "toLocaleString", nativeFunction "toLocaleString") ].

(** What a lookup in [SOURCE_PRIORITY] gives: a number of the table, a
    member inherited from [Object.prototype] (a function or an object,
    held as the string it turns into), or [undefined]. *)
Module Priority.
Inductive t : Type :=
| number (n : Z)
| inherited (text : str)
| missing.

Definition truthy (p : t) : bool :=
  match p with
  | number n => negb (n =? 0)
  | inherited _ => true
  | missing => false
  end.

(** [p >= n]: the string of a function or an object is no numeral, so the
    comparison is with [NaN] and false, as it is with [undefined]. *)
Definition atLeast (p : t) (n : Z) : bool :=
  match p with
  | number m => n <=? m
  | _ => false
  end.

(** [p || 0] *)
Definition orZero (p : t) : t := if truthy p then p else number 0.

(** [a > b]: two numbers by value, two strings by their code units, and
    false between a number and a string that is no numeral. *)
Definition gt (a b : t) : bool :=
  match a, b with
  | number x, number y => y <? x
  | inherited s, inherited u => Str.ltb u s
  | _, _ => false
  end.
End Priority.

(** [SOURCE_PRIORITY[source]] *)
Definition sourcePriority (source : js str) : Priority.t :=
  match prop SOURCE_PRIORITY (propertyKey source) with
  | Some p => Priority.number p
  | None =>
      match prop Object_prototype (propertyKey source) with
      | Some text => Priority.inherited text
      | None => Priority.missing
      end
  end.

(** [SOURCE_PRIORITY[source] || 0] *)
Definition priorityOrZero (source : js str) : Priority.t :=
  Priority.orZero (sourcePriority source).

(** ** URL utilities *)

Definition cleanByteRangeUrl (url : str) : str :=
  Re.replaceAll QM_AT_END (lit "")
    (Re.replaceAll QM_BYTESTART (lit "?")
       (Re.replaceAll AMP_BYTEEND (lit "")
          (Re.replaceAll AMP_BYTESTART (lit "") url))).

(** ** Video filtering *)

Definition isPlayableVideo (url : str) (contentType : js str) (size : js Z)
    (source : js str) : bool :=
  let lower := Str.toLowerCase url in
  (* Always allow site-specific sources *)
  if (Js.truthyStr source && Priority.atLeast (sourcePriority source) 75)%bool
  then true
  (* Allow YouTube URLs (played directly) *)
  else if (Str.includes lower (lit "youtube.com/watch") ||
           Str.includes lower (lit "youtube.com/shorts/") ||
           Str.includes lower (lit "youtu.be/"))%bool
  then true
  (* Filter out webm *)
  else if Re.test WEBM_EXTENSION lower then false
  (* Filter out m4s segments *)
  else if Re.test M4S_EXTENSION lower then false
  else
    (* Must have video extension or content type *)
    let hasVideoExt := Re.test VIDEO_EXTENSIONS lower in
    let hasSegmentExt := Re.test SEGMENT_EXTENSIONS lower in
    let hasVideoContentType :=
      match contentType with
      | val ct => (Js.truthyStr contentType && Re.test VIDEO_CONTENT_TYPES ct)%bool
      | _ => false
      end in
    if (negb hasVideoExt && negb hasVideoContentType &&
        (* Large segment might be complete video *)
        negb (hasSegmentExt && Js.truthyNum size &&
              match size with val n => MIN_VIDEO_SIZE_BYTES * 2 <? n | _ => false end))%bool
    then false
    (* Filter segment patterns *)
    else if existsb (fun pattern => Re.test pattern lower) SEGMENT_PATTERNS then false
    (* Filter audio-only *)
    else if existsb (fun pattern => Re.test pattern lower) AUDIO_ONLY_PATTERNS then false
    (* Filter by size if available *)
    else if (Js.truthyNum size &&
             match size with val n => n <? MIN_VIDEO_SIZE_BYTES | _ => false end)%bool
    then false
    else true.

(** ** Video scoring *)

(** A score: a number, or, once a function or an object has been added to
    it, a string, to which [+=] appends the digits of what is added. *)
Module Score.
Inductive t : Type :=
| number (n : Z)
| text (s : str).

Definition toString (score : t) : str :=
  match score with
  | number n => Str.ofNumber n
  | text s => s
  end.

(** [score += n] *)
Definition add (score : t) (n : Z) : t :=
  match score with
  | number m => number (m + n)
  | text s => text (s ++ Str.ofNumber n)
  end.

(** [score += f] for a function or an object [f] that turns into [s] *)
Definition append (score : t) (s : str) : t := text (toString score ++ s).

(** [a === b] *)
Definition eqb (a b : t) : bool :=
  match a, b with
  | number x, number y => x =? y
  | text s, text u => Str.eqb s u
  | _, _ => false
  end.

(** [a - b], [None] for [NaN]: a score that is a string begins with the
    digits of 10 and the text of a function or an object, and is no
    numeral. *)
Definition minus (a b : t) : option Z :=
  match a, b with
  | number x, number y => Some (x - y)
  | _, _ => None
  end.
End Score.

Definition scoreVideo (url : str) (size : js Z) (source : js str) (quality : js str)
    : Score.t :=
  let score := Score.number 10 in
  let lower := Str.toLowerCase url in
  (* Source priority (biggest factor) *)
  let score :=
    if Js.truthyStr source then
      match sourcePriority source with
      | Priority.number p => if negb (p =? 0) then Score.add score p else score
      | Priority.inherited text => Score.append score text
      | Priority.missing => score
      end
    else score in
  (* Extension boost *)
  let score :=
    if Re.test MP4_EXTENSION lower then Score.add score 20
    else if Re.test M3U8_EXTENSION lower then Score.add score 15
    else score in
  (* Size boost *)
  let score :=
    match size with
    | val n =>
        if Js.truthyNum size then
          if 50000000 <? n then Score.add score 30
          else if 10000000 <? n then Score.add score 20
          else if 5000000 <? n then Score.add score 10
          else score
        else score
    | _ => score
    end in
  (* Quality boost *)
  let score :=
    match quality with
    | val qs =>
        if Js.truthyStr quality then
          match Str.parseInt qs with
          | Some q =>
              if 1080 <=? q then Score.add score 15
              else if 720 <=? q then Score.add score 10
              else if 480 <=? q then Score.add score 5
              else score
          | None => score
          end
        else score
    | _ => score
    end in
  (* Boost known quality indicators in URL *)
  let score := if Re.test HD_HINT lower then Score.add score 5 else score in
  let score := if Re.test HINT_720 lower then Score.add score 3 else score in
  score.

(** ** The registry *)

(** A candidate as an adapter hands it to [addVideoToTab].  A size that is
    [NaN] (a content length that does not parse) is falsy like a missing
    one and is modelled as such. *)
Module Video.
Record t := mk {
  url : js str;
  size : js Z;
  contentType : js str;
  source : js str;
  quality : js str;
  title : js str;
  playlist : js bool
}.
End Video.

(** What the registry stores under a clean URL. *)
Module Info.
Record t := mk {
  size : js Z;
  contentType : js str;
  timestamp : Z;
  source : js str;
  quality : js str;
  title : js str;
  playlist : js bool
}.
End Info.

(** An element of the list [getVideosForTab] returns. *)
Module Result.
Record t := mk {
  url : str;
  size : js Z;
  score : Score.t;
  timestamp : Z;
  quality : js str;
  source : js str;
  title : js str;
  playlist : js bool
}.
End Result.

(** A JavaScript [Map] with string keys: the entries in insertion order,
    one per key. *)
Module JSMap.
Section Ops.
  Context {A : Type}.

Fixpoint get (m : list (str * A)) (key : str) : option A :=
  match m with
  | [] => None
  | (k, a) :: m' => if Str.eqb k key then Some a else get m' key
  end.

(** [set] keeps the place of a key that is present and appends a new one. *)
Fixpoint set (m : list (str * A)) (key : str) (a : A) : list (str * A) :=
  match m with
  | [] => [(key, a)]
  | (k, b) :: m' =>
      if Str.eqb k key then (k, a) :: m' else (k, b) :: set m' key a
  end.

Fixpoint delete (m : list (str * A)) (key : str) : list (str * A) :=
  match m with
  | [] => []
  | (k, b) :: m' =>
      if Str.eqb k key then m' else (k, b) :: delete m' key
  end.

Definition keys (m : list (str * A)) : list str := List.map fst m.
End Ops.
End JSMap.

Abbreviation TabVideos := (list (str * Info.t)).

(** [videosByTab]: detected videos per tab. *)
Abbreviation Registry := (gmap Z TabVideos).

(** The update of an entry that is already stored (the [else] branch of
    [addVideoToTab]). *)
Definition mergeExisting (existing : Info.t) (video : Video.t) : Info.t :=
  (* Update with higher priority source *)
  let existingPriority := priorityOrZero (Info.source existing) in
  let newPriority := priorityOrZero (Video.source video) in
  let source' :=
    if Priority.gt newPriority existingPriority then Video.source video
    else Info.source existing in
  let quality' :=
    if (Js.truthyStr (Video.quality video) && negb (Js.truthyStr (Info.quality existing)))%bool
    then Video.quality video else Info.quality existing in
  let title' :=
    if (Js.truthyStr (Video.title video) && negb (Js.truthyStr (Info.title existing)))%bool
    then Video.title video else Info.title existing in
  Info.mk (Info.size existing) (Info.contentType existing) (Info.timestamp existing)
    source' quality' title' (Info.playlist existing).

(** The entry stored for a URL seen for the first time at time [now]. *)
Definition newEntry (now : Z) (video : Video.t) : Info.t :=
  Info.mk (Js.numOrNull (Video.size video)) (Js.strOrNull (Video.contentType video))
    now (Video.source video) (Video.quality video) (Video.title video)
    (Video.playlist video).

(** [addVideoToTab(tabId, video)], with [now] the value of [Date.now()]. *)
Definition addVideoToTab (now : Z) (videosByTab : Registry) (tabId : js Z)
    (video : Video.t) : Registry :=
  if (negb (Js.truthyNum tabId) || negb (Js.truthyStr (Video.url video)))%bool
  then videosByTab
  else
    match tabId, Video.url video with
    | val tab, val url =>
        if (Str.startsWith url (lit "blob:") || Str.startsWith url (lit "data:"))%bool
        then videosByTab
        else
          (* Clean the URL *)
          let cleanUrl := cleanByteRangeUrl url in
          let tabVideos :=
            match videosByTab !! tab with
            | Some m => m
            | None => []
            end in
          match JSMap.get tabVideos cleanUrl with
          | None =>
              <[tab := JSMap.set tabVideos cleanUrl (newEntry now video)]> videosByTab
          | Some existing =>
              <[tab := JSMap.set tabVideos cleanUrl (mergeExisting existing video)]> videosByTab
          end
    | _, _ => videosByTab
    end.

(** [Array.prototype.sort] with a comparator: a stable insertion sort,
    [a] stays before [b] unless [cmp a b] is positive.  With a comparator
    that orders the elements consistently this is the list every stable
    sort returns; with one that does not (it answers [NaN] for some pair)
    the language leaves the order to the implementation, and the
    statements about order are made for consistent comparators only. *)
Module Arr.
Section Sort.
  Context {A : Type} (cmp : A -> A -> Z).

Fixpoint insert (a : A) (l : list A) : list A :=
  match l with
  | [] => [a]
  | b :: l' => if cmp a b <=? 0 then a :: l else b :: insert a l'
  end.

Fixpoint sort (l : list A) : list A :=
  match l with
  | [] => []
  | a :: l' => insert a (sort l')
  end.
End Sort.

(** [slice(0, n)] *)
Definition slice0 {A : Type} (n : nat) (l : list A) : list A := firstn n l.
End Arr.

(** Sort by score (desc), then timestamp (desc); the sort takes a
    comparator's [NaN] for 0. *)
Definition byScoreThenTime (a b : Result.t) : Z :=
  if negb (Score.eqb (Result.score b) (Result.score a)) then
    match Score.minus (Result.score b) (Result.score a) with
    | Some d => d
    | None => 0
    end
  else Result.timestamp b - Result.timestamp a.

(** One round of the loop of [getVideosForTab] over the entries of the
    tab: the map and the results so far, then the entry visited. *)
Definition visitEntry (now : Z) (acc : TabVideos * list Result.t)
    (entry : str * Info.t) : TabVideos * list Result.t :=
  let '(tabVideos, results) := acc in
  let '(url, info) := entry in
  (* Skip expired *)
  if ENTRY_TTL_MS <? now - Info.timestamp info
  then (JSMap.delete tabVideos url, results)
  (* Skip non-playable *)
  else if negb (isPlayableVideo url (Info.contentType info) (Info.size info) (Info.source info))
  then (tabVideos, results)
  else (tabVideos,
        results ++
        [Result.mk url (Info.size info)
           (scoreVideo url (Info.size info) (Info.source info) (Info.quality info))
           (Info.timestamp info) (Info.quality info) (Info.source info)
           (Info.title info) (Info.playlist info)]).

(** [getVideosForTab(tabId)] with [now] the value of [Date.now()]: the
    list returned and the registry after the expired entries are deleted. *)
Definition getVideosForTab (now : Z) (videosByTab : Registry) (tabId : js Z)
    : list Result.t * Registry :=
  match tabId with
  | val tab =>
      match videosByTab !! tab with
      | None => ([], videosByTab)
      | Some tabVideos =>
          let '(tabVideos', results) :=
            fold_left (visitEntry now) tabVideos (tabVideos, []) in
          (Arr.slice0 MAX_RESULTS (Arr.sort byScoreThenTime results),
           <[tab := tabVideos']> videosByTab)
      end
  | _ => ([], videosByTab)
  end.

(** ** M3U8 parsing *)

Module Variant.
Record t := mk { url : str; quality : js str }.
End Variant.

Definition nl : str := ["010"%char].

Section ManifestPatterns.
Local Open Scope re_scope.

(** [/RESOLUTION=(\d+)x(\d+)/] *)
Definition RESOLUTION : Re.t :=
  Re.mk (word "RESOLUTION=" -+- Grp 1 (Re.Plus Re.digit) -+- Chr "x" -+-
         Grp 2 (Re.Plus Re.digit)) false.

(** [/^https?:\/\//] *)
Definition HTTP_PREFIX : Re.t :=
  Re.mk (Bol -+- word "http" -+- Re.Opt (Chr "s") -+- word "://") false.

(** [/(.+\/)[^\/]+\.m3u8/i] *)
Definition MANIFEST_BASE : Re.t :=
  Re.mk (Grp 1 (Re.Plus Dot -+- Chr "/") -+- Re.Plus (noneOf "/") -+- word ".m3u8") true.

(** [/[\s,\n]+/] *)
Definition PART_SEPARATOR : Re.t :=
  Re.mk (Re.Plus (Cls false [("009"%char, "013"%char); (" "%char, " "%char);
                              ("160"%char, "160"%char);
                              (","%char, ","%char); ("010"%char, "010"%char)])) false.
End ManifestPatterns.

(** [Math.min(parseInt(w), parseInt(h))] printed by a template literal:
    the digits of the lesser number, exact when that number is below
    2^53. *)
Definition minOfParsed (w h : str) : str :=
  match Str.parseInt w, Str.parseInt h with
  | Some a, Some b => Str.ofNumber (Z.min a b)
  | _, _ => lit "NaN"
  end.

(** [parseInt(quality) || 0] for a quality that may be [null]. *)
Definition qualityRank (quality : js str) : Z :=
  match Str.parseInt (propertyKey quality) with
  | Some q => q
  | None => 0
  end.

(** Sort by quality, best first. *)
Definition byQuality (a b : Variant.t) : Z :=
  qualityRank (Variant.quality b) - qualityRank (Variant.quality a).

(** Make absolute URL if relative. *)
Definition makeAbsolute (url variantUrl : str) : str :=
  if negb (Str.startsWith variantUrl (lit "http")) then
    match Re.exec MANIFEST_BASE url with
    | Some baseMatch =>
        match Re.group 1 baseMatch with
        | Some base => base ++ variantUrl
        | None => variantUrl
        end
    | None => variantUrl
    end
  else variantUrl.

(** A line or token that names the variant stream. *)
Definition looksLikeVariantUrl (s : str) : bool :=
  (negb (Str.startsWith s (lit "#")) &&
   (Str.includes s (lit ".m3u8") || Re.test HTTP_PREFIX s))%bool.

(** One line of a stream block in [fetchAndParseM3U8]: [quality] and
    [variantUrl] before and after. *)
Definition scanLine (acc : js str * js str) (line : str) : js str * js str :=
  let '(quality, variantUrl) := acc in
  let trimmed := Str.trim line in
  let quality :=
    if Str.includes trimmed (lit "RESOLUTION=") then
      match Re.exec RESOLUTION trimmed with
      | Some m =>
          match Re.group 1 m, Re.group 2 m with
          | Some w, Some h => val (minOfParsed w h ++ lit "p")
          | _, _ => quality
          end
      | None => quality
      end
    else quality in
  let variantUrl :=
    if (match trimmed with [] => false | _ :: _ => true end && looksLikeVariantUrl trimmed)%bool
    then val trimmed else variantUrl in
  (quality, variantUrl).

(** What both parsers do with the [variantUrl] of a block: push the
    variant, made absolute, when there is one. *)
Definition pushVariant (url : str) (variants : list Variant.t)
    (found : js str * js str) : list Variant.t :=
  let '(quality, variantUrl) := found in
  match variantUrl with
  | val v =>
      if Js.truthyStr variantUrl
      then variants ++ [Variant.mk (makeAbsolute url v) quality]
      else variants
  | _ => variants
  end.

(** One block between two stream declarations in [fetchAndParseM3U8]. *)
Definition scanBlock (url : str) (variants : list Variant.t) (segment : str)
    : list Variant.t :=
  match Str.trim segment with
  | [] => variants
  | _ :: _ =>
      pushVariant url variants (fold_left scanLine (Str.split segment nl) (null, null))
  end.

(** The variants [fetchAndParseM3U8] collects from the text of a master
    playlist at [url], sorted; [None] when the function returns before the
    loop. *)
Definition masterVariants (url text : str) : option (list Variant.t) :=
  if negb (Str.includes text (lit "#EXTM3U")) then None
  else if Str.includes text (lit "#EXT-X-STREAM-INF:") then
    (* Master playlist - parse variants *)
    let segments := Str.split text (lit "#EXT-X-STREAM-INF:") in
    let variants := fold_left (scanBlock url) segments [] in
    Some (Arr.sort byQuality variants)
  else None.

(** [fetchAndParseM3U8(url, tabId)]: [response] is the text the fetch
    resolves with, [None] when it rejects (the [catch] swallows it). *)
Definition fetchAndParseM3U8 (now : Z) (videosByTab : Registry) (url : str) (tabId : js Z)
    (response : option str) : Registry :=
  match response with
  | None => videosByTab
  | Some text =>
      match masterVariants url text with
      | None => videosByTab
      | Some variants =>
          fold_left
            (fun reg v =>
               addVideoToTab now reg tabId
                 (Video.mk (val (Variant.url v)) undefined undefined (val (lit "hls"))
                    (Variant.quality v) null (val true)))
            (Arr.slice0 3 variants) videosByTab
      end
  end.

(** ** The page watcher ([watcher.js]) *)

(** The object a parser hands to [dispatchVideo]. *)
Module Found.
Record t := mk {
  url : js str;
  quality : js str;
  source : js str;
  title : js str;
  playlist : js bool;
  alreadyProxied : js bool
}.
End Found.

(** One token of a stream block in [HLSParser.onLoad]. *)
Definition scanPart (acc : js str * js str) (part : str) : js str * js str :=
  let '(quality, variantUrl) := acc in
  let quality :=
    if Str.includes part (lit "RESOLUTION=") then
      match nth_error (Str.split part (lit "=")) 1 with
      | Some ((_ :: _) as res) =>
          val (match nth_error (Str.split res (lit "x")) 1 with
               | Some height => height
               | None => lit "undefined"
               end ++ lit "p")
      | _ => quality
      end
    else quality in
  let variantUrl :=
    (* Skip comment lines when looking for URLs *)
    if looksLikeVariantUrl part then val (Str.trim part) else variantUrl in
  (quality, variantUrl).

Definition scanBlockParts (url : str) (variants : list Variant.t) (segment : str)
    : list Variant.t :=
  match Str.trim segment with
  | [] => variants
  | _ :: _ =>
      pushVariant url variants
        (fold_left scanPart (Re.split PART_SEPARATOR segment) (null, null))
  end.

(** [HLSParser.onLoad(responseText, url)]: the objects it passes to
    [dispatchVideo], in order; [title] is [document.title]. *)
Definition HLSParser_onLoad (title : str) (responseText url : str) : list Found.t :=
  if negb (Str.includes responseText (lit "#EXTM3U")) then []
  else if negb (Str.includes url (lit ".m3u8")) then []
  else if Str.includes responseText (lit "#EXT-X-STREAM-INF:") then
    (* Parse master playlist *)
    let segments := Str.split responseText (lit "#EXT-X-STREAM-INF:") in
    let variants := fold_left (scanBlockParts url) segments [] in
    List.map
      (fun v => Found.mk (val (Variant.url v)) (Variant.quality v) (val (lit "hls"))
                  (val title) (val true) undefined)
      (Arr.sort byQuality variants)
  else
    (* Single variant playlist - dispatch the master URL *)
    [Found.mk (val url) undefined (val (lit "hls")) (val title) (val true) undefined].

(** Detect already-proxied URLs to avoid double-proxying. *)
Definition proxyPatterns : list Re.t :=
  [ (* /m3u8-proxy\?url=/i *) Re.mk (word "m3u8-proxy?url=") true;
    (* /pipe\.sideby\.me/i *) Re.mk (word "pipe.sideby.me") true;
    (* /\/proxy\/\?url=/i *) Re.mk (word "/proxy/?url=") true ].

Definition isAlreadyProxied (url : str) : bool :=
  existsb (fun p => Re.test p url) proxyPatterns.

(** [JSON.stringify] of a string. *)
Module Json.
Definition hexDigit (n : nat) : ascii :=
  if Nat.ltb n 10 then ascii_of_nat (48 + n) else ascii_of_nat (87 + n).

Definition escapeChar (c : ascii) : str :=
  let n := Str.code c in
  if Nat.eqb n 34 then ["\"%char; "034"%char]
  else if Nat.eqb n 92 then ["\"%char; "\"%char]
  else if Nat.eqb n 8 then lit "\b"
  else if Nat.eqb n 12 then lit "\f"
  else if Nat.eqb n 10 then lit "\n"
  else if Nat.eqb n 13 then lit "\r"
  else if Nat.eqb n 9 then lit "\t"
  else if Nat.ltb n 32 then lit "\u00" ++ [hexDigit (n / 16); hexDigit (n mod 16)]
  else [c].

Definition quote (s : str) : str :=
  "034"%char :: flat_map escapeChar s ++ ["034"%char].

(** [JSON.stringify] of an object whose properties are strings. *)
Definition object (props : list (str * str)) : str :=
  let member := fun '(k, v) => quote k ++ ":"%char :: quote v in
  "{"%char ::
    match props with
    | [] => []
    | p :: ps => member p ++ flat_map (fun q => ","%char :: member q) ps
    end ++ ["}"%char].
End Json.

Section Watcher.

(** The [URL] class of the page: [new URL(s)] ([None] when it throws),
    [url.protocol], [url.searchParams.set(k, v)] and [url.toString()]. *)
Context {URL : Type}.
Variable newURL : str -> option URL.
Variable protocol : URL -> str.
Variable searchParamsSet : URL -> str -> str -> URL.
Variable toString : URL -> str.

(** Check if a string is a valid URL *)
Definition isValidUrl (s : str) : bool :=
  match newURL s with
  | Some url =>
      (Str.eqb (protocol url) (lit "http:") || Str.eqb (protocol url) (lit "https:"))%bool
  | None => false
  end.

(** The [headers] object [embedHeaders] builds, as its list of
    properties: only valid URLs are embedded as referer and origin. *)
Definition validHeaders (referer origin : str) : list (str * str) :=
  let nonEmpty := fun s : str => match s with [] => false | _ :: _ => true end in
  (if (nonEmpty referer && isValidUrl referer)%bool then [(lit "referer", referer)] else []) ++
  (if (nonEmpty origin && isValidUrl origin)%bool then [(lit "origin", origin)] else []).

(** Embed referer/origin headers into a video URL for proxy to use *)
Definition embedHeaders (videoUrl referer origin : str) : str :=
  let nonEmpty := fun s : str => match s with [] => false | _ :: _ => true end in
  if (negb (nonEmpty referer) && negb (nonEmpty origin))%bool then videoUrl
  (* Skip if headers already embedded *)
  else if Str.includes videoUrl (lit "headers=") then videoUrl
  else
    let headers := validHeaders referer origin in
    match headers with
    | [] => videoUrl
    | _ :: _ =>
        match newURL videoUrl with
        | Some url => toString (searchParamsSet url (lit "headers") (Json.object headers))
        | None => videoUrl
        end
    end.

(** [foundVideos.has] on the set as a list. *)
Definition has (foundVideos : list str) (url : str) : bool :=
  existsb (Str.eqb url) foundVideos.

(** [dispatchVideo(video)] on a page whose [document.location] has
    [href = pageReferer] and [origin = pageOrigin]: the set
    [foundVideos] afterwards and the detail of the event dispatched, if
    any. *)
Definition dispatchVideo (pageReferer pageOrigin : str) (foundVideos : list str)
    (video : Found.t) : list str * option Found.t :=
  match Found.url video with
  | val url =>
      if (negb (Js.truthyStr (Found.url video)) || has foundVideos url)%bool
      then (foundVideos, None)
      else
        (* Flag already-proxied URLs (lower confidence) *)
        let alreadyProxied :=
          if isAlreadyProxied url then val true else Found.alreadyProxied video in
        (* Embed page origin headers for proxy to use (unless already has headers) *)
        let url' :=
          if (negb (Str.includes url (lit "headers=")) && negb (Js.truthyBool alreadyProxied))%bool
          then embedHeaders url pageReferer pageOrigin
          else url in
        ((if has foundVideos url' then foundVideos else foundVideos ++ [url']),
         Some (Found.mk (val url') (Found.quality video) (Found.source video)
                 (Found.title video) (Found.playlist video) alreadyProxied))
  | _ => (foundVideos, None)
  end.

End Watcher.

(** ** The source tags the adapters emit

[watcher.js] sends [instagram], [twitter], [vimeo], [hls] and [api];
[contentScript.js] sends [youtube], [dom-playing], [dom], [og:video],
[instagram-json] and [tiktok]; [background.js] adds [hls] and
[webRequest] itself. *)
Module Tag.
Inductive t : Type :=
| Instagram | Twitter | Vimeo | Tiktok | InstagramJson | Api | Hls
| OgVideo | DomPlaying | Dom | WebRequest | Youtube.

Definition name (tag : t) : str :=
  match tag with
  | Instagram => lit "instagram"
  | Twitter => lit "twitter"
  | Vimeo => lit "vimeo"
  | Tiktok => lit "tiktok"
  | InstagramJson => lit "instagram-json"
  | Api => lit "api"
  | Hls => lit "hls"
  | OgVideo => lit "og:video"
  | DomPlaying => lit "dom-playing"
  | Dom => lit "dom"
  | WebRequest => lit "webRequest"
  | Youtube => lit "youtube"
  end.
End Tag.

(** ** Observations used in the statements *)

(** The entry stored for [url] in the map of [tab], if any. *)
Definition entryOf (videosByTab : Registry) (tab : Z) (url : str) : option Info.t :=
  match videosByTab !! tab with
  | Some tabVideos => JSMap.get tabVideos url
  | None => None
  end.

(** An entry has outlived [ENTRY_TTL_MS] at time [now]. *)
Definition expired (now : Z) (info : Info.t) : bool :=
  ENTRY_TTL_MS <? now - Info.timestamp info.

(** The element of the result list made from a stored entry. *)
Definition resultOf (url : str) (info : Info.t) : Result.t :=
  Result.mk url (Info.size info)
    (scoreVideo url (Info.size info) (Info.source info) (Info.quality info))
    (Info.timestamp info) (Info.quality info) (Info.source info)
    (Info.title info) (Info.playlist info).

(** A source tag whose priority is a number or missing, not a member
    inherited from [Object.prototype]: the tags whose score is a number. *)
Definition plainTag (source : js str) : bool :=
  match sourcePriority source with
  | Priority.inherited _ => false
  | _ => true
  end.

(** Both priorities are numbers, or both are inherited members: the
    pairs [>] puts in order. *)
Definition sameKind (p q : Priority.t) : bool :=
  match p, q with
  | Priority.number _, Priority.number _ => true
  | Priority.inherited _, Priority.inherited _ => true
  | _, _ => false
  end.




(** Rule 1 and rule 2 of the classifier: the checks that accept before the
    URL is looked at more closely. *)
Definition trustedSource (source : js str) : bool :=
  (Js.truthyStr source && Priority.atLeast (sourcePriority source) 75)%bool.

Definition isYouTubeUrl (url : str) : bool :=
  let lower := Str.toLowerCase url in
  (Str.includes lower (lit "youtube.com/watch") ||
   Str.includes lower (lit "youtube.com/shorts/") ||
   Str.includes lower (lit "youtu.be/"))%bool.

Definition matchesAny (patterns : list Re.t) (url : str) : bool :=
  existsb (fun pattern => Re.test pattern (Str.toLowerCase url)) patterns.

(** The entries a query at time [now] keeps, and those it lists. *)
Definition kept (now : Z) (entry : str * Info.t) : bool :=
  negb (expired now (snd entry)).

Definition listed (now : Z) (entry : str * Info.t) : bool :=
  (kept now entry &&
   isPlayableVideo (fst entry) (Info.contentType (snd entry)) (Info.size (snd entry))
     (Info.source (snd entry)))%bool.

(** Where [addVideoToTab] stores a candidate: the tab and the clean URL,
    or nowhere when a guard returns first. *)
Definition target (tabId : js Z) (video : Video.t) : option (Z * str) :=
  match tabId, Video.url video with
  | val tab, val url =>
      if (Js.truthyNum tabId && Js.truthyStr (Video.url video) &&
          negb (Str.startsWith url (lit "blob:")) &&
          negb (Str.startsWith url (lit "data:")))%bool
      then Some (tab, cleanByteRangeUrl url)
      else None
  | _, _ => None
  end.

(** Two candidates tie when the first to arrive decides: the same priority
    under different source tags, or two different non-empty qualities or
    titles. *)
Definition noTie (a b : Video.t) : Prop :=
  (priorityOrZero (Video.source a) <> priorityOrZero (Video.source b) \/
   Video.source a = Video.source b) /\
  (Js.truthyStr (Video.quality a) = true -> Js.truthyStr (Video.quality b) = true ->
   Video.quality a = Video.quality b) /\
  (Js.truthyStr (Video.title a) = true -> Js.truthyStr (Video.title b) = true ->
   Video.title a = Video.title b).

(** What a candidate that passes the guards becomes in the map. *)
Definition storedAfter (now : Z) (before : option Info.t) (video : Video.t) : Info.t :=
  match before with
  | Some existing => mergeExisting existing video
  | None => newEntry now video
  end.


(** ** Example data *)

(** The two candidates of the end-to-end scenario, fed in this order. *)
Module Scenario.
Definition fromDom : Video.t :=
  Video.mk (val (lit "v.mp4")) (val 200000) undefined (val (lit "dom"))
    undefined undefined undefined.

Definition fromNetwork : Video.t :=
  Video.mk (val (lit "v.mp4")) (val 8000000) (val (lit "video/mp4"))
    (val (lit "webRequest")) undefined undefined undefined.

Definition fed (reg : Registry) (tab t1 t2 : Z) : Registry :=
  addVideoToTab t2 (addVideoToTab t1 reg (val tab) fromDom) (val tab) fromNetwork.

(** What the map of the tab holds afterwards. *)
Definition stored (t1 : Z) : Info.t :=
  Info.mk (val 200000) null t1 (val (lit "dom")) undefined undefined undefined.
End Scenario.

(** A candidate as a content script sends it: a URL, a source tag, a quality. *)
Definition tagged (url source quality : string) : Video.t :=
  Video.mk (val (lit url)) undefined undefined (val (lit source)) (val (lit quality))
    undefined undefined.

(** Two candidates of one tab, the first under a tag that names a member
    of [Object.prototype]. *)
Module Mixed.
Definition registry : Registry :=
  addVideoToTab 2000
    (addVideoToTab 1000 ∅ (val 7) (tagged "https://cdn.example/a.mp4" "constructor" ""))
    (val 7) (tagged "https://cdn.example/b.mp4" "dom" "").
End Mixed.

(** ** The steps of the classifier, by name *)

(** [contentType && VIDEO_CONTENT_TYPES.test(contentType)] *)
Definition hasVideoContentType (contentType : js str) : bool :=
  match contentType with
  | val ct => (Js.truthyStr contentType && Re.test VIDEO_CONTENT_TYPES ct)%bool
  | _ => false
  end.

(** [size && size > bound] and [size && size < bound] *)
Definition declaredAbove (size : js Z) (bound : Z) : bool :=
  (Js.truthyNum size && match size with val n => bound <? n | _ => false end)%bool.

Definition declaredBelow (size : js Z) (bound : Z) : bool :=
  (Js.truthyNum size && match size with val n => n <? bound | _ => false end)%bool.

(** The checks that follow the extension rules: segment names, audio-only
    names, minimum size. *)
Definition laterChecks (url : str) (size : js Z) : bool :=
  (negb (matchesAny SEGMENT_PATTERNS url) &&
   negb (matchesAny AUDIO_ONLY_PATTERNS url) &&
   negb (declaredBelow size MIN_VIDEO_SIZE_BYTES))%bool.

(** A registry is well formed when each tab's map has one entry per key,
    as a [Map] does. *)
Definition wellFormed (videosByTab : Registry) : Prop :=
  forall tab (tabVideos : TabVideos),
    videosByTab !! tab = Some tabVideos -> NoDup (JSMap.keys tabVideos).

(** ** Vocabulary for statements about patterns *)

(** The characters of [l], in order, at the front of [s], compared the way
    the matcher compares a literal. *)
Fixpoint litMatches (icase : bool) (l s : str) : bool :=
  match l, s with
  | [], _ => true
  | _ :: _, [] => false
  | p :: l', c :: s' => if Re.chrMatches icase p c then litMatches icase l' s' else false
  end.

(** What is left of a string after its leading decimal digits. *)
Fixpoint skipDigits (s : str) : str :=
  match s with
  | c :: s' => if Str.isDigit c then skipDigits s' else s
  | [] => []
  end.

Definition allDigits (s : str) : bool := forallb Str.isDigit s.

Definition noDigitAhead (s : str) : bool :=
  match s with
  | c :: _ => negb (Str.isDigit c)
  | [] => true
  end.

(** The number a run of decimal digits denotes. *)
Definition decimalValue (s : str) : Z :=
  fold_left (fun a c => a * 10 + (Z.of_nat (Str.code c) - 48)) s 0.

(** A URL on which none of the four replacements of [cleanByteRangeUrl]
    finds a match. *)
Definition isClean (url : str) : bool :=
  (negb (Re.test AMP_BYTESTART url) && negb (Re.test AMP_BYTEEND url) &&
   negb (Re.test QM_BYTESTART url) && negb (Re.test QM_AT_END url))%bool.

(** A byte-range parameter in [&] position, with its digits, and a run of
    such parameters as it is written in a URL. *)
Inductive rangeParam : Type :=
| Bytestart (digits : str)
| Byteend (digits : str).

Definition paramText (p : rangeParam) : str :=
  match p with
  | Bytestart d => lit "&bytestart=" ++ d
  | Byteend d => lit "&byteend=" ++ d
  end.

Definition paramsText (ps : list rangeParam) : str := flat_map paramText ps.

Definition isBytestart (p : rangeParam) : bool :=
  match p with Bytestart _ => true | Byteend _ => false end.

Definition isByteend (p : rangeParam) : bool :=
  match p with Bytestart _ => false | Byteend _ => true end.

Definition wellWritten (ps : list rangeParam) : bool :=
  forallb (fun p => allDigits match p with Bytestart d | Byteend d => d end) ps.

(** A URL with byte-range parameters and what is left of it without them:
    a run of parameters in [&] position anywhere in a clean URL;
    [?bytestart=] with its digits and a run of parameters at the end of
    one; and the same in front of further parameters, which then follow
    the question mark. *)
Inductive ranged : str -> str -> Prop :=
| ranged_amp (y t : str) (ps : list rangeParam) :
    isClean (y ++ t) = true -> noDigitAhead t = true -> wellWritten ps = true ->
    ranged (y ++ paramsText ps ++ t) (y ++ t)
| ranged_first_last (y d : str) (ps : list rangeParam) :
    isClean y = true -> allDigits d = true -> wellWritten ps = true ->
    ranged (y ++ lit "?bytestart=" ++ d ++ paramsText ps) y
| ranged_first (y d t : str) (ps : list rangeParam) :
    isClean (y ++ lit "?" ++ t) = true -> isClean (lit "&" ++ t) = true ->
    allDigits d = true -> wellWritten ps = true ->
    ranged (y ++ lit "?bytestart=" ++ d ++ paramsText ps ++ lit "&" ++ t)
      (y ++ lit "?" ++ t).

(** The literal [l] is not at the front of [a], whatever follows [a]: a
    character of [a] is not the one of [l] in its place. *)
Fixpoint clashes (icase : bool) (l a : str) : bool :=
  match l, a with
  | q :: l', c :: a' => if Re.chrMatches icase q c then clashes icase l' a' else true
  | _, _ => false
  end.

(** No match of [r] starts inside [y] when [y] is followed by [t]. *)
Definition quietBefore (icase : bool) (r : re) (y t : str) : Prop :=
  forall total y1 y2, y = y1 ++ y2 -> y2 <> [] -> Re.matchAt icase total r (y2 ++ t) = None.

(** The optional [&] after the digits of [?bytestart=]. *)
Definition skipAmp (icase : bool) (s : str) : str :=
  match s with
  | c :: s' => if Re.chrMatches icase "&" c then s' else s
  | [] => []
  end.

(** The non-empty suffixes of a string. *)
Fixpoint suffixes (s : str) : list str :=
  match s with
  | [] => []
  | _ :: s' => s :: suffixes s'
  end.

(** No character of [s] can start a literal whose first character is [p]. *)
Definition noneStarts (icase : bool) (p : ascii) (s : str) : bool :=
  forallb (fun c => negb (Re.chrMatches icase p c)) s.








(** A master playlist with two streams, the lower one first, and where it
    was fetched from. *)
Module Manifest.
Definition url : str := lit "https://cdn.example/live/master.m3u8".

Definition master : str :=
  lit "#EXTM3U" ++ nl ++
  lit "#EXT-X-STREAM-INF:BANDWIDTH=1280000,RESOLUTION=640x360" ++ nl ++
  lit "low/index.m3u8" ++ nl ++
  lit "#EXT-X-STREAM-INF:BANDWIDTH=2560000,RESOLUTION=1280x720" ++ nl ++
  lit "https://cdn.example/hi/index.m3u8" ++ nl.



(** A portrait stream. *)
Definition portrait : str :=
  lit "#EXTM3U" ++ nl ++
  lit "#EXT-X-STREAM-INF:BANDWIDTH=1280000,RESOLUTION=360x640" ++ nl ++
  lit "low/index.m3u8" ++ nl.
End Manifest.

(** A candidate as a parser of the page watcher builds it. *)
Definition found (url source : string) : Found.t :=
  Found.mk (val (lit url)) null (val (lit source)) (val (lit "title")) undefined undefined.

(** * The listeners, the page watcher and the content script

The parts of the extension around the detection core: in
[background.js] the listeners for completed requests, removed tabs,
messages and the context menu; in [watcher.js] the found set, the
selection of parsers by host, [searchKey] and the generic parser; in
[contentScript.js] [sendVideo], [checkYouTube] and the scan of the
[video] elements.  What the platform does is a parameter ([JSON.parse],
the [URL] class) or written out ([URLSearchParams]'s serializer). *)

(** ** The listeners of [background.js] *)

(** HLS Content Types *)
Definition HLS_CONTENT_TYPES : list str :=
  [ lit "audio/mpegurl";
    lit "application/mpegurl";
    lit "application/x-mpegurl";
    lit "audio/x-mpegurl";
    lit "application/vnd.apple.mpegurl";
    lit "application/vnd.apple.mpegurl.audio" ].

(** A response header and the [details] of a completed request, as far as
    the listener reads them. *)
Module Header.
Record t := mk { name : str; value : js str }.
End Header.

Module Details.
Record t := mk {
  tabId : js Z;
  url : js str;
  responseHeaders : option (list Header.t)
}.
End Details.

(** [details.responseHeaders?.find((h) => h.name.toLowerCase() === name)] *)
Definition findHeader (name : str) (responseHeaders : option (list Header.t))
    : option Header.t :=
  match responseHeaders with
  | Some headers =>
      List.find (fun h => Str.eqb (Str.toLowerCase (Header.name h)) name) headers
  | None => None
  end.

(** [header?.value || ""] *)
Definition valueOrEmpty (header : option Header.t) : str :=
  match header with
  | Some h => match Header.value h with val v => v | _ => [] end
  | None => []
  end.

(** [parseInt(s, 10)]: leading white space, a sign, then the longest run
    of decimal digits (no [0x] prefix with an explicit radix of 10);
    [None] is [NaN]. *)
Definition parseInt10 (s : str) : option Z :=
  let s1 := Str.trimStart s in
  let '(neg, s2) :=
    match s1 with
    | c :: r => if Ascii.eqb c "-" then (true, r)
                else if Ascii.eqb c "+" then (false, r) else (false, s1)
    | [] => (false, s1)
    end in
  match Str.digitsGo 10 s2 None with
  | Some v => Some (if neg then - v else v)
  | None => None
  end.

(** [header?.value ? parseInt(header.value, 10) : null]; a length that
    does not parse is [NaN], which the registry treats like [null]. *)
Definition contentLength (header : option Header.t) : js Z :=
  match header with
  | Some h =>
      match Header.value h with
      | val v =>
          if Js.truthyStr (Header.value h)
          then match parseInt10 v with Some n => val n | None => null end
          else null
      | _ => null
      end
  | None => null
  end.

(** [contentType.toLowerCase()] names one of the HLS content types. *)
Definition isHLS (contentType : str) : bool :=
  existsb (fun ct => Str.includes (Str.toLowerCase contentType) ct) HLS_CONTENT_TYPES.

(** The listener of [chrome.webRequest.onCompleted], up to the point
    where it returns: the registry afterwards and the playlist it asked
    [fetchAndParseM3U8] to fetch, if any.  The fetch is started before the
    playlist itself is stored and resolves after the listener has
    returned. *)
Definition onCompleted (now : Z) (videosByTab : Registry) (details : Details.t)
    : Registry * option (str * js Z) :=
  if (negb (Js.truthyNum (Details.tabId details)) ||
      match Details.tabId details with val n => n <? 0 | _ => false end)%bool
  then (videosByTab, None)
  else
    match Details.url details with
    | val url =>
        if (negb (Js.truthyStr (Details.url details)) ||
            Str.startsWith url (lit "data:") || Str.startsWith url (lit "blob:"))%bool
        then (videosByTab, None)
        else
          let contentTypeHeader :=
            findHeader (lit "content-type") (Details.responseHeaders details) in
          let contentType := valueOrEmpty contentTypeHeader in
          (* Check for M3U8/HLS content type *)
          let isM3U8Url := Str.includes url (lit ".m3u8") in
          if (isHLS contentType || isM3U8Url)%bool then
            (* Also add the master playlist *)
            (addVideoToTab now videosByTab (Details.tabId details)
               (Video.mk (val url) undefined (val contentType) (val (lit "hls"))
                  undefined undefined (val true)),
             Some (url, Details.tabId details))
          else
            (* Check for regular video *)
            let hasVideoExt :=
              (Re.test VIDEO_EXTENSIONS url || Re.test SEGMENT_EXTENSIONS url)%bool in
            let hasVideoContentType := Re.test VIDEO_CONTENT_TYPES contentType in
            if (negb hasVideoExt && negb hasVideoContentType)%bool
            then (videosByTab, None)
            else
              let contentLengthHeader :=
                findHeader (lit "content-length") (Details.responseHeaders details) in
              let size := contentLength contentLengthHeader in
              (addVideoToTab now videosByTab (Details.tabId details)
                 (Video.mk (val url) size (val contentType) (val (lit "webRequest"))
                    undefined undefined undefined),
               None)
    | _ => (videosByTab, None)
    end.

(** The listener and the fetch it started, when nothing else touches the
    registry in between: [response] is what the fetch resolves with at
    time [later]. *)
Definition onCompletedSettled (now later : Z) (videosByTab : Registry)
    (details : Details.t) (response : option str) : Registry :=
  match onCompleted now videosByTab details with
  | (reg, Some (url, tabId)) => fetchAndParseM3U8 later reg url tabId response
  | (reg, None) => reg
  end.

(** Tab cleanup: the listener of [chrome.tabs.onRemoved]. *)
Definition onRemoved (videosByTab : Registry) (tabId : Z) : Registry :=
  delete tabId videosByTab.

(** A message to the background script, with the properties its handler
    and the content script use. *)
Module Message.
Record t := mk {
  type : js str;
  tabId : js Z;
  url : js str;
  source : js str;
  quality : js str;
  title : js str;
  pageUrl : js str;
  playlist : js bool
}.
End Message.

(** What the message handler did: the registry afterwards, the response
    it sent and whether it returned [true]. *)
Module Handled.
Record t := mk {
  registry : Registry;
  response : option (list Result.t);
  returned : bool
}.
End Handled.

Definition typeIs (message : js Message.t) (name : string) : bool :=
  match message with
  | val m => match Message.type m with val t => Str.eqb t (lit name) | _ => false end
  | _ => false
  end.

(** The listener of [chrome.runtime.onMessage]; [senderTab] is
    [sender?.tab?.id]. *)
Definition onMessage (now : Z) (videosByTab : Registry) (message : js Message.t)
    (senderTab : js Z) : Handled.t :=
  match message with
  | val m =>
      if typeIs message "GET_VIDEOS" then
        let tabId := Message.tabId m in
        let '(videos, reg) := getVideosForTab now videosByTab tabId in
        Handled.mk reg (Some videos) true
      else if typeIs message "ADD_VIDEO" then
        let tabId := if Js.truthyNum (Message.tabId m) then Message.tabId m else senderTab in
        Handled.mk
          (addVideoToTab now videosByTab tabId
             (Video.mk (Message.url m) undefined undefined (Message.source m)
                (Message.quality m) (Message.title m) (Message.playlist m)))
          None true
      else if typeIs message "CLEAR_VIDEOS" then
        let tabId := senderTab in
        Handled.mk
          (match tabId with
           | val tab =>
               if (Js.truthyNum tabId &&
                   match videosByTab !! tab with Some _ => true | None => false end)%bool
               then <[tab := []]> videosByTab
               else videosByTab
           | _ => videosByTab
           end)
          None true
      else Handled.mk videosByTab None false
  | _ => Handled.mk videosByTab None false
  end.

(** ** The parts of a score *)

(** What each step of [scoreVideo] adds. *)
Definition extensionBoost (url : str) : Z :=
  if Re.test MP4_EXTENSION (Str.toLowerCase url) then 20
  else if Re.test M3U8_EXTENSION (Str.toLowerCase url) then 15
  else 0.

Definition sizeBoost (size : js Z) : Z :=
  match size with
  | val n =>
      if 50000000 <? n then 30
      else if 10000000 <? n then 20
      else if 5000000 <? n then 10
      else 0
  | _ => 0
  end.

Definition qualityBoost (quality : js str) : Z :=
  match quality with
  | val qs =>
      match Str.parseInt qs with
      | Some q =>
          if 1080 <=? q then 15
          else if 720 <=? q then 10
          else if 480 <=? q then 5
          else 0
      | None => 0
      end
  | _ => 0
  end.

Definition hintBoost (url : str) : Z :=
  (if Re.test HD_HINT (Str.toLowerCase url) then 5 else 0) +
  (if Re.test HINT_720 (Str.toLowerCase url) then 3 else 0).

(** ** Observations on the registry *)

(** The URLs stored for a tab, in the order of the map. *)
Definition keysOf (videosByTab : Registry) (tab : Z) : list str :=
  JSMap.keys (default [] (videosByTab !! tab)).

(** An entry as [fetchAndParseM3U8] creates it at time [now]. *)
Definition fromPlaylist (now : Z) (info : Info.t) : Prop :=
  Info.source info = val (lit "hls") /\ Info.playlist info = val true /\
  Info.size info = null /\ Info.contentType info = null /\ Info.title info = null /\
  Info.timestamp info = now.

(** The candidate [fetchAndParseM3U8] makes of a variant, and its loop
    over the variants it keeps. *)
Definition playlistCandidate (v : Variant.t) : Video.t :=
  Video.mk (val (Variant.url v)) undefined undefined (val (lit "hls"))
    (Variant.quality v) null (val true).

Definition addVariants (now : Z) (tabId : js Z) (variants : list Variant.t)
    (videosByTab : Registry) : Registry :=
  fold_left (fun reg v => addVideoToTab now reg tabId (playlistCandidate v))
    variants videosByTab.

(** Whether a match was found. *)
Definition matched {A : Type} (o : option A) : bool :=
  match o with Some _ => true | None => false end.

(** The content type the listener reads off a response. *)
Definition responseContentType (details : Details.t) : str :=
  valueOrEmpty (findHeader (lit "content-type") (Details.responseHeaders details)).

Definition responseSize (details : Details.t) : js Z :=
  contentLength (findHeader (lit "content-length") (Details.responseHeaders details)).

(** A short clip as a server sends it: the length in the third header,
    its name in mixed case, and a second length header behind it. *)
Module Thumbnail.
Definition url : str := lit "https://cdn.example/v.mp4".
Definition response : Details.t :=
  Details.mk (val 7) (val url)
    (Some [Header.mk (lit "Content-Type") (val (lit "video/mp4"));
           Header.mk (lit "Server") undefined;
           Header.mk (lit "content-LENGTH") (val (lit "20480"));
           Header.mk (lit "Content-Length") (val (lit "999999999"))]).
End Thumbnail.

(** The messages the popup and the content script send without a
    candidate: [{ type: "GET_VIDEOS", tabId }] and [{ type: "CLEAR_VIDEOS" }]. *)
Definition getVideosMessage (tabId : js Z) : js Message.t :=
  val (Message.mk (val (lit "GET_VIDEOS")) tabId undefined undefined undefined undefined
         undefined undefined).

Definition clearVideosMessage : js Message.t :=
  val (Message.mk (val (lit "CLEAR_VIDEOS")) undefined undefined undefined undefined
         undefined undefined undefined).

(** The tab an [ADD_VIDEO] message is stored for:
    [message.tabId || sender?.tab?.id]. *)
Definition addressedTab (m : Message.t) (senderTab : js Z) : js Z :=
  if Js.truthyNum (Message.tabId m) then Message.tabId m else senderTab.

(** The candidate the handler makes of an [ADD_VIDEO] message. *)
Definition announced (m : Message.t) : Video.t :=
  Video.mk (Message.url m) undefined undefined (Message.source m) (Message.quality m)
    (Message.title m) (Message.playlist m).

(** ** The found set of the page watcher *)

(** [checkUrlChange()]: [lastUrl] and [foundVideos] afterwards, and
    whether the clear event was dispatched; [href] is
    [document.location.href]. *)
Definition checkUrlChange (href lastUrl : str) (foundVideos : list str)
    : str * list str * bool :=
  if negb (Str.eqb href lastUrl) then (href, [], true) else (lastUrl, foundVideos, false).

Section Dispatched.
Context {URL : Type}.
Variable newURL : str -> option URL.
Variable protocol : URL -> str.
Variable searchParamsSet : URL -> str -> str -> URL.
Variable toString : URL -> str.

(** The flag and the URL [dispatchVideo] gives a candidate found at [url]. *)
Definition flagged (video : Found.t) (url : str) : js bool :=
  if isAlreadyProxied url then val true else Found.alreadyProxied video.

Definition rewritten (pageReferer pageOrigin : str) (video : Found.t) (url : str) : str :=
  if (negb (Str.includes url (lit "headers=")) && negb (Js.truthyBool (flagged video url)))%bool
  then embedHeaders newURL protocol searchParamsSet toString url pageReferer pageOrigin
  else url.

(** The detail of the event. *)
Definition detailOf (pageReferer pageOrigin : str) (video : Found.t) (url : str) : Found.t :=
  Found.mk (val (rewritten pageReferer pageOrigin video url)) (Found.quality video)
    (Found.source video) (Found.title video) (Found.playlist video) (flagged video url).

End Dispatched.

(** Every character, for checks by cases. *)
Definition allAscii : list ascii := List.map ascii_of_nat (seq 0 256).

(** A literal written in lower case. *)
Definition isLowerCase (l : str) : bool :=
  forallb (fun p => Ascii.eqb (Str.lowerChar p) p) l.

(** A string in which the character [sep] does not occur. *)
Definition lacks (sep : ascii) (s : str) : bool :=
  forallb (fun c => negb (Ascii.eqb sep c)) s.

(** The token of a stream declaration that gives its resolution. *)
Definition resolutionToken (w h : str) : str :=
  lit "RESOLUTION=" ++ w ++ "x"%char :: h.

(** ** Parsed JSON

What [JSON.parse] returns.  The properties of an object are listed in the
order in which [for ... in] enumerates them; numbers are integers, as
everywhere in this development. *)

#[local] Unset Elimination Schemes.
Inductive json : Type :=
| JNull
| JBool (b : bool)
| JNum (n : Z)
| JStr (s : str)
| JArr (items : list json)
| JObj (props : list (str * json)).
#[local] Set Elimination Schemes.

Module JsonValue.
(** Truthiness, and [typeof v === "object"] (which holds of [null]). *)
Definition truthy (v : json) : bool :=
  match v with
  | JNull => false
  | JBool b => b
  | JNum n => negb (n =? 0)
  | JStr s => match s with [] => false | _ :: _ => true end
  | JArr _ | JObj _ => true
  end.

Definition isObjectType (v : json) : bool :=
  match v with
  | JNull | JArr _ | JObj _ => true
  | JBool _ | JNum _ | JStr _ => false
  end.

(** The property names of an array: its indices, as strings. *)
Fixpoint indexed (i : nat) (items : list json) : list (str * json) :=
  match items with
  | [] => []
  | v :: items' => (Str.ofNumber (Z.of_nat i), v) :: indexed (S i) items'
  end.

(** The own enumerable properties [for (const k in obj)] goes through. *)
Definition entries (obj : json) : list (str * json) :=
  match obj with
  | JArr items => indexed 0 items
  | JObj props => props
  | _ => []
  end.
End JsonValue.

(** [searchKey(obj, key, results)] of [contentScript.js], which is also
    what the function of that name in [watcher.js] does when its fourth
    argument is left out: the values stored under [key] at any depth, in
    the order of the walk. *)
Fixpoint searchKey (obj : json) (key : str) (results : list json) {struct obj}
    : list json :=
  match obj with
  | JArr items =>
      (fix each (i : nat) (rest : list json) (results : list json) {struct rest}
         : list json :=
         match rest with
         | [] => results
         | v :: rest' =>
             let results :=
               if (Str.eqb (Str.ofNumber (Z.of_nat i)) key && JsonValue.truthy v)%bool
               then results ++ [v] else results in
             let results :=
               if JsonValue.isObjectType v then searchKey v key results else results in
             each (S i) rest' results
         end) 0%nat items results
  | JObj props =>
      (fix each (rest : list (str * json)) (results : list json) {struct rest}
         : list json :=
         match rest with
         | [] => results
         | (k, v) :: rest' =>
             let results :=
               if (Str.eqb k key && JsonValue.truthy v)%bool then results ++ [v] else results in
             let results :=
               if JsonValue.isObjectType v then searchKey v key results else results in
             each rest' results
         end) props results
  | JNull | JBool _ | JNum _ | JStr _ => results
  end.

(** One round of the loop of [searchKey]. *)
Definition searchStep (key : str) (results : list json) (entry : str * json) : list json :=
  let '(k, v) := entry in
  let results := if (Str.eqb k key && JsonValue.truthy v)%bool then results ++ [v] else results in
  if JsonValue.isObjectType v then searchKey v key results else results.

(** [v] is stored under [key], with a truthy value, in [obj] or in a
    value nested in it. *)
Inductive storedUnder (key : str) : json -> json -> Prop :=
| storedHere (obj v : json) :
    In (key, v) (JsonValue.entries obj) -> JsonValue.truthy v = true -> storedUnder key obj v
| storedDeeper (obj : json) (k : str) (child v : json) :
    In (k, child) (JsonValue.entries obj) -> storedUnder key child v -> storedUnder key obj v.

(** ** The generic parser of [watcher.js] *)

Definition videoKeys : list str :=
  [ lit "file"; lit "video_url"; lit "video"; lit "source"; lit "src"; lit "stream_url";
    lit "download_url"; lit "url" ].

Section ApiPatterns.
Local Open Scope re_scope.
(** [/\.(mp4|m3u8)(\?|$)/i] *)
Definition API_VIDEO : Re.t :=
  Re.mk (Chr "." -+- Grp 1 (word "mp4" -|- word "m3u8") -+- Grp 2 (Chr "?" -|- Eol)) true.

(** [/seg-\d+|chunk-\d+|fragment-\d+/i] *)
Definition SEGMENT_NAME : Re.t :=
  Re.mk ((word "seg-" -+- Re.Plus Re.digit) -|- (word "chunk-" -+- Re.Plus Re.digit) -|-
         (word "fragment-" -+- Re.Plus Re.digit)) true.
End ApiPatterns.

(** The test a string value passes to be dispatched. *)
Definition acceptsApiUrl (value : str) : bool :=
  (matched (Re.exec API_VIDEO value) &&
   (* Skip segments and byte-range URLs *)
   negb (Str.includes value (lit "bytestart=") || Str.includes value (lit "byteend=")) &&
   negb (matched (Re.exec SEGMENT_NAME value)))%bool.

Definition apiCandidate (title : str) (value : str) : Found.t :=
  Found.mk (val value) undefined (val (lit "api")) (val title) undefined undefined.

(** The candidates [GenericParser.onLoad] passes to [dispatchVideo] once
    the response is parsed, in order; [title] is [document.title]. *)
Definition GenericParser_candidates (title : str) (data : json) : list Found.t :=
  flat_map
    (fun key =>
       flat_map
         (fun value =>
            match value with
            | JStr s => if acceptsApiUrl s then [apiCandidate title s] else []
            | _ => []
            end)
         (searchKey data key []))
    videoKeys.

(** [GenericParser.onLoad(responseText, url)]; [parse] is [JSON.parse],
    [None] when it throws. *)
Definition GenericParser_onLoad (parse : str -> option json) (title : str)
    (responseText url : str) : list Found.t :=
  match parse responseText with
  | Some data => GenericParser_candidates title data
  | None => []
  end.

(** ** Which parsers run on a page *)

(** An element of [origins]: a host name or a pattern. *)
Inductive origin : Type :=
| Host (name : str)
| Pattern (r : Re.t).

(** The test of the interception hooks:
    [parser.origins.length === 0 || parser.origins.some(...)]. *)
Definition parserApplies (origins : list origin) (hostname : str) : bool :=
  (Nat.eqb (List.length origins) 0 ||
   existsb
     (fun o =>
        match o with
        | Pattern r => Re.test r hostname
        | Host name => (Str.eqb hostname name || Str.includes hostname name)%bool
        end)
     origins)%bool.

Module InstagramParser.
Definition origins : list origin :=
  [ Host (lit "www.instagram.com"); Host (lit "instagram.com");
    (* /instagram\.com/ *) Pattern (Re.mk (word "instagram.com") false) ].
End InstagramParser.

Module TwitterParser.
Definition origins : list origin :=
  [ (* /twitter\.com/ *) Pattern (Re.mk (word "twitter.com") false);
    (* /x\.com/ *) Pattern (Re.mk (word "x.com") false) ].
End TwitterParser.

Module VimeoParser.
Definition origins : list origin :=
  [ (* /vimeo\.com/ *) Pattern (Re.mk (word "vimeo.com") false) ].
End VimeoParser.

Module HLSParser.
Definition origins : list origin := [].
End HLSParser.

Module GenericParser.
Definition origins : list origin := [].
End GenericParser.

(** ** The content script ([contentScript.js]) *)

(** [sendVideo(video)]: the message sent to the background script, on a
    page with [document.title = documentTitle] and
    [document.location.href = href]. *)
Definition sendVideo (documentTitle href : str) (video : Found.t) : Message.t :=
  Message.mk (val (lit "ADD_VIDEO")) undefined (Found.url video) (Found.source video)
    (Found.quality video)
    (if Js.truthyStr (Found.title video) then Found.title video else val documentTitle)
    (val href) (Found.playlist video).

(** The listener of the watcher's event: [detail] is [event.detail]. *)
Definition onVideoFound (documentTitle href : str) (detail : js Found.t)
    : option Message.t :=
  match detail with
  | val video =>
      if Js.truthyStr (Found.url video) then Some (sendVideo documentTitle href video)
      else None
  | _ => None
  end.

(** [String.prototype.replace] with a string pattern and a replacement
    without [$]: the first occurrence is replaced. *)
Fixpoint replaceFirst (s pattern by_ : str) : str :=
  if Str.startsWith s pattern then by_ ++ skipn (List.length pattern) s
  else match s with
       | [] => []
       | c :: s' => c :: replaceFirst s' pattern by_
       end.

(** [checkYouTube()]: the message it sends, if any; [hostname] and [href]
    are those of [window.location]. *)
Definition checkYouTube (hostname href documentTitle : str) : option Message.t :=
  if negb (Str.includes hostname (lit "youtube.com")) then None
  else
    let url := href in
    if (Str.includes url (lit "/watch") || Str.includes url (lit "/shorts/"))%bool
    then Some (sendVideo documentTitle href
                 (Found.mk (val url) undefined (val (lit "youtube"))
                    (val (replaceFirst documentTitle (lit " - YouTube") (lit "")))
                    undefined undefined))
    else None.

(** A [video] element as [scanVideos] reads it: its class mark, its
    sources, its playback state, and its rectangle in the viewport.
    The coordinates and the playback time are integers here; they are
    only compared with 0 and with the size of the window. *)
Module Rect.
Record t := mk { top : Z; bottom : Z; left : Z; right : Z }.
End Rect.

Module VideoElement.
Record t := mk {
  processed : bool;
  src : str;
  currentSrc : str;
  sources : list str;
  paused : bool;
  ended : bool;
  currentTime : Z;
  rect : Rect.t
}.
End VideoElement.

Definition isInViewport (innerWidth innerHeight : Z) (el : VideoElement.t) : bool :=
  let rect := VideoElement.rect el in
  ((Rect.top rect <? innerHeight) && (0 <? Rect.bottom rect) &&
   (Rect.left rect <? innerWidth) && (0 <? Rect.right rect))%bool.

(** [s && !s.startsWith('blob:') && !s.startsWith('data:')] *)
Definition isPlainSrc (s : str) : bool :=
  (match s with [] => false | _ :: _ => true end &&
   negb (Str.startsWith s (lit "blob:")) && negb (Str.startsWith s (lit "data:")))%bool.

(** The URLs [scanVideos] collects from an element, in order. *)
Definition collectedUrls (video : VideoElement.t) : list str :=
  (if isPlainSrc (VideoElement.src video) then [VideoElement.src video] else []) ++
  (if isPlainSrc (VideoElement.currentSrc video) then [VideoElement.currentSrc video] else []) ++
  List.filter isPlainSrc (VideoElement.sources video).

(** The loop that sends the unique URLs: [seen] and the messages so
    far, then one URL. *)
Definition sendUnique (documentTitle href : str) (source : str)
    (acc : list str * list Message.t) (url : str) : list str * list Message.t :=
  let '(seen, sent) := acc in
  if has seen url then acc
  else
    let seen := seen ++ [url] in
    (* Clean byte-range URLs *)
    let cleanUrl := cleanByteRangeUrl url in
    if (Str.includes cleanUrl (lit "bytestart=") || Str.includes cleanUrl (lit "byteend="))%bool
    then (seen, sent)
    else (seen,
          sent ++ [sendVideo documentTitle href
                     (Found.mk (val cleanUrl) undefined (val source) (val documentTitle)
                        undefined undefined)]).

(** The source tag of an element: prefer playing and visible videos. *)
Definition domSource (innerWidth innerHeight : Z) (video : VideoElement.t) : str :=
  let isPlaying :=
    (negb (VideoElement.paused video) && negb (VideoElement.ended video) &&
     (0 <? VideoElement.currentTime video))%bool in
  let isVisible := isInViewport innerWidth innerHeight video in
  if (isPlaying && isVisible)%bool then lit "dom-playing" else lit "dom".

(** One round of the loop of [scanVideos]: the messages sent for an
    element and the element afterwards. *)
Definition scanVideo (documentTitle href : str) (innerWidth innerHeight : Z)
    (video : VideoElement.t) : list Message.t * VideoElement.t :=
  if VideoElement.processed video then ([], video)
  else
    (snd (fold_left
            (sendUnique documentTitle href (domSource innerWidth innerHeight video))
            (collectedUrls video) ([], [])),
     VideoElement.mk true (VideoElement.src video) (VideoElement.currentSrc video)
       (VideoElement.sources video) (VideoElement.paused video) (VideoElement.ended video)
       (VideoElement.currentTime video) (VideoElement.rect video)).

(** A URL that still shows a byte range after cleaning. *)
Definition showsByteRange (url : str) : bool :=
  (Str.includes (cleanByteRangeUrl url) (lit "bytestart=") ||
   Str.includes (cleanByteRangeUrl url) (lit "byteend="))%bool.

(** The message [scanVideos] sends for a URL of an element. *)
Definition domMessage (documentTitle href source url : str) : Message.t :=
  sendVideo documentTitle href
    (Found.mk (val (cleanByteRangeUrl url)) undefined (val source) (val documentTitle)
       undefined undefined).

(** ** The context menu of [background.js] *)

Definition APP_BASE_URL : str := lit "https://sideby.me".

(** [URLSearchParams.prototype.toString]: the
    [application/x-www-form-urlencoded] serializer.  Letters, digits,
    [*], [-], [.] and [_] stand for themselves, a space becomes [+], and
    every other character is written as the bytes of its UTF-8 encoding,
    each as [%] and two upper-case hexadecimal digits (characters are
    code points below 256 here, so there are at most two bytes). *)
Module Form.
Definition hexUpper (n : nat) : ascii :=
  if Nat.ltb n 10 then ascii_of_nat (48 + n) else ascii_of_nat (55 + n).

Definition percent (byte : nat) : str :=
  ["%"%char; hexUpper (byte / 16); hexUpper (byte mod 16)].

Definition unreserved (c : ascii) : bool :=
  (Str.isUpper c || Str.isLower c || Str.isDigit c ||
   Ascii.eqb c "*" || Ascii.eqb c "-" || Ascii.eqb c "." || Ascii.eqb c "_")%bool.

Definition encodeChar (c : ascii) : str :=
  let n := Str.code c in
  if unreserved c then [c]
  else if Ascii.eqb c " " then ["+"%char]
  else if Nat.ltb n 128 then percent n
  else percent (192 + n / 64) ++ percent (128 + n mod 64).

Definition encode (s : str) : str := flat_map encodeChar s.

Definition pair (p : str * str) : str := encode (fst p) ++ "="%char :: encode (snd p).

Definition serialize (params : list (str * str)) : str :=
  match params with
  | [] => []
  | p :: ps => pair p ++ flat_map (fun q => "&"%char :: pair q) ps
  end.

(** The characters the serializer writes for a name or a value. *)
Definition written (c : ascii) : bool :=
  (unreserved c || Ascii.eqb c "+" || Ascii.eqb c "%")%bool.

(** Reading one character back: the value of a hexadecimal digit, and
    the character at the front of an encoded string with the rest. *)
Definition hexValue (c : ascii) : nat :=
  if Str.isDigit c then Str.code c - 48 else Str.code c - 55.

Definition decodeHead (s : str) : option (ascii * str) :=
  match s with
  | [] => None
  | c :: rest =>
      if Ascii.eqb c "+" then Some (" "%char, rest)
      else if Ascii.eqb c "%" then
        match rest with
        | a :: b :: rest1 =>
            let byte := (16 * hexValue a + hexValue b)%nat in
            if Nat.ltb byte 128 then Some (ascii_of_nat byte, rest1)
            else
              match rest1 with
              | _ :: c2 :: d2 :: rest2 =>
                  let byte2 := (16 * hexValue c2 + hexValue d2)%nat in
                  Some (ascii_of_nat ((byte - 192) * 64 + (byte2 - 128)), rest2)
              | _ => None
              end
        | _ => None
        end
      else Some (c, rest)
  end.
End Form.

(** A stand-in for the [URL] class, for running the watcher on
    examples.  An absolute URL is a scheme (a letter, then letters,
    digits, [+], [-] or [.]), a colon, and the rest.  Setting a search
    parameter writes the name and the value as the
    [application/x-www-form-urlencoded] serializer does, after [?], or
    after [&] when there is a query already.  This is what the browser
    does for a URL that is in its normal form, has no fragment, and
    whose query, if any, is as that serializer writes it and has no
    parameter of that name; the stand-in is run on such URLs only. *)
Module SimpleURL.
Definition t : Type := (str * str)%type.

Definition schemeChar (c : ascii) : bool :=
  (Str.isLower c || Str.isUpper c || Str.isDigit c ||
   Ascii.eqb c "+" || Ascii.eqb c "-" || Ascii.eqb c ".")%bool.

Fixpoint splitScheme (s acc : str) : option t :=
  match s with
  | [] => None
  | c :: s' =>
      if Ascii.eqb c ":" then
        match rev acc with
        | [] => None
        | c0 :: _ => if (Str.isLower c0 || Str.isUpper c0)%bool then Some (rev acc, s') else None
        end
      else if schemeChar c then splitScheme s' (c :: acc)
      else None
  end.

Definition newURL (s : str) : option t := splitScheme s [].
Definition protocol (u : t) : str := Str.toLowerCase (fst u) ++ lit ":".
Definition searchParamsSet (u : t) (k v : str) : t :=
  (fst u,
   snd u ++ (if Str.includes (snd u) (lit "?") then lit "&" else lit "?") ++
   Form.pair (k, v)).
Definition toString (u : t) : str := fst u ++ lit ":" ++ snd u.
End SimpleURL.

(** What the handler reads of the click. *)
Module ClickInfo.
Record t := mk { menuItemId : str; srcUrl : js str; linkUrl : js str }.
End ClickInfo.

(** The listener of [chrome.contextMenus.onClicked]: the URL of the tab
    it creates, if any. *)
Definition onClicked (info : ClickInfo.t) : option str :=
  if negb (Str.eqb (ClickInfo.menuItemId info) (lit "sideby-pass")) then None
  else
    let videoUrl :=
      if Js.truthyStr (ClickInfo.srcUrl info) then ClickInfo.srcUrl info
      else ClickInfo.linkUrl info in
    match videoUrl with
    | val v =>
        if Js.truthyStr videoUrl then
          let params := [(lit "videoUrl", v); (lit "autoplay", lit "1")] in
          Some (APP_BASE_URL ++ lit "/create?" ++ Form.serialize params)
        else None
    | _ => None
    end.

(** The video URL the handler picks: [info.srcUrl || info.linkUrl]. *)
Definition clickedUrl (info : ClickInfo.t) : js str :=
  if Js.truthyStr (ClickInfo.srcUrl info) then ClickInfo.srcUrl info
  else ClickInfo.linkUrl info.



(** A page that plays a clip: what the watcher and the listener see. *)
Module Page.
Definition referer : str := lit "https://site.example/watch".
Definition origin : str := lit "https://site.example".
Definition title : str := lit "A page".
Definition clip : str := lit "https://cdn.example/v.mp4".
Definition candidate : Found.t := found "https://cdn.example/v.mp4" "api".
Definition response : Details.t := Details.mk (val 7) (val clip) None.
(** The clip as the watcher rewrites it. *)
Definition rewrittenClip : str :=
  rewritten SimpleURL.newURL SimpleURL.protocol SimpleURL.searchParamsSet
    SimpleURL.toString referer origin candidate clip.
End Page.
(** * Properties *)

(** ** Strings and maps *)

Lemma Str_eqb_eq (a b : str) : Str.eqb a b = true <-> a = b.
Proof.
  unfold Str.eqb. destruct (list_eq_dec Ascii.ascii_dec a b); split; congruence.
Qed.

Lemma Str_eqb_refl (a : str) : Str.eqb a a = true.
Proof. now apply Str_eqb_eq. Qed.

Lemma Str_eqb_neq (a b : str) : a <> b -> Str.eqb a b = false.
Proof.
  intros H. destruct (Str.eqb a b) eqn:E; [|reflexivity].
  apply Str_eqb_eq in E. contradiction.
Qed.

Section JSMapFacts.
Context {A : Type}.
Implicit Types (m : list (str * A)) (k : str) (a : A).

Lemma get_set_eq m k a : JSMap.get (JSMap.set m k a) k = Some a.
Proof.
  induction m as [|[k0 b] m IH]; simpl.
  - now rewrite Str_eqb_refl.
  - destruct (Str.eqb k0 k) eqn:E; simpl; rewrite E; [reflexivity | exact IH].
Qed.

Lemma get_set_ne m k k' a : k <> k' -> JSMap.get (JSMap.set m k a) k' = JSMap.get m k'.
Proof.
  intros Hne. induction m as [|[k0 b] m IH]; simpl.
  - now rewrite Str_eqb_neq.
  - destruct (Str.eqb k0 k) eqn:E; simpl.
    + apply Str_eqb_eq in E. subst k0. now rewrite Str_eqb_neq.
    + now rewrite IH.
Qed.

Lemma set_set m k a b : JSMap.set (JSMap.set m k a) k b = JSMap.set m k b.
Proof.
  induction m as [|[k0 c] m IH]; simpl.
  - now rewrite Str_eqb_refl.
  - destruct (Str.eqb k0 k) eqn:E; simpl; rewrite E; [reflexivity | now rewrite IH].
Qed.

Lemma get_In m k a : JSMap.get m k = Some a -> In (k, a) m.
Proof.
  induction m as [|[k0 b] m IH]; simpl; [discriminate|].
  destruct (Str.eqb k0 k) eqn:E.
  - apply Str_eqb_eq in E. intros [= ->]. left. now subst.
  - intros H. right. now apply IH.
Qed.

Lemma get_None_keys m k : JSMap.get m k = None <-> ~ In k (JSMap.keys m).
Proof.
  induction m as [|[k0 b] m IH]; simpl; [tauto|].
  destruct (Str.eqb k0 k) eqn:E.
  - apply Str_eqb_eq in E. split; [discriminate | intros H; exfalso; apply H; now left].
  - rewrite IH. split.
    + intros Hn [Heq|Hin]; [|tauto]. subst. now rewrite Str_eqb_refl in E.
    + tauto.
Qed.

Lemma keys_set_present m k a b :
  JSMap.get m k = Some b -> JSMap.keys (JSMap.set m k a) = JSMap.keys m.
Proof.
  induction m as [|[k0 c] m IH]; simpl; [discriminate|].
  destruct (Str.eqb k0 k) eqn:E; simpl; [reflexivity|].
  intros H. now rewrite IH.
Qed.

Lemma set_absent m k a : JSMap.get m k = None -> JSMap.set m k a = m ++ [(k, a)].
Proof.
  induction m as [|[k0 c] m IH]; simpl; [reflexivity|].
  destruct (Str.eqb k0 k) eqn:E; [discriminate|].
  intros H. now rewrite IH.
Qed.

(** Deleting a key that occurs once removes that entry and keeps the
    order of the others. *)
Lemma delete_middle (m1 m2 : list (str * A)) k a :
  ~ In k (JSMap.keys m1) -> JSMap.delete (m1 ++ (k, a) :: m2) k = m1 ++ m2.
Proof.
  induction m1 as [|[k0 c] m1 IH]; simpl.
  - intros _. now rewrite Str_eqb_refl.
  - intros Hn. rewrite Str_eqb_neq by (intros ->; apply Hn; now left).
    rewrite IH by tauto. reflexivity.
Qed.
End JSMapFacts.

(** ** Sorting *)

Section SortFacts.
Context {A : Type}.
Variable cmp : A -> A -> Z.
Variable R : A -> A -> Prop.
Hypothesis R_cmp : forall a b, cmp a b <= 0 <-> R a b.
Hypothesis R_total : forall a b, R a b \/ R b a.
Hypothesis R_trans : forall a b c, R a b -> R b c -> R a c.

Lemma insert_perm a l : Permutation (Arr.insert cmp a l) (a :: l).
Proof.
  induction l as [|b l IH]; simpl; [reflexivity|].
  destruct (cmp a b <=? 0); [reflexivity|].
  rewrite IH. apply perm_swap.
Qed.

Lemma sort_perm l : Permutation (Arr.sort cmp l) l.
Proof.
  induction l as [|a l IH]; simpl; [reflexivity|].
  rewrite insert_perm. now constructor.
Qed.


End SortFacts.


(** The same for a comparator that is consistent on the elements with a
    property [P] only, on lists of such elements. *)
Section SortFactsOn.
Context {A : Type}.
Variable cmp : A -> A -> Z.
Variable R : A -> A -> Prop.
Variable P : A -> Prop.
Hypothesis R_cmp : forall a b, P a -> P b -> (cmp a b <= 0 <-> R a b).
Hypothesis R_total : forall a b, P a -> P b -> R a b \/ R b a.
Hypothesis R_trans : forall a b c, P a -> P b -> P c -> R a b -> R b c -> R a c.


End SortFactsOn.

(** The sort is stable: among the elements of one rank the order is the
    one they had. *)
Section SortStable.
Context {A : Type}.
Variable cmp : A -> A -> Z.
Variable rank : A -> Z.
Hypothesis cmp_rank : forall a b, cmp a b <= 0 <-> rank b <= rank a.


End SortStable.

(** ** Strings in order *)

Lemma code_inj (x y : ascii) : Str.code x = Str.code y -> x = y.
Proof.
  unfold Str.code. intros H.
  rewrite <- (ascii_nat_embedding x), <- (ascii_nat_embedding y). now rewrite H.
Qed.

Lemma ltb_irrefl (s : str) : Str.ltb s s = false.
Proof.
  induction s as [|c s IH]; [reflexivity|].
  cbn [Str.ltb]. now rewrite Nat.ltb_irrefl.
Qed.

Lemma ltb_trans (a b c : str) :
  Str.ltb a b = true -> Str.ltb b c = true -> Str.ltb a c = true.
Proof.
  revert b c. induction a as [|x a IH]; intros [|y b] [|z c]; cbn [Str.ltb];
    try congruence.
  destruct (Nat.ltb_spec (Str.code x) (Str.code y)), (Nat.ltb_spec (Str.code y) (Str.code x)),
    (Nat.ltb_spec (Str.code y) (Str.code z)), (Nat.ltb_spec (Str.code z) (Str.code y)),
    (Nat.ltb_spec (Str.code x) (Str.code z)), (Nat.ltb_spec (Str.code z) (Str.code x));
    try congruence; try lia.
  apply IH.
Qed.

Lemma ltb_connected (a b : str) :
  Str.ltb a b = true \/ Str.ltb b a = true \/ a = b.
Proof.
  revert b. induction a as [|x a IH]; intros [|y b]; cbn [Str.ltb]; auto.
  destruct (Nat.ltb_spec (Str.code x) (Str.code y)); [now left|].
  destruct (Nat.ltb_spec (Str.code y) (Str.code x)); [now (right; left)|].
  assert (x = y) by (apply code_inj; lia). subst y.
  destruct (IH b) as [H1|[H1| ->]]; auto.
Qed.

(** ** Priorities in order *)

Lemma gt_irrefl (p : Priority.t) : Priority.gt p p = false.
Proof. destruct p; cbn [Priority.gt]; [apply Z.ltb_irrefl | apply ltb_irrefl | reflexivity]. Qed.

Lemma gt_trans (p q r : Priority.t) :
  Priority.gt p q = true -> Priority.gt q r = true -> Priority.gt p r = true.
Proof.
  destruct p, q, r; cbn [Priority.gt]; try congruence.
  - rewrite !Z.ltb_lt. lia.
  - intros H1 H2. exact (ltb_trans _ _ _ H2 H1).
Qed.

Lemma gt_asym (p q : Priority.t) : Priority.gt p q = true -> Priority.gt q p = false.
Proof.
  intros H. destruct (Priority.gt q p) eqn:E; [|reflexivity].
  pose proof (gt_trans _ _ _ H E) as Hc. now rewrite gt_irrefl in Hc.
Qed.

Lemma gt_sameKind (p q : Priority.t) : Priority.gt p q = true -> sameKind p q = true.
Proof. destruct p, q; cbn [Priority.gt sameKind]; congruence. Qed.

Lemma sameKind_trans (p q r : Priority.t) :
  sameKind p q = true -> sameKind q r = true -> sameKind p r = true.
Proof. destruct p, q, r; cbn [sameKind]; congruence. Qed.

Lemma sameKind_sym (p q : Priority.t) : sameKind p q = sameKind q p.
Proof. now destruct p, q. Qed.

Lemma gt_connected (p q : Priority.t) :
  sameKind p q = true -> Priority.gt p q = true \/ Priority.gt q p = true \/ p = q.
Proof.
  destruct p as [x|s|], q as [y|u|]; cbn [sameKind Priority.gt]; try congruence; intros _.
  - destruct (Z.ltb_spec y x); [now left|].
    destruct (Z.ltb_spec x y); [now (right; left)|].
    right; right. f_equal. lia.
  - destruct (ltb_connected u s) as [H|[H| ->]]; auto.
Qed.

(** The priority of a tag that is no inherited name is a number of the
    table, or 0. *)
Lemma priorityOrZero_plain (source : js str) :
  plainTag source = true ->
  exists p, priorityOrZero source = Priority.number p /\ 0 <= p <= 100.
Proof.
  unfold plainTag, priorityOrZero, sourcePriority, SOURCE_PRIORITY. cbn [prop].
  repeat match goal with
         | |- context [Str.eqb ?a ?b] => destruct (Str.eqb a b)
         end;
    try (intros _; eexists; split; [reflexivity | lia]).
  destruct (prop Object_prototype (propertyKey source)); [discriminate|].
  intros _. exists 0. split; [reflexivity | lia].
Qed.

Lemma plainTag_number (source : js str) :
  plainTag source = true <-> exists p, priorityOrZero source = Priority.number p.
Proof.
  split.
  - intros H. destruct (priorityOrZero_plain source H) as (p & Hp & _). now exists p.
  - intros [p Hp]. unfold plainTag, priorityOrZero, Priority.orZero in *.
    destruct (sourcePriority source); [reflexivity | discriminate | reflexivity].
Qed.

(** ** The parts of a score *)

Lemma sourcePriority_truthy (source : js str) :
  sourcePriority source <> Priority.missing -> Js.truthyStr source = true.
Proof.
  destruct source as [| |[|c s]]; try reflexivity; vm_compute; congruence.
Qed.

Lemma sourcePriority_range (source : js str) (p : Z) :
  sourcePriority source = Priority.number p -> 40 <= p <= 100.
Proof.
  unfold sourcePriority, SOURCE_PRIORITY. cbn [prop].
  repeat match goal with
         | |- context [Str.eqb ?a ?b] => destruct (Str.eqb a b)
         end; try (intros [= <-]; lia).
  destruct (prop Object_prototype (propertyKey source)); discriminate.
Qed.

(** For a tag that is no inherited name the score is the base of 10 plus
    what each step adds. *)
Lemma scoreVideo_parts (url : str) (size : js Z) (source quality : js str) (p : Z) :
  priorityOrZero source = Priority.number p ->
  scoreVideo url size source quality =
  Score.number (10 + p + extensionBoost url + sizeBoost size +
                qualityBoost quality + hintBoost url).
Proof.
  intros Hp.
  unfold scoreVideo, extensionBoost, sizeBoost, qualityBoost, hintBoost.
  assert (Hsrc : (if Js.truthyStr source then
                    match sourcePriority source with
                    | Priority.number p0 =>
                        if negb (p0 =? 0) then Score.add (Score.number 10) p0
                        else Score.number 10
                    | Priority.inherited text => Score.append (Score.number 10) text
                    | Priority.missing => Score.number 10
                    end
                  else Score.number 10) = Score.number (10 + p)).
  { unfold priorityOrZero, Priority.orZero in Hp.
    destruct (sourcePriority source) as [p0|text|] eqn:E; cbn [Priority.truthy] in Hp.
    - rewrite (sourcePriority_truthy source) by (rewrite E; discriminate).
      apply sourcePriority_range in E.
      destruct (Z.eqb_spec p0 0); [lia|]. cbn [negb] in *. injection Hp as <-.
      reflexivity.
    - discriminate.
    - injection Hp as <-. now destruct (Js.truthyStr source). }
  rewrite Hsrc. clear Hsrc.
  destruct (Re.test MP4_EXTENSION (Str.toLowerCase url)),
           (Re.test M3U8_EXTENSION (Str.toLowerCase url)),
           (Re.test HD_HINT (Str.toLowerCase url)),
           (Re.test HINT_720 (Str.toLowerCase url)).
  all: destruct size as [| |n]; cbn [Js.truthyNum].
  all: try (destruct (Z.eqb_spec n 0) as [->|Hn]; cbn [negb]).
  all: try (destruct (50000000 <? n), (10000000 <? n), (5000000 <? n)).
  all: destruct quality as [| |[|c qs]]; cbn [Js.truthyStr].
  all: try (destruct (Str.parseInt (c :: qs)) as [q|];
            [destruct (1080 <=? q), (720 <=? q), (480 <=? q)|]).
  all: try (change (Str.parseInt []) with (@None Z)); cbv iota.
  all: try (change (50000000 <? 0) with false; change (10000000 <? 0) with false;
            change (5000000 <? 0) with false; cbv iota).
  all: cbn [Score.add]; f_equal; lia.
Qed.

Lemma extensionBoost_range (url : str) : 0 <= extensionBoost url <= 20.
Proof.
  unfold extensionBoost.
  destruct (Re.test MP4_EXTENSION (Str.toLowerCase url)),
           (Re.test M3U8_EXTENSION (Str.toLowerCase url)); lia.
Qed.

Lemma sizeBoost_range (size : js Z) : 0 <= sizeBoost size <= 30.
Proof.
  unfold sizeBoost. destruct size as [| |n]; try lia.
  destruct (50000000 <? n), (10000000 <? n), (5000000 <? n); lia.
Qed.

Lemma qualityBoost_range (quality : js str) : 0 <= qualityBoost quality <= 15.
Proof.
  unfold qualityBoost. destruct quality as [| |qs]; try lia.
  destruct (Str.parseInt qs) as [q|]; [|lia].
  destruct (1080 <=? q), (720 <=? q), (480 <=? q); lia.
Qed.

Lemma hintBoost_range (url : str) : 0 <= hintBoost url <= 8.
Proof.
  unfold hintBoost.
  destruct (Re.test HD_HINT (Str.toLowerCase url)),
           (Re.test HINT_720 (Str.toLowerCase url)); lia.
Qed.

Lemma scoreVideo_plain (url : str) (size : js Z) (source quality : js str) :
  plainTag source = true ->
  exists n, scoreVideo url size source quality = Score.number n /\ 10 <= n <= 183.
Proof.
  intros H. destruct (priorityOrZero_plain source H) as (p & Hp & Hr).
  eexists. split; [apply (scoreVideo_parts url size source quality p Hp)|].
  pose proof (extensionBoost_range url). pose proof (sizeBoost_range size).
  pose proof (qualityBoost_range quality). pose proof (hintBoost_range url). lia.
Qed.

(** ** The order of the results *)




(** ** The read path *)

(** The loop of [getVideosForTab]: the expired entries are deleted from
    the map in place, the playable ones among the others are listed. *)
Lemma fold_visitEntry now (rest before : TabVideos) (results : list Result.t) :
  NoDup (JSMap.keys (before ++ rest)) ->
  fold_left (visitEntry now) rest (before ++ rest, results) =
  (before ++ List.filter (kept now) rest,
   results ++ List.map (fun e => resultOf (fst e) (snd e)) (List.filter (listed now) rest)).
Proof.
  revert before results.
  induction rest as [|[url info] rest IH]; intros before results Hnd; simpl.
  - now rewrite !app_nil_r.
  - assert (Hk : kept now (url, info) = negb (ENTRY_TTL_MS <? now - Info.timestamp info))
      by reflexivity.
    assert (Hl : listed now (url, info) =
                 (kept now (url, info) &&
                  isPlayableVideo url (Info.contentType info) (Info.size info)
                    (Info.source info))%bool) by reflexivity.
    rewrite Hl, Hk. clear Hl Hk.
    unfold JSMap.keys in Hnd. rewrite List.map_app in Hnd. simpl in Hnd.
    destruct (ENTRY_TTL_MS <? now - Info.timestamp info) eqn:E; simpl.
    + rewrite delete_middle.
      2:{ apply NoDup_remove_2 in Hnd. intros Hin. apply Hnd, in_or_app. now left. }
      apply IH. unfold JSMap.keys. rewrite List.map_app.
      now apply NoDup_remove_1 in Hnd.
    + replace (before ++ (url, info) :: rest) with ((before ++ [(url, info)]) ++ rest)
        by now rewrite <- app_assoc.
      destruct (isPlayableVideo url (Info.contentType info) (Info.size info)
                  (Info.source info)) eqn:P; simpl.
      * rewrite IH.
        2:{ unfold JSMap.keys. rewrite !List.map_app, <- app_assoc. exact Hnd. }
        rewrite <- !app_assoc. reflexivity.
      * rewrite IH.
        2:{ unfold JSMap.keys. rewrite !List.map_app, <- app_assoc. exact Hnd. }
        rewrite <- !app_assoc. reflexivity.
Qed.

Lemma getVideosForTab_known now (reg : Registry) tab (tabVideos : TabVideos) :
  reg !! tab = Some tabVideos ->
  NoDup (JSMap.keys tabVideos) ->
  getVideosForTab now reg (val tab) =
  (firstn MAX_RESULTS
     (Arr.sort byScoreThenTime
        (List.map (fun e => resultOf (fst e) (snd e)) (List.filter (listed now) tabVideos))),
   <[tab := List.filter (kept now) tabVideos]> reg).
Proof.
  intros Hl Hnd. unfold getVideosForTab. rewrite Hl.
  pose proof (fold_visitEntry now tabVideos [] [] Hnd) as H. simpl in H.
  rewrite H. reflexivity.
Qed.

Lemma In_get {A : Type} (m : list (str * A)) k a :
  NoDup (JSMap.keys m) -> In (k, a) m -> JSMap.get m k = Some a.
Proof.
  induction m as [|[k0 b] m IH]; simpl; [tauto|].
  intros Hnd [Heq|Hin].
  - inversion Heq; subst. now rewrite Str_eqb_refl.
  - inversion Hnd as [|? ? Hn Hnd']; subst.
    destruct (Str.eqb k0 k) eqn:E; [|now apply IH].
    apply Str_eqb_eq in E. subst k0. exfalso. apply Hn.
    change k with (fst (k, a)). now apply in_map.
Qed.

Lemma get_filter {A : Type} (f : str * A -> bool) (m : list (str * A)) k :
  NoDup (JSMap.keys m) ->
  JSMap.get (List.filter f m) k =
  match JSMap.get m k with
  | Some a => if f (k, a) then Some a else None
  | None => None
  end.
Proof.
  induction m as [|[k0 b] m IH]; simpl; [reflexivity|].
  intros Hnd. inversion Hnd as [|? ? Hn Hnd']; subst.
  destruct (Str.eqb k0 k) eqn:E.
  - apply Str_eqb_eq in E. subst k0.
    destruct (f (k, b)); simpl; [now rewrite Str_eqb_refl|].
    rewrite IH by assumption.
    apply get_None_keys in Hn. now rewrite Hn.
  - destruct (f (k0, b)); simpl; [rewrite E|]; now apply IH.
Qed.

Lemma NoDup_keys_filter {A : Type} (f : str * A -> bool) (m : list (str * A)) :
  NoDup (JSMap.keys m) -> NoDup (JSMap.keys (List.filter f m)).
Proof.
  induction m as [|[k0 b] m IH]; simpl; [trivial|].
  intros Hnd. inversion Hnd as [|? ? Hn Hnd']; subst.
  destruct (f (k0, b)); simpl; [|now apply IH].
  constructor; [|now apply IH].
  intros Hin. apply Hn. unfold JSMap.keys in *.
  apply in_map_iff in Hin as [[k1 c] [Hk Hin]]. simpl in Hk. subst k1.
  apply filter_In in Hin as [Hin _].
  change k0 with (fst (k0, c)). now apply in_map.
Qed.

Lemma firstn_In_inv {A : Type} (n : nat) (l : list A) a : In a (firstn n l) -> In a l.
Proof.
  revert l. induction n as [|n IH]; intros [|b l]; simpl; try tauto.
  intros [->|H]; [now left | right; now apply IH].
Qed.


(** ** The write path *)

Lemma addVideoToTab_ignored now (reg : Registry) tabId video :
  target tabId video = None -> addVideoToTab now reg tabId video = reg.
Proof.
  unfold target, addVideoToTab.
  destruct tabId as [| |tab]; try reflexivity.
  destruct (Video.url video) as [| |url]; try reflexivity;
    try (now destruct (Js.truthyNum (val tab))).
  destruct (Js.truthyNum (val tab)), (Js.truthyStr (val url));
    cbn [andb orb negb]; try reflexivity.
  destruct (Str.startsWith url (lit "blob:")), (Str.startsWith url (lit "data:"));
    cbn [andb orb negb]; try reflexivity; discriminate.
Qed.

Lemma entryOf_default (reg : Registry) tab url :
  entryOf reg tab url = JSMap.get (default [] (reg !! tab)) url.
Proof. unfold entryOf. now destruct (reg !! tab). Qed.

Lemma addVideoToTab_target now (reg : Registry) tabId video tab url :
  target tabId video = Some (tab, url) ->
  addVideoToTab now reg tabId video =
  <[tab := JSMap.set (default [] (reg !! tab)) url
             (storedAfter now (entryOf reg tab url) video)]> reg.
Proof.
  unfold target, addVideoToTab. rewrite entryOf_default.
  destruct tabId as [| |tab0]; try discriminate.
  destruct (Video.url video) as [| |url0]; try discriminate.
  destruct (Js.truthyNum (val tab0)), (Js.truthyStr (val url0));
    cbn [andb orb negb]; try discriminate.
  destruct (Str.startsWith url0 (lit "blob:")), (Str.startsWith url0 (lit "data:"));
    cbn [andb orb negb]; try discriminate.
  intros [= <- <-].
  destruct (reg !! tab0) as [tabVideos|]; cbn [default storedAfter];
    now destruct (JSMap.get _ (cleanByteRangeUrl url0)).
Qed.

Lemma entryOf_add_same now (reg : Registry) tabId video tab url :
  target tabId video = Some (tab, url) ->
  entryOf (addVideoToTab now reg tabId video) tab url =
  Some (storedAfter now (entryOf reg tab url) video).
Proof.
  intros Ht. rewrite (addVideoToTab_target _ _ _ _ _ _ Ht).
  unfold entryOf at 1. rewrite lookup_insert_eq. apply get_set_eq.
Qed.

Lemma entryOf_add_other now (reg : Registry) tabId video tab url tab' url' :
  target tabId video = Some (tab, url) ->
  (tab', url') <> (tab, url) ->
  entryOf (addVideoToTab now reg tabId video) tab' url' = entryOf reg tab' url'.
Proof.
  intros Ht Hne. rewrite (addVideoToTab_target _ _ _ _ _ _ Ht).
  destruct (decide (tab' = tab)) as [->|Hn].
  - unfold entryOf at 1. rewrite lookup_insert_eq, get_set_ne by congruence.
    symmetry. apply entryOf_default.
  - unfold entryOf. now rewrite lookup_insert_ne by congruence.
Qed.

(** The source after a merge is the one stored, or the incoming one when
    its priority is strictly higher. *)
Lemma mergeExisting_rises existing video :
  Info.source (mergeExisting existing video) = Info.source existing \/
  Priority.gt (priorityOrZero (Info.source (mergeExisting existing video)))
    (priorityOrZero (Info.source existing)) = true.
Proof.
  unfold mergeExisting. cbn [Info.source].
  destruct (Priority.gt (priorityOrZero (Video.source video))
              (priorityOrZero (Info.source existing))) eqn:E; [now right | now left].
Qed.

(** A priority that is a number of at least [n] stays one through a
    merge. *)
Lemma mergeExisting_atLeast existing video (n : Z) :
  Priority.atLeast (priorityOrZero (Info.source existing)) n = true ->
  Priority.atLeast (priorityOrZero (Info.source (mergeExisting existing video))) n = true.
Proof.
  intros H. destruct (mergeExisting_rises existing video) as [->|Hgt]; [exact H|].
  destruct (priorityOrZero (Info.source existing)) as [x| |];
    destruct (priorityOrZero (Info.source (mergeExisting existing video))) as [y| |];
    cbn [Priority.atLeast Priority.gt] in *; try discriminate.
  apply Z.leb_le in H. apply Z.ltb_lt in Hgt. apply Z.leb_le. lia.
Qed.

(** Two candidates merged onto an entry leave a source of the same
    priority in either order. *)
Lemma mergeExisting_twice_priority existing a b :
  priorityOrZero (Info.source (mergeExisting (mergeExisting existing a) b)) =
  priorityOrZero (Info.source (mergeExisting (mergeExisting existing b) a)).
Proof.
  unfold mergeExisting. cbn [Info.source].
  destruct (Priority.gt (priorityOrZero (Video.source a))
              (priorityOrZero (Info.source existing))) eqn:Ea,
           (Priority.gt (priorityOrZero (Video.source b))
              (priorityOrZero (Info.source existing))) eqn:Eb.
  - assert (Hk : sameKind (priorityOrZero (Video.source a))
                   (priorityOrZero (Video.source b)) = true).
    { apply gt_sameKind in Ea, Eb. rewrite sameKind_sym in Eb.
      exact (sameKind_trans _ _ _ Ea Eb). }
    destruct (gt_connected _ _ Hk) as [H|[H|H]].
    + now rewrite H, (gt_asym _ _ H).
    + now rewrite H, (gt_asym _ _ H).
    + now rewrite H, gt_irrefl.
  - rewrite ?Ea, ?Eb.
    destruct (Priority.gt (priorityOrZero (Video.source b))
                (priorityOrZero (Video.source a))) eqn:E; [|reflexivity].
    now rewrite (gt_trans _ _ _ E Ea) in Eb.
  - rewrite ?Ea, ?Eb.
    destruct (Priority.gt (priorityOrZero (Video.source a))
                (priorityOrZero (Video.source b))) eqn:E; [|reflexivity].
    now rewrite (gt_trans _ _ _ E Eb) in Ea.
  - now rewrite ?Ea, ?Eb.
Qed.

(** Two candidates of one kind leave a source of the same priority in
    either order when the first of them makes the entry. *)
Lemma newEntry_twice_priority n1 n2 a b :
  sameKind (priorityOrZero (Video.source a)) (priorityOrZero (Video.source b)) = true ->
  priorityOrZero (Info.source (mergeExisting (newEntry n1 a) b)) =
  priorityOrZero (Info.source (mergeExisting (newEntry n2 b) a)).
Proof.
  intros Hk. unfold mergeExisting, newEntry. cbn [Info.source].
  destruct (gt_connected _ _ Hk) as [H|[H|H]].
  - now rewrite H, (gt_asym _ _ H).
  - now rewrite H, (gt_asym _ _ H).
  - now rewrite H, gt_irrefl.
Qed.

Lemma mergeExisting_again existing video :
  mergeExisting (mergeExisting existing video) video = mergeExisting existing video.
Proof.
  destruct existing as [sz ct ts src q t pl], video as [vu vsz vct vsrc vq vt vpl].
  unfold mergeExisting. simpl. f_equal.
  - destruct (Priority.gt (priorityOrZero vsrc) (priorityOrZero src)) eqn:E; [|now rewrite E].
    now rewrite gt_irrefl.
  - destruct (Js.truthyStr vq) eqn:Eq, (Js.truthyStr q) eqn:Ee; simpl;
      rewrite ?Eq, ?Ee; reflexivity.
  - destruct (Js.truthyStr vt) eqn:Eq, (Js.truthyStr t) eqn:Ee; simpl;
      rewrite ?Eq, ?Ee; reflexivity.
Qed.

Lemma mergeExisting_newEntry now video :
  mergeExisting (newEntry now video) video = newEntry now video.
Proof.
  destruct video as [vu vsz vct vsrc vq vt vpl].
  unfold mergeExisting, newEntry. simpl. f_equal.
  - now rewrite gt_irrefl.
  - now destruct (Js.truthyStr vq).
  - now destruct (Js.truthyStr vt).
Qed.

Lemma storedAfter_again now now' before video :
  storedAfter now' (Some (storedAfter now before video)) video = storedAfter now before video.
Proof.
  destruct before; simpl; [apply mergeExisting_again | apply mergeExisting_newEntry].
Qed.

(** Applying a candidate a second time changes nothing. *)
Lemma addVideoToTab_idempotent now now' (reg : Registry) tabId video :
  addVideoToTab now' (addVideoToTab now reg tabId video) tabId video =
  addVideoToTab now reg tabId video.
Proof.
  destruct (target tabId video) as [[tab url]|] eqn:Ht.
  - rewrite (addVideoToTab_target now' _ _ _ _ _ Ht).
    rewrite (entryOf_add_same _ _ _ _ _ _ Ht), storedAfter_again.
    rewrite (addVideoToTab_target now _ _ _ _ _ Ht).
    rewrite lookup_insert_eq. simpl. rewrite set_set. apply insert_insert_eq.
  - now rewrite !addVideoToTab_ignored.
Qed.

Lemma mergeExisting_comm existing a b :
  noTie a b ->
  mergeExisting (mergeExisting existing a) b = mergeExisting (mergeExisting existing b) a.
Proof.
  intros (Hsrc & Hq & Ht).
  destruct existing as [sz ct ts src q t pl], a as [au asz act asrc aq atl apl],
    b as [bu bsz bct bsrc bq btl bpl].
  unfold mergeExisting. simpl in *. f_equal.
  - destruct (Priority.gt (priorityOrZero asrc) (priorityOrZero src)) eqn:Ea,
             (Priority.gt (priorityOrZero bsrc) (priorityOrZero src)) eqn:Eb.
    + assert (Hk : sameKind (priorityOrZero asrc) (priorityOrZero bsrc) = true).
      { apply gt_sameKind in Ea, Eb. rewrite sameKind_sym in Eb.
        exact (sameKind_trans _ _ _ Ea Eb). }
      destruct (gt_connected _ _ Hk) as [H|[H|H]].
      * now rewrite H, (gt_asym _ _ H).
      * now rewrite H, (gt_asym _ _ H).
      * rewrite H, gt_irrefl. destruct Hsrc as [Hne|Heq]; [contradiction | now symmetry].
    + rewrite ?Ea, ?Eb.
      destruct (Priority.gt (priorityOrZero bsrc) (priorityOrZero asrc)) eqn:E; [|reflexivity].
      now rewrite (gt_trans _ _ _ E Ea) in Eb.
    + rewrite ?Ea, ?Eb.
      destruct (Priority.gt (priorityOrZero asrc) (priorityOrZero bsrc)) eqn:E; [|reflexivity].
      now rewrite (gt_trans _ _ _ E Eb) in Ea.
    + now rewrite ?Ea, ?Eb.
  - destruct (Js.truthyStr q) eqn:Ee; simpl.
    + rewrite !andb_false_r. simpl. rewrite Ee, !andb_false_r. reflexivity.
    + rewrite !andb_true_r.
      destruct (Js.truthyStr aq) eqn:Eaq, (Js.truthyStr bq) eqn:Ebq; simpl;
        rewrite ?Eaq, ?Ebq, ?Ee; simpl; try reflexivity.
      now apply Hq.
  - destruct (Js.truthyStr t) eqn:Ee; simpl.
    + rewrite !andb_false_r. simpl. rewrite Ee, !andb_false_r. reflexivity.
    + rewrite !andb_true_r.
      destruct (Js.truthyStr atl) eqn:Eaq, (Js.truthyStr btl) eqn:Ebq; simpl;
        rewrite ?Eaq, ?Ebq, ?Ee; simpl; try reflexivity.
      now apply Ht.
Qed.

Lemma NoDup_keys_set {A : Type} (m : list (str * A)) k a :
  NoDup (JSMap.keys m) -> NoDup (JSMap.keys (JSMap.set m k a)).
Proof.
  intros Hnd. destruct (JSMap.get m k) as [b|] eqn:E.
  - now rewrite (keys_set_present m k a b E).
  - rewrite (set_absent m k a E). unfold JSMap.keys. rewrite List.map_app. simpl.
    apply (Permutation_NoDup (Permutation_cons_append _ k)).
    constructor; [|exact Hnd]. now apply get_None_keys.
Qed.

(** The registry stays well formed: it starts empty, and neither a merge
    nor a query breaks the one-entry-per-key property. *)
Lemma wellFormed_empty : wellFormed ∅.
Proof. intros tab tabVideos H. now rewrite lookup_empty in H. Qed.

Lemma wellFormed_addVideoToTab now (reg : Registry) tabId video :
  wellFormed reg -> wellFormed (addVideoToTab now reg tabId video).
Proof.
  intros Hwf. destruct (target tabId video) as [[tab url]|] eqn:Ht.
  - rewrite (addVideoToTab_target _ _ _ _ _ _ Ht). intros tab' tabVideos.
    destruct (decide (tab = tab')) as [<-|Hne].
    + rewrite lookup_insert_eq. intros [= <-]. apply NoDup_keys_set.
      destruct (reg !! tab) as [m|] eqn:E; simpl; [now apply (Hwf tab) | constructor].
    + rewrite lookup_insert_ne by assumption. apply Hwf.
  - now rewrite addVideoToTab_ignored.
Qed.

Lemma wellFormed_getVideosForTab now (reg : Registry) tabId :
  wellFormed reg -> wellFormed (snd (getVideosForTab now reg tabId)).
Proof.
  intros Hwf. destruct tabId as [| |tab]; try exact Hwf.
  destruct (reg !! tab) as [tabVideos|] eqn:E.
  - rewrite (getVideosForTab_known now reg tab tabVideos E (Hwf _ _ E)). cbn [snd].
    intros tab' m. destruct (decide (tab = tab')) as [<-|Hne].
    + rewrite lookup_insert_eq. intros [= <-]. apply NoDup_keys_filter. now apply (Hwf tab).
    + rewrite lookup_insert_ne by assumption. apply Hwf.
  - unfold getVideosForTab. rewrite E. exact Hwf.
Qed.

(** ** Merging into the registry *)

(** [C10] Frame property of merge.  A candidate stored onto an entry that
    is already there leaves the entry's size, contentType, timestamp and
    playlist as they were; its source becomes the incoming one exactly
    when the incoming priority is strictly higher, in the sense of the
    [>] of the code: between the numbers of two tags of the table (0 for
    a tag without entry) by value, and never between such a number and
    the function or object a name inherited from [Object.prototype]
    looks up; its quality and its title change only from an empty stored
    value to a non-empty incoming one; no other entry of any context
    changes. *)
Theorem merge_frame (now : Z) (reg : Registry) (tabId : js Z) (video : Video.t)
    (tab : Z) (url : str) (existing : Info.t) :
  target tabId video = Some (tab, url) ->
  entryOf reg tab url = Some existing ->
  exists merged,
    entryOf (addVideoToTab now reg tabId video) tab url = Some merged /\
    Info.size merged = Info.size existing /\
    Info.contentType merged = Info.contentType existing /\
    Info.timestamp merged = Info.timestamp existing /\
    Info.playlist merged = Info.playlist existing /\
    Info.source merged =
      (if Priority.gt (priorityOrZero (Video.source video))
            (priorityOrZero (Info.source existing))
       then Video.source video else Info.source existing) /\
    (forall p q,
       priorityOrZero (Info.source existing) = Priority.number p ->
       priorityOrZero (Video.source video) = Priority.number q ->
       Info.source merged = if p <? q then Video.source video else Info.source existing) /\
    (plainTag (Info.source existing) <> plainTag (Video.source video) ->
     Info.source merged = Info.source existing) /\
    (Info.quality merged = Info.quality existing \/
     (Js.truthyStr (Info.quality existing) = false /\
      Js.truthyStr (Video.quality video) = true /\
      Info.quality merged = Video.quality video)) /\
    (Info.title merged = Info.title existing \/
     (Js.truthyStr (Info.title existing) = false /\
      Js.truthyStr (Video.title video) = true /\
      Info.title merged = Video.title video)) /\
    (forall tab' url', (tab', url') <> (tab, url) ->
       entryOf (addVideoToTab now reg tabId video) tab' url' = entryOf reg tab' url').
Proof.
  intros Ht He. exists (mergeExisting existing video).
  rewrite (entryOf_add_same _ _ _ _ _ _ Ht), He. cbn [storedAfter].
  repeat split.
  - intros p q Hp Hq. unfold mergeExisting. cbn [Info.source]. now rewrite Hp, Hq.
  - intros Hne. unfold mergeExisting. cbn [Info.source].
    destruct (Priority.gt (priorityOrZero (Video.source video))
                (priorityOrZero (Info.source existing))) eqn:E; [|reflexivity].
    apply gt_sameKind in E. exfalso. apply Hne.
    destruct (plainTag (Info.source existing)) eqn:Pe,
             (plainTag (Video.source video)) eqn:Pv; try reflexivity.
    + apply plainTag_number in Pe as [p Hp]. rewrite Hp in E.
      destruct (priorityOrZero (Video.source video)) as [q| |] eqn:Hq;
        cbn [sameKind] in E; try discriminate.
      assert (plainTag (Video.source video) = true)
        by (apply plainTag_number; now exists q).
      congruence.
    + apply plainTag_number in Pv as [q Hq]. rewrite Hq in E.
      destruct (priorityOrZero (Info.source existing)) as [p| |] eqn:Hp;
        cbn [sameKind] in E; try discriminate.
      assert (plainTag (Info.source existing) = true)
        by (apply plainTag_number; now exists p).
      congruence.
  - unfold mergeExisting. cbn [Info.quality].
    destruct (Js.truthyStr (Video.quality video)) eqn:Ev,
             (Js.truthyStr (Info.quality existing)) eqn:Ee; cbn [andb negb]; auto.
  - unfold mergeExisting. cbn [Info.title].
    destruct (Js.truthyStr (Video.title video)) eqn:Ev,
             (Js.truthyStr (Info.title existing)) eqn:Ee; cbn [andb negb]; auto.
  - intros tab' url' Hne. now apply entryOf_add_other with (tab := tab) (url := url).
Qed.

Lemma merge_frame_witness :
  exists merged,
    entryOf (Scenario.fed ∅ 7 1000 2000) 7 (lit "v.mp4") = Some merged /\
    Info.size merged = val 200000.
Proof.
  destruct (merge_frame 2000 (addVideoToTab 1000 ∅ (val 7) Scenario.fromDom) (val 7)
              Scenario.fromNetwork 7 (lit "v.mp4") (Scenario.stored 1000))
    as (merged & Hm & Hsize & _).
  - vm_compute. reflexivity.
  - vm_compute. reflexivity.
  - exists merged. split; [exact Hm | exact Hsize].
Defined.

(** A candidate whose priority is a number of at least [n] leaves a source
    with such a priority, on an entry whose priority is a number or on
    none. *)
Lemma storedAfter_atLeast now before video (n : Z) :
  Priority.atLeast (priorityOrZero (Video.source video)) n = true ->
  (forall existing, before = Some existing -> plainTag (Info.source existing) = true) ->
  Priority.atLeast (priorityOrZero (Info.source (storedAfter now before video))) n = true.
Proof.
  intros Hv Hplain. destruct before as [existing|]; [|exact Hv].
  cbn [storedAfter]. unfold mergeExisting. cbn [Info.source].
  destruct (Priority.gt (priorityOrZero (Video.source video))
              (priorityOrZero (Info.source existing))) eqn:E; [exact Hv|].
  destruct (proj1 (plainTag_number _) (Hplain existing eq_refl)) as [p Hp].
  rewrite Hp in *.
  destruct (priorityOrZero (Video.source video)) as [q| |];
    cbn [Priority.atLeast Priority.gt] in *; try discriminate.
  apply Z.leb_le in Hv. apply Z.ltb_ge in E. apply Z.leb_le. lia.
Qed.

(** [C2] Merge is idempotent, and commutative as far as the first arrival
    does not decide.  Applying the same candidate twice gives the same
    registry as applying it once.  Two candidates for the same context and
    clean URL, merged in either order, leave an entry whose source has the
    same priority, provided an entry was stored before or the two tags are
    of one kind (two tags whose priority is a number, or two names
    inherited from [Object.prototype], whose priority is a function or an
    object: the [>] of the code puts no number and no such value in
    order); when an entry was stored before and the two do not tie, the
    final entry is the same in either order; when none was stored and the
    second tag has the higher priority (dom, then instagram) the final
    source is the higher one in either order.  A merge keeps the source
    or replaces it by one of strictly higher priority, and never replaces
    a non-empty quality or title. *)
Theorem merge_idempotent_commutative_priority :
  (forall now now' (reg : Registry) tabId video,
     addVideoToTab now' (addVideoToTab now reg tabId video) tabId video =
     addVideoToTab now reg tabId video) /\
  (forall (reg : Registry) tabId a b tab url n1 n2 n3 n4,
     target tabId a = Some (tab, url) ->
     target tabId b = Some (tab, url) ->
     exists ab ba,
       entryOf (addVideoToTab n2 (addVideoToTab n1 reg tabId a) tabId b) tab url = Some ab /\
       entryOf (addVideoToTab n4 (addVideoToTab n3 reg tabId b) tabId a) tab url = Some ba /\
       ((entryOf reg tab url = None ->
         sameKind (priorityOrZero (Video.source a)) (priorityOrZero (Video.source b)) = true) ->
        priorityOrZero (Info.source ab) = priorityOrZero (Info.source ba)) /\
       (forall existing, entryOf reg tab url = Some existing -> noTie a b -> ab = ba) /\
       (entryOf reg tab url = None ->
        Priority.gt (priorityOrZero (Video.source b)) (priorityOrZero (Video.source a)) = true ->
        Info.source ab = Video.source b /\ Info.source ba = Video.source b)) /\
  (forall existing video,
     (Info.source (mergeExisting existing video) = Info.source existing \/
      Priority.gt (priorityOrZero (Info.source (mergeExisting existing video)))
        (priorityOrZero (Info.source existing)) = true) /\
     (Js.truthyStr (Info.quality existing) = true ->
      Info.quality (mergeExisting existing video) = Info.quality existing) /\
     (Js.truthyStr (Info.title existing) = true ->
      Info.title (mergeExisting existing video) = Info.title existing)) /\
  (forall source, plainTag source = true ->
     exists p, priorityOrZero source = Priority.number p /\ 0 <= p <= 100) /\
  (forall p q, Priority.gt (Priority.number p) (Priority.number q) = true <-> q < p) /\
  priorityOrZero (val (lit "dom")) = Priority.number 50 /\
  priorityOrZero (val (lit "instagram")) = Priority.number 100.
Proof.
  split; [|split; [|split; [|split; [|split; [|split]]]]].
  - intros. apply addVideoToTab_idempotent.
  - intros reg tabId a b tab url n1 n2 n3 n4 Ha Hb.
    exists (storedAfter n2 (Some (storedAfter n1 (entryOf reg tab url) a)) b),
           (storedAfter n4 (Some (storedAfter n3 (entryOf reg tab url) b)) a).
    rewrite (entryOf_add_same n2 _ _ _ _ _ Hb), (entryOf_add_same n1 _ _ _ _ _ Ha).
    rewrite (entryOf_add_same n4 _ _ _ _ _ Ha), (entryOf_add_same n3 _ _ _ _ _ Hb).
    split; [reflexivity|]. split; [reflexivity|].
    split; [|split].
    + intros Hk. destruct (entryOf reg tab url) as [existing|]; cbn [storedAfter].
      * apply mergeExisting_twice_priority.
      * apply newEntry_twice_priority. now apply Hk.
    + intros existing -> Hno. cbn [storedAfter]. now apply mergeExisting_comm.
    + intros -> Hgt. cbn [storedAfter]. unfold mergeExisting, newEntry. cbn [Info.source].
      now rewrite Hgt, (gt_asym _ _ Hgt).
  - intros existing video. split; [|split].
    + apply mergeExisting_rises.
    + intros H. unfold mergeExisting. cbn [Info.quality]. rewrite H.
      now rewrite andb_false_r.
    + intros H. unfold mergeExisting. cbn [Info.title]. rewrite H.
      now rewrite andb_false_r.
  - exact priorityOrZero_plain.
  - intros p q. cbn [Priority.gt]. apply Z.ltb_lt.
  - vm_compute. reflexivity.
  - vm_compute. reflexivity.
Qed.

Lemma merge_idempotent_commutative_priority_witness :
  exists ab ba,
    entryOf (addVideoToTab 2 (addVideoToTab 1 ∅ (val 7) (tagged "v.mp4" "dom" "")) (val 7)
               (tagged "v.mp4" "instagram" "")) 7 (lit "v.mp4") = Some ab /\
    entryOf (addVideoToTab 2 (addVideoToTab 1 ∅ (val 7) (tagged "v.mp4" "instagram" ""))
               (val 7) (tagged "v.mp4" "dom" "")) 7 (lit "v.mp4") = Some ba /\
    Info.source ab = val (lit "instagram") /\ Info.source ba = val (lit "instagram").
Proof.
  destruct (proj1 (proj2 merge_idempotent_commutative_priority) ∅ (val 7)
              (tagged "v.mp4" "dom" "") (tagged "v.mp4" "instagram" "")
              7 (lit "v.mp4") 1 2 1 2)
    as (ab & ba & Hab & Hba & _ & _ & Hsrc).
  - vm_compute. reflexivity.
  - vm_compute. reflexivity.
  - exists ab, ba. split; [exact Hab|]. split; [exact Hba|].
    apply Hsrc; vm_compute; reflexivity.
Defined.

(** Merge is not commutative in general: two candidates for the same URL
    with two different qualities leave different entries in the two
    orders, and so do, in a context that held nothing, a candidate tagged
    [constructor] and one tagged [instagram]: the priority looked up for
    [constructor] is a function, which no number is above or below, so the
    first of the two tags stays. *)
Lemma merge_commutative_counterexample :
  entryOf (addVideoToTab 2 (addVideoToTab 1 ∅ (val 7) (tagged "v.mp4" "dom" "720p")) (val 7)
             (tagged "v.mp4" "dom" "1080p")) 7 (lit "v.mp4") <>
  entryOf (addVideoToTab 2 (addVideoToTab 1 ∅ (val 7) (tagged "v.mp4" "dom" "1080p")) (val 7)
             (tagged "v.mp4" "dom" "720p")) 7 (lit "v.mp4") /\
  option_map Info.source
    (entryOf (addVideoToTab 2 (addVideoToTab 1 ∅ (val 7) (tagged "v.mp4" "constructor" ""))
                (val 7) (tagged "v.mp4" "instagram" "")) 7 (lit "v.mp4")) =
  Some (val (lit "constructor")) /\
  option_map Info.source
    (entryOf (addVideoToTab 2 (addVideoToTab 1 ∅ (val 7) (tagged "v.mp4" "instagram" ""))
                (val 7) (tagged "v.mp4" "constructor" "")) 7 (lit "v.mp4")) =
  Some (val (lit "instagram")).
Proof. split; [vm_compute; discriminate | split; vm_compute; reflexivity]. Qed.

(** [C1] The end-to-end scenario.  After the DOM candidate and then the
    network candidate for [v.mp4] are fed to a context that had no map,
    the map holds one entry for [v.mp4], the first candidate's: size
    200,000, source dom, no content type, the time of the first feed.
    The classifier rejects it (a declared size below 500,000), so the
    query returns the empty list. *)
Theorem end_to_end_fusion (reg : Registry) (tab t1 t2 t3 : Z) :
  tab <> 0 ->
  reg !! tab = None ->
  Scenario.fed reg tab t1 t2 !! tab = Some [(lit "v.mp4", Scenario.stored t1)] /\
  isPlayableVideo (lit "v.mp4") (Info.contentType (Scenario.stored t1))
    (Info.size (Scenario.stored t1)) (Info.source (Scenario.stored t1)) = false /\
  fst (getVideosForTab t3 (Scenario.fed reg tab t1 t2) (val tab)) = [].
Proof.
  intros Htab Hnone.
  assert (Hdom : target (val tab) Scenario.fromDom = Some (tab, lit "v.mp4")).
  { unfold target, Js.truthyNum. rewrite (proj2 (Z.eqb_neq tab 0) Htab).
    vm_compute. reflexivity. }
  assert (Hnet : target (val tab) Scenario.fromNetwork = Some (tab, lit "v.mp4")).
  { unfold target, Js.truthyNum. rewrite (proj2 (Z.eqb_neq tab 0) Htab).
    vm_compute. reflexivity. }
  assert (Hfed : Scenario.fed reg tab t1 t2 !! tab = Some [(lit "v.mp4", Scenario.stored t1)]).
  { unfold Scenario.fed.
    rewrite (addVideoToTab_target t2 _ _ _ _ _ Hnet), lookup_insert_eq.
    rewrite (entryOf_add_same t1 _ _ _ _ _ Hdom).
    rewrite (addVideoToTab_target t1 _ _ _ _ _ Hdom), lookup_insert_eq.
    unfold entryOf. rewrite Hnone. reflexivity. }
  split; [exact Hfed|]. split; [vm_compute; reflexivity|].
  rewrite (getVideosForTab_known t3 _ tab _ Hfed).
  - cbn [List.filter fst]. unfold listed. cbn [fst snd].
    replace (isPlayableVideo _ _ _ _) with false by (vm_compute; reflexivity).
    rewrite andb_false_r. reflexivity.
  - repeat constructor. intros [].
Qed.

Lemma end_to_end_fusion_witness :
  fst (getVideosForTab 3000 (Scenario.fed ∅ 7 1000 2000) (val 7)) = [].
Proof.
  apply (end_to_end_fusion ∅ 7 1000 2000 3000).
  - lia.
  - reflexivity.
Defined.

(** The query of the scenario does not return an entry for [v.mp4] with
    size 8,000,000. *)
Lemma end_to_end_fusion_counterexample :
  ~ exists r,
      fst (getVideosForTab 3000 (Scenario.fed ∅ 7 1000 2000) (val 7)) = [r] /\
      Result.url r = lit "v.mp4" /\ Result.size r = val 8000000.
Proof. intros (r & H & _). vm_compute in H. discriminate. Qed.

(** ** The source priority table *)

(** [C8] Every source tag an adapter emits has a priority in the table,
    and a positive one, except the direct-platform tag [youtube], which
    has no entry; a missing priority counts as 0 in a merge, and no
    priority of the table is negative. *)
Theorem source_priority_table :
  (forall tag, tag <> Tag.Youtube ->
     exists p, sourcePriority (val (Tag.name tag)) = Priority.number p /\ 0 < p) /\
  sourcePriority (val (Tag.name Tag.Youtube)) = Priority.missing /\
  priorityOrZero (val (Tag.name Tag.Youtube)) = Priority.number 0 /\
  (forall key p, In (key, p) SOURCE_PRIORITY -> 0 <= p) /\
  (forall source p, priorityOrZero source = Priority.number p -> 0 <= p).
Proof.
  assert (Htable : forall key p, In (key, p) SOURCE_PRIORITY -> 0 <= p).
  { intros key p Hin. unfold SOURCE_PRIORITY in Hin. simpl in Hin.
    repeat (destruct Hin as [[= <- <-]|Hin]; [lia|]). destruct Hin. }
  split; [|split; [|split; [|split]]].
  - intros tag Hne. destruct tag; try (eexists; split; [vm_compute; reflexivity | lia]).
    congruence.
  - vm_compute. reflexivity.
  - vm_compute. reflexivity.
  - exact Htable.
  - intros source p Hp.
    assert (Hplain : plainTag source = true) by (apply plainTag_number; now exists p).
    destruct (priorityOrZero_plain source Hplain) as (q & Hq & Hr).
    rewrite Hq in Hp. injection Hp as <-. lia.
Qed.

Lemma source_priority_table_witness :
  exists p, sourcePriority (val (Tag.name Tag.WebRequest)) = Priority.number p /\ 0 < p.
Proof.
  apply (proj1 source_priority_table Tag.WebRequest). discriminate.
Defined.

(** The table is not total over the tags the adapters emit. *)
Lemma source_priority_table_counterexample :
  ~ forall tag, exists p, sourcePriority (val (Tag.name tag)) = Priority.number p.
Proof. intros H. destruct (H Tag.Youtube) as [p Hp]. vm_compute in Hp. discriminate. Qed.

(** ** The classifier *)

(** The decision list of [isPlayableVideo], step by step. *)
Lemma isPlayableVideo_rules url contentType size source :
  isPlayableVideo url contentType size source =
  let lower := Str.toLowerCase url in
  if trustedSource source then true
  else if isYouTubeUrl url then true
  else if Re.test WEBM_EXTENSION lower then false
  else if Re.test M4S_EXTENSION lower then false
  else if (negb (Re.test VIDEO_EXTENSIONS lower) && negb (hasVideoContentType contentType) &&
           negb (Re.test SEGMENT_EXTENSIONS lower &&
                 declaredAbove size (MIN_VIDEO_SIZE_BYTES * 2)))%bool
  then false
  else laterChecks url size.
Proof.
  unfold isPlayableVideo, laterChecks, matchesAny, declaredBelow, declaredAbove,
    hasVideoContentType, trustedSource, isYouTubeUrl.
  cbv zeta.
  repeat match goal with
         | |- (if ?b then _ else _) = (if ?b then _ else _) => destruct b; [reflexivity|]
         end.
  rewrite <- !andb_assoc.
  repeat match goal with
         | |- (if ?b then _ else _) = _ => destruct b; try reflexivity
         end.
Qed.

Lemma test_search (r : Re.t) (s : str) :
  Re.test r s = true <->
  Re.search (Re.ignoreCase r) (List.length s) (Re.pattern r) s <> None.
Proof.
  unfold Re.test. destruct (Re.search _ _ _ s); split; congruence.
Qed.

(** A pattern that matches wherever another does is found whenever the
    other is. *)
Lemma search_mono icase total (r1 r2 : re) :
  (forall s, Re.matchAt icase total r1 s <> None -> Re.matchAt icase total r2 s <> None) ->
  forall s, Re.search icase total r1 s <> None -> Re.search icase total r2 s <> None.
Proof.
  intros H s. induction s as [|c s IH]; simpl.
  - specialize (H []). destruct (Re.matchAt icase total r1 []); [|congruence].
    intros _. destruct (Re.matchAt icase total r2 []); [congruence|]. now apply H.
  - specialize (H (c :: s)). destruct (Re.matchAt icase total r1 (c :: s)).
    + intros _. destruct (Re.matchAt icase total r2 (c :: s)); [congruence|].
      exfalso. now apply H.
    + intros Hs. destruct (Re.matchAt icase total r2 (c :: s)); [congruence|].
      now apply IH.
Qed.

Ltac split_on_chars :=
  repeat match goal with
         | |- context [Re.chrMatches true ?p ?c] =>
             destruct (Re.chrMatches true p c) eqn:?
         end.

(** Where [/\.mp4(\?|#|$)/i] matches, so does [VIDEO_EXTENSIONS]. *)
Lemma mp4_is_video_extension (s : str) :
  Re.test MP4_EXTENSION s = true -> Re.test VIDEO_EXTENSIONS s = true.
Proof.
  rewrite !test_search. apply search_mono. generalize (List.length s).
  clear s. intros total s.
  unfold Re.matchAt, MP4_EXTENSION, VIDEO_EXTENSIONS, word.
  cbn [Re.pattern Re.ignoreCase lit list_ascii_of_string Re.Lit].
  destruct s as [|c1 [|c2 [|c3 [|c4 rest]]]]; cbn [Re.run]; try congruence.
  all: split_on_chars; try congruence.
  all: destruct rest as [|c5 rest']; try congruence.
  all: destruct (Re.chrMatches true "?" c5), (Re.chrMatches true "#" c5); congruence.
Qed.

(** [C4] What the classifier rejects and accepts.  A source whose priority
    is at least 75 (the per-site parsers among them) is accepted whatever
    the URL.  Otherwise, and when the URL is not a YouTube one: a [.webm]
    URL, a URL matching a segment pattern (such as [/seg-12]), an
    audio-only URL and a [.mp4] URL with declared size 100,000 are
    rejected, and a [.mp4] URL with no declared size is accepted when it
    is none of [.webm], [.m4s], segment-named or audio-only. *)
Theorem classifier_verdicts :
  (forall url contentType size source,
     trustedSource source = true ->
     isPlayableVideo url contentType size source = true) /\
  (forall tag, In tag [Tag.Instagram; Tag.Twitter; Tag.Vimeo; Tag.Tiktok] ->
     trustedSource (val (Tag.name tag)) = true) /\
  (forall url contentType size source,
     trustedSource source = false ->
     isYouTubeUrl url = false ->
     (Re.test WEBM_EXTENSION (Str.toLowerCase url) = true ->
      isPlayableVideo url contentType size source = false) /\
     (matchesAny SEGMENT_PATTERNS url = true ->
      isPlayableVideo url contentType size source = false) /\
     (matchesAny AUDIO_ONLY_PATTERNS url = true ->
      isPlayableVideo url contentType size source = false) /\
     (Re.test MP4_EXTENSION (Str.toLowerCase url) = true ->
      size = val 100000 ->
      isPlayableVideo url contentType size source = false) /\
     (Re.test MP4_EXTENSION (Str.toLowerCase url) = true ->
      Js.truthyNum size = false ->
      Re.test WEBM_EXTENSION (Str.toLowerCase url) = false ->
      Re.test M4S_EXTENSION (Str.toLowerCase url) = false ->
      matchesAny SEGMENT_PATTERNS url = false ->
      matchesAny AUDIO_ONLY_PATTERNS url = false ->
      isPlayableVideo url contentType size source = true)) /\
  matchesAny SEGMENT_PATTERNS (lit "https://cdn.example/hls/seg-12.mp4") = true.
Proof.
  split; [|split; [|split]].
  - intros url contentType size source Ht. rewrite isPlayableVideo_rules. cbv zeta.
    now rewrite Ht.
  - intros tag Hin. simpl in Hin.
    repeat (destruct Hin as [<-|Hin]; [vm_compute; reflexivity|]). destruct Hin.
  - intros url contentType size source Ht Hy.
    rewrite isPlayableVideo_rules. cbv zeta. rewrite Ht, Hy. unfold laterChecks.
    repeat split.
    + now intros ->.
    + intros ->. repeat match goal with |- (if ?b then _ else _) = _ => destruct b end;
        reflexivity.
    + intros ->. rewrite andb_false_r.
      repeat match goal with |- (if ?b then _ else _) = _ => destruct b end; reflexivity.
    + intros Hmp4 ->. unfold declaredBelow. cbn. rewrite !andb_false_r.
      repeat match goal with |- (if ?b then _ else _) = _ => destruct b end; reflexivity.
    + intros Hmp4 Hsize -> -> -> ->.
      rewrite (mp4_is_video_extension _ Hmp4). unfold declaredBelow. rewrite Hsize.
      reflexivity.
  - vm_compute. reflexivity.
Qed.

Lemma classifier_verdicts_witness :
  isPlayableVideo (lit "https://cdn.example/v.mp4") undefined undefined (val (lit "dom")) = true.
Proof.
  apply (proj1 (proj2 (proj2 classifier_verdicts))); vm_compute; reflexivity.
Defined.

(** Without the order of the rules neither verdict holds for every URL: a
    [.webm] URL tagged by a per-site parser is accepted, and a
    segment-named [.mp4] URL with no declared size is rejected. *)
Lemma classifier_verdicts_counterexample :
  ~ ((forall url contentType size source,
        Re.test WEBM_EXTENSION (Str.toLowerCase url) = true ->
        isPlayableVideo url contentType size source = false) \/
     (forall url contentType source,
        Re.test MP4_EXTENSION (Str.toLowerCase url) = true ->
        isPlayableVideo url contentType undefined source = true)).
Proof.
  intros [H|H].
  - specialize (H (lit "https://cdn.example/clip.webm") undefined undefined
                  (val (lit "instagram"))).
    vm_compute in H. specialize (H eq_refl). discriminate.
  - specialize (H (lit "https://cdn.example/hls/seg-12.mp4") undefined undefined).
    vm_compute in H. specialize (H eq_refl). discriminate.
Qed.

(** [C5] Large-segment rescue.  For a URL with a segment extension that
    is neither [.webm] nor [.m4s], with a declared size above twice the
    minimum and no acceptance by source or as a YouTube URL, the verdict
    is the one of the later checks: accepted exactly when no segment
    pattern and no audio-only pattern matches (the size check passes).  A
    [.m4s] URL is rejected before the rescue, whatever its size. *)
Theorem large_segment_rescue (url : str) (contentType : js str) (size : js Z)
    (source : js str) :
  trustedSource source = false ->
  isYouTubeUrl url = false ->
  (forall n,
     Re.test SEGMENT_EXTENSIONS (Str.toLowerCase url) = true ->
     size = val n ->
     MIN_VIDEO_SIZE_BYTES * 2 < n ->
     Re.test WEBM_EXTENSION (Str.toLowerCase url) = false ->
     Re.test M4S_EXTENSION (Str.toLowerCase url) = false ->
     isPlayableVideo url contentType size source = laterChecks url size /\
     laterChecks url size =
       (negb (matchesAny SEGMENT_PATTERNS url) &&
        negb (matchesAny AUDIO_ONLY_PATTERNS url))%bool) /\
  (Re.test M4S_EXTENSION (Str.toLowerCase url) = true ->
   isPlayableVideo url contentType size source = false).
Proof.
  intros Ht Hy. rewrite isPlayableVideo_rules. cbv zeta. rewrite Ht, Hy. split.
  - intros n Hseg -> Hn -> ->. rewrite Hseg.
    unfold declaredAbove, laterChecks, declaredBelow, Js.truthyNum, MIN_VIDEO_SIZE_BYTES in *.
    destruct (Z.eqb_spec n 0) as [->|_]; [lia|].
    destruct (Z.ltb_spec (500000 * 2) n); [|lia].
    destruct (Z.ltb_spec n 500000); [lia|].
    cbn [negb andb]. rewrite !andb_false_r, !andb_true_r. split; reflexivity.
  - intros ->. now destruct (Re.test WEBM_EXTENSION _).
Qed.

Lemma large_segment_rescue_witness :
  isPlayableVideo (lit "https://cdn.example/movie.ts") undefined (val 2000000) undefined =
  laterChecks (lit "https://cdn.example/movie.ts") (val 2000000).
Proof.
  refine (proj1 (proj1 (large_segment_rescue (lit "https://cdn.example/movie.ts") undefined
                          (val 2000000) undefined _ _) 2000000 _ _ _ _ _));
    vm_compute; reflexivity.
Defined.

(** The rescue does not reach [.m4s]: the later checks would all pass, and
    the URL is rejected all the same. *)
Lemma large_segment_rescue_counterexample :
  ~ (forall url contentType size source n,
       Re.test SEGMENT_EXTENSIONS (Str.toLowerCase url) = true ->
       size = val n ->
       MIN_VIDEO_SIZE_BYTES * 2 < n ->
       laterChecks url size = true ->
       isPlayableVideo url contentType size source = true).
Proof.
  intros H.
  specialize (H (lit "https://cdn.example/movie.m4s") undefined (val 2000000) undefined
                2000000).
  vm_compute in H. specialize (H eq_refl eq_refl eq_refl eq_refl). discriminate.
Qed.



(** ** The matcher on literals and digits *)

Section MatcherFacts.
Context {A : Type}.
Variable icase : bool.
Variable total : nat.

(** A literal matches exactly when its characters are at the front. *)
Lemma run_Lit (l : str) (k : re) (s : str) (cs : Re.captures)
    (K : str -> Re.captures -> option A) :
  Re.run icase total (Re.Lit l k) s cs K =
  if litMatches icase l s then Re.run icase total k (skipn (List.length l) s) cs K else None.
Proof.
  revert s. induction l as [|p l IH]; intros s; [reflexivity|].
  destruct s as [|c s]; [reflexivity|].
  cbn [Re.Lit Re.run litMatches List.length skipn].
  destruct (Re.chrMatches icase p c); [apply IH | reflexivity].
Qed.

Lemma run_word (w : string) (k : re) (s : str) (cs : Re.captures)
    (K : str -> Re.captures -> option A) :
  Re.run icase total (Seq (word w) k) s cs K =
  if litMatches icase (lit w) s
  then Re.run icase total k (skipn (List.length (lit w)) s) cs K else None.
Proof.
  cbn [Re.run]. unfold word. rewrite run_Lit. reflexivity.
Qed.
End MatcherFacts.

Lemma digit_class (icase : bool) (c : ascii) :
  Re.clsMatches icase false [("0"%char, "9"%char)] c = Str.isDigit c.
Proof.
  destruct icase, c as [[] [] [] [] [] [] [] []]; reflexivity.
Qed.

Lemma skipDigits_length (s : str) : (List.length (skipDigits s) <= List.length s)%nat.
Proof.
  induction s as [|c s IH]; simpl; [lia|]. destruct (Str.isDigit c); simpl; lia.
Qed.

(** The star of [\d] takes all the leading digits when what follows can
    go on from there. *)
Lemma rounds_digits {A : Type} (icase : bool) (total : nat)
    (K : str -> Re.captures -> option A) (cs : Re.captures) (a : A) :
  forall (s : str) (fuel : nat),
    (List.length s <= fuel)%nat ->
    K (skipDigits s) cs = Some a ->
    Re.rounds (fun s0 cs0 k0 => Re.run icase total Re.digit s0 cs0 k0) K fuel s cs = Some a.
Proof.
  set (step := fun s0 cs0 k0 => Re.run icase total Re.digit s0 cs0 k0).
  induction s as [|c s IH]; intros fuel Hfuel HK.
  - destruct fuel; exact HK.
  - destruct fuel as [|fuel]; [simpl in Hfuel; lia|].
    cbn [Re.rounds]. unfold step at 1. cbn [Re.run Re.digit]. rewrite digit_class.
    cbn [skipDigits] in HK. destruct (Str.isDigit c).
    + replace (Nat.ltb (List.length s) (List.length (c :: s))) with true
        by (symmetry; apply Nat.ltb_lt; simpl; lia).
      rewrite (IH fuel); [reflexivity | simpl in Hfuel; lia | exact HK].
    + exact HK.
Qed.

Lemma run_star_digits {A : Type} (icase : bool) (total : nat) (s : str)
    (cs : Re.captures) (K : str -> Re.captures -> option A) (a : A) :
  K (skipDigits s) cs = Some a ->
  Re.run icase total (Star Re.digit) s cs K = Some a.
Proof. intros HK. cbn [Re.run]. now apply rounds_digits. Qed.

Lemma skipDigits_app (ds rest : str) :
  allDigits ds = true -> noDigitAhead rest = true -> skipDigits (ds ++ rest) = rest.
Proof.
  intros Hd Hr. induction ds as [|d ds IH]; simpl in *.
  - destruct rest as [|c rest]; [reflexivity|]. simpl in *.
    now destruct (Str.isDigit c).
  - apply andb_true_iff in Hd as [-> Hd]. now apply IH.
Qed.

(** ** Replacing all matches *)

Section ReplaceFacts.
Variable icase : bool.
Variable r : re.
Variable by_ : str.

(** The pattern has no [^]: where it matches does not depend on how long
    the whole subject is. *)
Hypothesis matchAt_total :
  forall t1 t2 s, Re.matchAt icase t1 r s = Re.matchAt icase t2 r s.

Lemma search_total t1 t2 s : Re.search icase t1 r s = Re.search icase t2 r s.
Proof.
  induction s as [|c s IH]; simpl; rewrite (matchAt_total t1 t2); try rewrite IH;
    reflexivity.
Qed.

Lemma search_None_cons total c s :
  Re.search icase total r (c :: s) = None <->
  Re.matchAt icase total r (c :: s) = None /\ Re.search icase total r s = None.
Proof.
  simpl. destruct (Re.matchAt icase total r (c :: s)); split; try tauto; try discriminate.
Qed.

Lemma search_None_nil total s :
  Re.search icase total r s = None -> Re.matchAt icase total r [] = None.
Proof.
  induction s as [|c s IH].
  - simpl. now destruct (Re.matchAt icase total r []).
  - intros H. apply search_None_cons in H as [_ H]. now apply IH.
Qed.

Lemma replaceGo_fuel total s :
  forall f1 f2, (List.length s < f1)%nat -> (List.length s < f2)%nat ->
    Re.replaceGo icase total r by_ f1 s = Re.replaceGo icase total r by_ f2 s.
Proof.
  induction s as [s IH] using (induction_ltof1 _ (@List.length ascii)).
  unfold ltof in IH. intros [|f1] [|f2] H1 H2; try lia.
  cbn [Re.replaceGo].
  destruct (Re.matchAt icase total r s) as [[rest cs]|].
  - destruct (Nat.ltb_spec (List.length rest) (List.length s)).
    + f_equal. apply IH; lia.
    + destruct s as [|c s]; [reflexivity|]. do 2 f_equal.
      apply IH; simpl in *; lia.
  - destruct s as [|c s]; [reflexivity|]. f_equal. apply IH; simpl in *; lia.
Qed.

(** Without a match there is nothing to replace. *)
Lemma replaceGo_none total s :
  forall fuel, (List.length s < fuel)%nat ->
    Re.search icase total r s = None ->
    Re.replaceGo icase total r by_ fuel s = s.
Proof.
  induction s as [|c s IH]; intros [|fuel] Hf Hs; try (simpl in Hf; lia).
  - simpl. apply search_None_nil in Hs. now rewrite Hs.
  - apply search_None_cons in Hs as [Hm Hs]. cbn [Re.replaceGo]. rewrite Hm.
    f_equal. apply IH; [simpl in Hf; lia | exact Hs].
Qed.

(** A stretch in which no match starts is copied. *)
Lemma replaceGo_skip total y t :
  quietBefore icase r y t ->
  forall fuel, (List.length (y ++ t) < fuel)%nat ->
    Re.replaceGo icase total r by_ fuel (y ++ t) =
    y ++ Re.replaceGo icase total r by_ (S (List.length t)) t.
Proof.
  induction y as [|c y IH]; intros Hq fuel Hf.
  - cbn [app] in *. apply replaceGo_fuel; lia.
  - destruct fuel as [|fuel]; [lia|].
    assert (Hm := Hq total [] (c :: y) eq_refl ltac:(discriminate)).
    cbn [app] in Hm, Hf |- *.
    set (R := Re.replaceGo icase total r by_ (S (List.length t)) t) in *.
    cbn [Re.replaceGo]. rewrite Hm. f_equal. apply IH.
    + intros total' y1 y2 -> Hne. apply (Hq total' (c :: y1) y2); [reflexivity | exact Hne].
    + simpl in Hf. lia.
Qed.

(** A match that consumes something is replaced, and the scan goes on
    after it. *)
Lemma replaceGo_hit total s rest cs :
  Re.matchAt icase total r s = Some (rest, cs) ->
  (List.length rest < List.length s)%nat ->
  forall fuel, (List.length s < fuel)%nat ->
    Re.replaceGo icase total r by_ fuel s =
    by_ ++ Re.replaceGo icase total r by_ (S (List.length rest)) rest.
Proof.
  intros Hm Hlt [|fuel] Hf; [lia|].
  rewrite (replaceGo_fuel total rest (S (List.length rest)) fuel) by lia.
  cbn [Re.replaceGo]. rewrite Hm.
  replace (Nat.ltb (List.length rest) (List.length s)) with true
    by (symmetry; now apply Nat.ltb_lt).
  reflexivity.
Qed.

Lemma search_skip total y t :
  quietBefore icase r y t ->
  Re.search icase total r (y ++ t) = Re.search icase total r t.
Proof.
  induction y as [|c y IH]; intros Hq; [reflexivity|].
  cbn [Re.search app].
  assert (Hm := Hq total [] (c :: y) eq_refl ltac:(discriminate)).
  cbn [app] in Hm. rewrite Hm.
  apply IH. intros total' y1 y2 -> Hne.
  apply (Hq total' (c :: y1) y2); [reflexivity | exact Hne].
Qed.

Lemma search_None_suffix total y1 y2 :
  Re.search icase total r (y1 ++ y2) = None -> Re.matchAt icase total r y2 = None.
Proof.
  induction y1 as [|c y1 IH]; simpl.
  - destruct y2; simpl; now destruct (Re.matchAt icase total r _).
  - destruct (Re.matchAt icase total r (c :: y1 ++ y2)); [discriminate | exact IH].
Qed.

Lemma search_None_tail total y t :
  Re.search icase total r (y ++ t) = None -> Re.search icase total r t = None.
Proof.
  induction y as [|c y IH]; [trivial|]. cbn [app]. intros H.
  apply search_None_cons in H as [_ H]. now apply IH.
Qed.

(** Where nothing is found, nothing starts. *)
Lemma quiet_of_none y t :
  (forall total, Re.search icase total r (y ++ t) = None) -> quietBefore icase r y t.
Proof.
  intros H total y1 y2 -> Hne. apply search_None_suffix with (y1 := y1).
  rewrite app_assoc. apply H.
Qed.
End ReplaceFacts.

(** ** The four patterns of [cleanByteRangeUrl], in closed form *)

Lemma matchAt_param icase total (w : string) (s : str) :
  Re.matchAt icase total (Seq (word w) (Star Re.digit)) s =
  if litMatches icase (lit w) s
  then Some (skipDigits (skipn (List.length (lit w)) s), [])
  else None.
Proof.
  unfold Re.matchAt. rewrite run_word.
  destruct (litMatches icase (lit w) s); [|reflexivity].
  now apply run_star_digits.
Qed.

Lemma matchAt_qm_bytestart icase total (s : str) :
  Re.matchAt icase total (Re.pattern QM_BYTESTART) s =
  if litMatches icase (lit "?bytestart=") s
  then Some (skipAmp icase (skipDigits (skipn 11 s)), [])
  else None.
Proof.
  unfold Re.matchAt, QM_BYTESTART. cbn [Re.pattern]. rewrite run_word.
  destruct (litMatches icase (lit "?bytestart=") s); [|reflexivity].
  change (List.length (lit "?bytestart=")) with 11%nat.
  cbn [Re.run]. apply rounds_digits; [reflexivity|].
  unfold skipAmp, Re.Opt. cbn [Re.run].
  destruct (skipDigits (skipn 11 s)) as [|c rest]; [reflexivity|].
  now destruct (Re.chrMatches icase "&" c).
Qed.

Lemma matchAt_qm_at_end total (s : str) :
  Re.matchAt false total (Re.pattern QM_AT_END) s =
  match s with
  | [c] => if Ascii.eqb "?" c then Some ([], []) else None
  | _ => None
  end.
Proof.
  unfold Re.matchAt, QM_AT_END. cbn [Re.pattern Re.run Re.chrMatches].
  destruct s as [|c [|c' s]]; try reflexivity; now destruct (Ascii.eqb "?" c).
Qed.

Lemma chrMatches_refl icase c : Re.chrMatches icase c c = true.
Proof. unfold Re.chrMatches. destruct icase; apply Ascii.eqb_refl. Qed.

Lemma litMatches_self icase (l s : str) : litMatches icase l (l ++ s) = true.
Proof.
  induction l as [|c l IH]; [reflexivity|]. cbn [app litMatches].
  now rewrite chrMatches_refl.
Qed.

Lemma skipn_self {A : Type} (l s : list A) : skipn (List.length l) (l ++ s) = s.
Proof. induction l as [|c l IH]; [reflexivity | exact IH]. Qed.

(** A literal cannot straddle the end of [y] when the character after [y]
    matches none of its characters but the first. *)
Lemma litMatches_tail icase (l y t : str) (c : ascii) :
  forallb (fun q => negb (Re.chrMatches icase q c)) l = true ->
  litMatches icase l (y ++ c :: t) = litMatches icase l y.
Proof.
  revert y. induction l as [|q l IH]; intros y Hl; [reflexivity|].
  cbn [forallb] in Hl. apply andb_true_iff in Hl as [Hq Hl].
  apply negb_true_iff in Hq.
  destruct y as [|d y]; cbn [app litMatches].
  - now rewrite Hq.
  - destruct (Re.chrMatches icase q d); [now apply IH | reflexivity].
Qed.

Lemma litMatches_junction icase (p : ascii) (l y t : str) (c : ascii) :
  y <> [] ->
  forallb (fun q => negb (Re.chrMatches icase q c)) l = true ->
  litMatches icase (p :: l) (y ++ c :: t) = litMatches icase (p :: l) y.
Proof.
  intros Hy Hl. destruct y as [|d y]; [congruence|].
  cbn [app litMatches]. destruct (Re.chrMatches icase p d); [|reflexivity].
  now apply litMatches_tail.
Qed.

Lemma litMatches_app icase (l a b : str) :
  litMatches icase l a = true -> litMatches icase l (a ++ b) = true.
Proof.
  revert a. induction l as [|q l IH]; intros a H; [reflexivity|].
  destruct a as [|c a]; [discriminate|]. cbn [app litMatches] in *.
  destruct (Re.chrMatches icase q c); [now apply IH | discriminate].
Qed.

Lemma clashes_app icase (l a b : str) :
  clashes icase l a = true -> litMatches icase l (a ++ b) = false.
Proof.
  revert a. induction l as [|q l IH]; intros a H; [destruct a; discriminate|].
  destruct a as [|c a]; [discriminate|]. cbn [app litMatches clashes] in *.
  destruct (Re.chrMatches icase q c); [now apply IH | reflexivity].
Qed.

Lemma suffixes_spec (y y1 y2 : str) : y = y1 ++ y2 -> y2 <> [] -> In y2 (suffixes y).
Proof.
  revert y. induction y1 as [|c y1 IH]; intros y -> Hne.
  - destruct y2; [congruence | now left].
  - right. now apply IH.
Qed.

(** Patterns that begin with a literal and match wherever it is found. *)
Section LiteralHead.
Variable icase : bool.
Variable r : re.
Variable p : ascii.
Variable l : str.
Hypothesis matchAt_literal :
  forall total s, Re.matchAt icase total r s = None <-> litMatches icase (p :: l) s = false.

Lemma literal_total t1 t2 s :
  Re.search icase t1 r s = None -> Re.search icase t2 r s = None.
Proof.
  induction s as [|c s IH]; simpl.
  - destruct (Re.matchAt icase t1 r []) eqn:E1; [discriminate|]. intros _.
    apply matchAt_literal in E1. apply (matchAt_literal t2) in E1. now rewrite E1.
  - destruct (Re.matchAt icase t1 r (c :: s)) eqn:E1; [discriminate|]. intros H.
    apply matchAt_literal in E1. apply (matchAt_literal t2) in E1. rewrite E1. now apply IH.
Qed.

(** Nothing found in [y] means nothing starts in [y] before [c :: t]. *)
Lemma quiet_junction (y t : str) (c : ascii) total :
  Re.search icase total r y = None ->
  forallb (fun q => negb (Re.chrMatches icase q c)) l = true ->
  quietBefore icase r y (c :: t).
Proof.
  intros Hs Hl total' y1 y2 -> Hne. apply matchAt_literal.
  rewrite litMatches_junction by assumption.
  apply (matchAt_literal total). now apply search_None_suffix with (y1 := y1).
Qed.

Lemma quiet_heads (y t : str) : noneStarts icase p y = true -> quietBefore icase r y t.
Proof.
  intros Hy total y1 y2 -> Hne. apply matchAt_literal.
  unfold noneStarts in Hy. rewrite forallb_app in Hy. apply andb_true_iff in Hy as [_ Hy].
  destruct y2 as [|c y2]; [congruence|]. cbn [forallb] in Hy.
  apply andb_true_iff in Hy as [Hc _]. apply negb_true_iff in Hc.
  cbn [app litMatches]. now rewrite Hc.
Qed.

Lemma search_heads_none total (s : str) :
  noneStarts icase p s = true -> Re.search icase total r s = None.
Proof.
  intros Hs. rewrite <- (app_nil_r s), (search_skip icase r total s [] (quiet_heads s [] Hs)).
  simpl. now rewrite (proj2 (matchAt_literal total [])).
Qed.

(** A literal stretch that clashes with the pattern at each of its
    positions is quiet before anything. *)
Lemma quiet_clashes (a b : str) :
  forallb (fun a2 => clashes icase (p :: l) a2) (suffixes a) = true ->
  quietBefore icase r a b.
Proof.
  intros Hc total y1 y2 Ha Hne. apply matchAt_literal.
  rewrite forallb_forall in Hc. apply clashes_app, Hc.
  now apply suffixes_spec with (y1 := y1).
Qed.

(** Nothing found in a string means nothing found in its front part. *)
Lemma search_None_prefix total (y t : str) :
  Re.search icase total r (y ++ t) = None -> Re.search icase total r y = None.
Proof.
  induction y as [|c y IH]; intros H.
  - simpl. now rewrite (proj2 (matchAt_literal total [])).
  - cbn [app] in H. apply search_None_cons in H as [Hm H].
    apply search_None_cons. split; [|now apply IH].
    apply matchAt_literal. apply matchAt_literal in Hm.
    destruct (litMatches icase (p :: l) (c :: y)) eqn:E; [|reflexivity].
    apply (litMatches_app icase _ _ t) in E. cbn [app] in E. congruence.
Qed.

(** No match starts in a stretch without one before a run of parameters,
    when [&] is not among the later characters of the literal. *)
Lemma quiet_before_params (y t : str) (ps : list rangeParam) :
  (forall total, Re.search icase total r (y ++ t) = None) ->
  forallb (fun q => negb (Re.chrMatches icase q "&")) l = true ->
  quietBefore icase r y (paramsText ps ++ t).
Proof.
  intros Hnone Hl. destruct ps as [|p0 ps]; [now apply quiet_of_none|].
  assert (E : exists rest, paramsText (p0 :: ps) ++ t = "&"%char :: rest)
    by (destruct p0; eexists; reflexivity).
  destruct E as [rest ->].
  apply (quiet_junction y rest "&" 0); [|exact Hl].
  now apply search_None_prefix with (t := t).
Qed.
End LiteralHead.

Lemma quietBefore_app icase r (y m t : str) :
  quietBefore icase r y (m ++ t) -> quietBefore icase r m t ->
  quietBefore icase r (y ++ m) t.
Proof.
  intros Hy Hm total y1 y2 Heq Hne.
  apply app_eq_app in Heq as [z [[-> ->]|[-> ->]]].
  - destruct z as [|c z].
    + apply (Hm total [] m); [reflexivity | exact Hne].
    + rewrite <- app_assoc. apply (Hy total y1 (c :: z)); [reflexivity | discriminate].
  - apply (Hm total z y2); [reflexivity | exact Hne].
Qed.

Lemma amp_bytestart_literal total (s : str) :
  Re.matchAt true total (Re.pattern AMP_BYTESTART) s = None <->
  litMatches true ("&"%char :: lit "bytestart=") s = false.
Proof.
  unfold AMP_BYTESTART. cbn [Re.pattern]. rewrite matchAt_param.
  change (lit "&bytestart=") with ("&"%char :: lit "bytestart=").
  destruct (litMatches true _ s); split; congruence.
Qed.

Lemma amp_byteend_literal total (s : str) :
  Re.matchAt true total (Re.pattern AMP_BYTEEND) s = None <->
  litMatches true ("&"%char :: lit "byteend=") s = false.
Proof.
  unfold AMP_BYTEEND. cbn [Re.pattern]. rewrite matchAt_param.
  change (lit "&byteend=") with ("&"%char :: lit "byteend=").
  destruct (litMatches true _ s); split; congruence.
Qed.

Lemma qm_bytestart_literal total (s : str) :
  Re.matchAt true total (Re.pattern QM_BYTESTART) s = None <->
  litMatches true ("?"%char :: lit "bytestart=") s = false.
Proof.
  rewrite matchAt_qm_bytestart.
  change (lit "?bytestart=") with ("?"%char :: lit "bytestart=").
  destruct (litMatches true _ s); split; congruence.
Qed.

(** None of the four patterns has a [^]. *)
Lemma amp_bytestart_total t1 t2 s :
  Re.matchAt true t1 (Re.pattern AMP_BYTESTART) s =
  Re.matchAt true t2 (Re.pattern AMP_BYTESTART) s.
Proof. unfold AMP_BYTESTART. cbn [Re.pattern]. now rewrite !matchAt_param. Qed.

Lemma amp_byteend_total t1 t2 s :
  Re.matchAt true t1 (Re.pattern AMP_BYTEEND) s =
  Re.matchAt true t2 (Re.pattern AMP_BYTEEND) s.
Proof. unfold AMP_BYTEEND. cbn [Re.pattern]. now rewrite !matchAt_param. Qed.

Lemma qm_bytestart_total t1 t2 s :
  Re.matchAt true t1 (Re.pattern QM_BYTESTART) s =
  Re.matchAt true t2 (Re.pattern QM_BYTESTART) s.
Proof. now rewrite !matchAt_qm_bytestart. Qed.

Lemma qm_at_end_total t1 t2 s :
  Re.matchAt false t1 (Re.pattern QM_AT_END) s =
  Re.matchAt false t2 (Re.pattern QM_AT_END) s.
Proof. now rewrite !matchAt_qm_at_end. Qed.

(** [replace] with a pattern that finds nothing returns its subject. *)
Lemma replaceAll_none (P : Re.t) (by_ x : str) :
  Re.test P x = false -> Re.replaceAll P by_ x = x.
Proof.
  unfold Re.test, Re.replaceAll. intros Ht.
  apply replaceGo_none; [lia|].
  now destruct (Re.search (Re.ignoreCase P) (List.length x) (Re.pattern P) x).
Qed.

(** [replace] on a subject with one match, after a stretch in which none
    starts and before a rest in which there is none. *)
Lemma replaceAll_one (P : Re.t) (by_ y t rest : str) (cs : Re.captures) :
  quietBefore (Re.ignoreCase P) (Re.pattern P) y t ->
  (forall total, Re.matchAt (Re.ignoreCase P) total (Re.pattern P) t = Some (rest, cs)) ->
  (List.length rest < List.length t)%nat ->
  (forall total, Re.search (Re.ignoreCase P) total (Re.pattern P) rest = None) ->
  Re.replaceAll P by_ (y ++ t) = y ++ by_ ++ rest.
Proof.
  intros Hq Hm Hlt Hn. unfold Re.replaceAll.
  rewrite replaceGo_skip by (exact Hq || lia).
  rewrite (replaceGo_hit _ _ _ _ t rest cs (Hm _) Hlt) by lia.
  now rewrite replaceGo_none by (lia || apply Hn).
Qed.

Lemma digit_starts_nothing (d : str) :
  allDigits d = true -> noneStarts true "&" d = true /\ noneStarts true "?" d = true.
Proof.
  unfold allDigits, noneStarts. induction d as [|c d IH]; [now split|].
  cbn [forallb]. intros H. apply andb_true_iff in H as [Hc Hd].
  destruct (IH Hd) as [-> ->].
  assert (Hamp : Re.chrMatches true "&" c = false /\ Re.chrMatches true "?" c = false).
  { revert Hc. destruct c as [[] [] [] [] [] [] [] []]; vm_compute; intros H;
      (discriminate || now split). }
  destruct Hamp as [-> ->]. now split.
Qed.

Lemma test_false_search (P : Re.t) (x : str) :
  Re.test P x = false ->
  Re.search (Re.ignoreCase P) (List.length x) (Re.pattern P) x = None.
Proof. unfold Re.test. now destruct (Re.search _ _ _ x). Qed.

Lemma isClean_tests (y : str) :
  isClean y = true ->
  Re.test AMP_BYTESTART y = false /\ Re.test AMP_BYTEEND y = false /\
  Re.test QM_BYTESTART y = false /\ Re.test QM_AT_END y = false.
Proof.
  unfold isClean. rewrite !andb_true_iff, !negb_true_iff. tauto.
Qed.

Lemma cleanByteRangeUrl_clean (y : str) : isClean y = true -> cleanByteRangeUrl y = y.
Proof.
  intros H. apply isClean_tests in H as (H1 & H2 & H3 & H4).
  unfold cleanByteRangeUrl.
  now rewrite (replaceAll_none _ _ _ H1), (replaceAll_none _ _ _ H2),
    (replaceAll_none _ _ _ H3), (replaceAll_none _ _ _ H4).
Qed.

(** A byte-range parameter is matched with all its digits. *)
Lemma param_hit (w : string) total (d rest : str) :
  allDigits d = true -> noDigitAhead rest = true ->
  Re.matchAt true total (Seq (word w) (Star Re.digit)) (lit w ++ d ++ rest) = Some (rest, []).
Proof.
  intros Hd Hr. rewrite matchAt_param, litMatches_self, skipn_self.
  now rewrite skipDigits_app.
Qed.

Lemma quiet_qm_at_end (y : str) :
  quietBefore false (Re.pattern QM_AT_END) y (lit "?").
Proof.
  intros total y1 y2 _ Hne. rewrite matchAt_qm_at_end.
  destruct y2 as [|c [|c' y2]]; [congruence | reflexivity | reflexivity].
Qed.

(** ** Runs of byte-range parameters *)

Lemma paramsText_ahead (ps : list rangeParam) (t : str) :
  noDigitAhead t = true -> noDigitAhead (paramsText ps ++ t) = true.
Proof. destruct ps as [|[d|d] ps]; auto. Qed.

Lemma paramsText_cons (p0 : rangeParam) (ps : list rangeParam) (t : str) :
  paramsText (p0 :: ps) ++ t = paramText p0 ++ paramsText ps ++ t.
Proof. cbn [paramsText flat_map]. now rewrite <- app_assoc. Qed.

Lemma wellWritten_filter (f : rangeParam -> bool) (ps : list rangeParam) :
  wellWritten ps = true -> wellWritten (List.filter f ps) = true.
Proof.
  unfold wellWritten. induction ps as [|p0 ps IH]; [trivial|].
  cbn [forallb List.filter]. intros H. apply andb_true_iff in H as [H0 H].
  destruct (f p0); cbn [forallb]; [rewrite H0|]; now apply IH.
Qed.

Lemma filter_apart (ps : list rangeParam) :
  List.filter isBytestart (List.filter isByteend ps) = [].
Proof.
  induction ps as [|[d|d] ps IH]; cbn [List.filter isByteend isBytestart];
    [reflexivity | exact IH | exact IH].
Qed.

(** [/&bytestart=\d*/gi] on a run of parameters: those of its kind go,
    the others stay. *)
Lemma strip_bytestart (ps : list rangeParam) (t : str) total :
  wellWritten ps = true -> noDigitAhead t = true ->
  (forall total', Re.search true total' (Re.pattern AMP_BYTESTART) t = None) ->
  forall fuel, (List.length (paramsText ps ++ t) < fuel)%nat ->
    Re.replaceGo true total (Re.pattern AMP_BYTESTART) [] fuel (paramsText ps ++ t) =
    paramsText (List.filter isByteend ps) ++ t.
Proof.
  intros Hw Ht Hnone. induction ps as [|[d|d] ps IH]; intros fuel Hf.
  - cbn [paramsText flat_map app List.filter] in *. now apply replaceGo_none.
  - cbn [wellWritten forallb] in Hw. apply andb_true_iff in Hw as [Hd Hw].
    rewrite paramsText_cons in *. cbn [paramText List.filter isByteend] in *.
    rewrite <- app_assoc in *.
    rewrite (replaceGo_hit true _ [] total _ (paramsText ps ++ t) []).
    + cbn [app]. apply IH; [exact Hw | lia].
    + apply (param_hit "&bytestart=" total d _ Hd). now apply paramsText_ahead.
    + rewrite !length_app. simpl. lia.
    + exact Hf.
  - cbn [wellWritten forallb] in Hw. apply andb_true_iff in Hw as [Hd Hw].
    rewrite !paramsText_cons in *. cbn [List.filter isByteend].
    rewrite paramsText_cons. cbn [paramText] in *.
    rewrite (replaceGo_skip true _ [] total (lit "&byteend=" ++ d)); [|idtac|exact Hf].
    + f_equal. apply IH; [exact Hw | lia].
    + apply quietBefore_app.
      * apply (quiet_clashes true _ "&" (lit "bytestart=") amp_bytestart_literal).
        vm_compute. reflexivity.
      * apply (quiet_heads true _ "&" (lit "bytestart=") amp_bytestart_literal).
        now apply digit_starts_nothing.
Qed.

(** [/&byteend=\d*/gi] on a run of parameters. *)
Lemma strip_byteend (ps : list rangeParam) (t : str) total :
  wellWritten ps = true -> noDigitAhead t = true ->
  (forall total', Re.search true total' (Re.pattern AMP_BYTEEND) t = None) ->
  forall fuel, (List.length (paramsText ps ++ t) < fuel)%nat ->
    Re.replaceGo true total (Re.pattern AMP_BYTEEND) [] fuel (paramsText ps ++ t) =
    paramsText (List.filter isBytestart ps) ++ t.
Proof.
  intros Hw Ht Hnone. induction ps as [|[d|d] ps IH]; intros fuel Hf.
  - cbn [paramsText flat_map app List.filter] in *. now apply replaceGo_none.
  - cbn [wellWritten forallb] in Hw. apply andb_true_iff in Hw as [Hd Hw].
    rewrite !paramsText_cons in *. cbn [List.filter isBytestart].
    rewrite paramsText_cons. cbn [paramText] in *.
    rewrite (replaceGo_skip true _ [] total (lit "&bytestart=" ++ d)); [|idtac|exact Hf].
    + f_equal. apply IH; [exact Hw | lia].
    + apply quietBefore_app.
      * apply (quiet_clashes true _ "&" (lit "byteend=") amp_byteend_literal).
        vm_compute. reflexivity.
      * apply (quiet_heads true _ "&" (lit "byteend=") amp_byteend_literal).
        now apply digit_starts_nothing.
  - cbn [wellWritten forallb] in Hw. apply andb_true_iff in Hw as [Hd Hw].
    rewrite paramsText_cons in *. cbn [paramText List.filter isBytestart] in *.
    rewrite <- app_assoc in *.
    rewrite (replaceGo_hit true _ [] total _ (paramsText ps ++ t) []).
    + cbn [app]. apply IH; [exact Hw | lia].
    + apply (param_hit "&byteend=" total d _ Hd). now apply paramsText_ahead.
    + rewrite !length_app. simpl. lia.
    + exact Hf.
Qed.

(** The first two replacements on a run of parameters after a stretch in
    which no match starts. *)
Lemma strip_params (y t : str) (ps : list rangeParam) :
  (forall ps', quietBefore true (Re.pattern AMP_BYTESTART) y (paramsText ps' ++ t)) ->
  (forall ps', quietBefore true (Re.pattern AMP_BYTEEND) y (paramsText ps' ++ t)) ->
  wellWritten ps = true -> noDigitAhead t = true ->
  (forall total, Re.search true total (Re.pattern AMP_BYTESTART) t = None) ->
  (forall total, Re.search true total (Re.pattern AMP_BYTEEND) t = None) ->
  Re.replaceAll AMP_BYTEEND (lit "")
    (Re.replaceAll AMP_BYTESTART (lit "") (y ++ paramsText ps ++ t)) = y ++ t.
Proof.
  intros Q1 Q2 Hw Ht N1 N2.
  assert (E1 : Re.replaceAll AMP_BYTESTART (lit "") (y ++ paramsText ps ++ t) =
               y ++ paramsText (List.filter isByteend ps) ++ t).
  { unfold Re.replaceAll. cbn [Re.ignoreCase].
    rewrite replaceGo_skip by (apply Q1 || lia).
    now rewrite strip_bytestart by (assumption || lia). }
  rewrite E1. unfold Re.replaceAll. cbn [Re.ignoreCase].
  rewrite replaceGo_skip by (apply Q2 || lia).
  rewrite strip_byteend by (try apply wellWritten_filter; assumption || lia).
  now rewrite filter_apart.
Qed.

Lemma test_none_everywhere (P : Re.t) (p : ascii) (l x : str) :
  Re.ignoreCase P = true ->
  (forall total s, Re.matchAt true total (Re.pattern P) s = None <->
                   litMatches true (p :: l) s = false) ->
  Re.test P x = false ->
  forall total, Re.search true total (Re.pattern P) x = None.
Proof.
  intros Hi Hlit Ht total. apply test_false_search in Ht. rewrite Hi in Ht.
  exact (literal_total true _ p l Hlit _ total x Ht).
Qed.

(** A run of parameters in [&] position goes, wherever it stands in a
    clean URL. *)
Lemma clean_params (y t : str) (ps : list rangeParam) :
  isClean (y ++ t) = true -> noDigitAhead t = true -> wellWritten ps = true ->
  cleanByteRangeUrl (y ++ paramsText ps ++ t) = y ++ t.
Proof.
  intros Hc Ht Hw. apply isClean_tests in Hc as (H1 & H2 & H3 & H4).
  pose proof (test_none_everywhere AMP_BYTESTART "&" (lit "bytestart=") _ eq_refl
                amp_bytestart_literal H1) as N1.
  pose proof (test_none_everywhere AMP_BYTEEND "&" (lit "byteend=") _ eq_refl
                amp_byteend_literal H2) as N2.
  unfold cleanByteRangeUrl. rewrite strip_params; try assumption.
  - now rewrite (replaceAll_none _ _ _ H3), (replaceAll_none _ _ _ H4).
  - intros ps'. now apply (quiet_before_params true _ "&" (lit "bytestart=")
                             amp_bytestart_literal).
  - intros ps'. now apply (quiet_before_params true _ "&" (lit "byteend=")
                             amp_byteend_literal).
  - intros total. exact (search_None_tail true _ total y t (N1 total)).
  - intros total. exact (search_None_tail true _ total y t (N2 total)).
Qed.

(** The first three replacements on [?bytestart=] with its digits and a
    run of parameters: a question mark is left, and the [&] that
    followed is gone. *)
Lemma strip_first (y d t : str) (ps : list rangeParam) :
  (forall total, Re.search true total (Re.pattern AMP_BYTESTART) y = None) ->
  (forall total, Re.search true total (Re.pattern AMP_BYTEEND) y = None) ->
  (forall total, Re.search true total (Re.pattern QM_BYTESTART) y = None) ->
  allDigits d = true -> wellWritten ps = true -> noDigitAhead t = true ->
  (forall total, Re.search true total (Re.pattern AMP_BYTESTART) t = None) ->
  (forall total, Re.search true total (Re.pattern AMP_BYTEEND) t = None) ->
  (forall total, Re.search true total (Re.pattern QM_BYTESTART) (skipAmp true t) = None) ->
  Re.replaceAll QM_BYTESTART (lit "?")
    (Re.replaceAll AMP_BYTEEND (lit "")
       (Re.replaceAll AMP_BYTESTART (lit "")
          (y ++ lit "?bytestart=" ++ d ++ paramsText ps ++ t))) =
  y ++ lit "?" ++ skipAmp true t.
Proof.
  intros Y1 Y2 Y3 Hd Hw Ht N1 N2 N3.
  destruct (digit_starts_nothing d Hd) as [Hamp Hqm].
  replace (y ++ lit "?bytestart=" ++ d ++ paramsText ps ++ t)
    with ((y ++ lit "?bytestart=" ++ d) ++ paramsText ps ++ t)
    by now rewrite <- !app_assoc.
  rewrite strip_params; try assumption.
  - rewrite <- !app_assoc.
    rewrite (replaceAll_one QM_BYTESTART (lit "?") y _ (skipAmp true t) []).
    + reflexivity.
    + apply (quiet_junction true _ "?" (lit "bytestart=") qm_bytestart_literal y _ "?" 0);
        [apply Y3 | vm_compute; reflexivity].
    + intros total. cbn [Re.ignoreCase]. rewrite matchAt_qm_bytestart.
      rewrite litMatches_self.
      change 11%nat with (List.length (lit "?bytestart=")). rewrite skipn_self.
      now rewrite skipDigits_app.
    + rewrite !length_app. simpl.
      assert (List.length (skipAmp true t) <= List.length t)%nat; [|lia].
      destruct t as [|c t]; [simpl; lia|]. cbn [skipAmp].
      destruct (Re.chrMatches true "&" c); simpl; lia.
    + exact N3.
  - intros ps'. apply quietBefore_app.
    + assert (E : exists rest, (lit "?bytestart=" ++ d) ++ paramsText ps' ++ t =
                               "?"%char :: rest) by (eexists; reflexivity).
      destruct E as [rest ->].
      apply (quiet_junction true _ "&" (lit "bytestart=") amp_bytestart_literal y rest "?" 0);
        [apply Y1 | vm_compute; reflexivity].
    + apply (quiet_heads true _ "&" (lit "bytestart=") amp_bytestart_literal).
      unfold noneStarts in *. rewrite forallb_app, Hamp. reflexivity.
  - intros ps'. apply quietBefore_app.
    + assert (E : exists rest, (lit "?bytestart=" ++ d) ++ paramsText ps' ++ t =
                               "?"%char :: rest) by (eexists; reflexivity).
      destruct E as [rest ->].
      apply (quiet_junction true _ "&" (lit "byteend=") amp_byteend_literal y rest "?" 0);
        [apply Y2 | vm_compute; reflexivity].
    + apply (quiet_heads true _ "&" (lit "byteend=") amp_byteend_literal).
      unfold noneStarts in *. rewrite forallb_app, Hamp. reflexivity.
Qed.

(** [?bytestart=] with its digits and a run of parameters at the end of
    a clean URL goes, with the question mark. *)
Lemma clean_first_last (y d : str) (ps : list rangeParam) :
  isClean y = true -> allDigits d = true -> wellWritten ps = true ->
  cleanByteRangeUrl (y ++ lit "?bytestart=" ++ d ++ paramsText ps) = y.
Proof.
  intros Hc Hd Hw. apply isClean_tests in Hc as (H1 & H2 & H3 & H4).
  pose proof (test_none_everywhere AMP_BYTESTART "&" (lit "bytestart=") _ eq_refl
                amp_bytestart_literal H1) as N1.
  pose proof (test_none_everywhere AMP_BYTEEND "&" (lit "byteend=") _ eq_refl
                amp_byteend_literal H2) as N2.
  pose proof (test_none_everywhere QM_BYTESTART "?" (lit "bytestart=") _ eq_refl
                qm_bytestart_literal H3) as N3.
  unfold cleanByteRangeUrl.
  rewrite <- (app_nil_r (paramsText ps)).
  rewrite (strip_first y d [] ps); try assumption; try reflexivity.
  cbn [skipAmp].
  rewrite (replaceAll_one QM_AT_END (lit "") y _ [] []).
  - cbn [app lit list_ascii_of_string]. apply app_nil_r.
  - apply quiet_qm_at_end.
  - intros total. reflexivity.
  - vm_compute. lia.
  - intros total. reflexivity.
Qed.

(** In front of further parameters, [?bytestart=] with its digits and a
    run of parameters leaves the question mark for them. *)
Lemma clean_first (y d t : str) (ps : list rangeParam) :
  isClean (y ++ lit "?" ++ t) = true -> isClean (lit "&" ++ t) = true ->
  allDigits d = true -> wellWritten ps = true ->
  cleanByteRangeUrl (y ++ lit "?bytestart=" ++ d ++ paramsText ps ++ lit "&" ++ t) =
  y ++ lit "?" ++ t.
Proof.
  intros Hc Ha Hd Hw.
  pose proof Hc as Hc'. apply isClean_tests in Hc as (H1 & H2 & H3 & H4).
  apply isClean_tests in Ha as (A1 & A2 & _ & _).
  pose proof (test_none_everywhere AMP_BYTESTART "&" (lit "bytestart=") _ eq_refl
                amp_bytestart_literal H1) as N1.
  pose proof (test_none_everywhere AMP_BYTEEND "&" (lit "byteend=") _ eq_refl
                amp_byteend_literal H2) as N2.
  pose proof (test_none_everywhere QM_BYTESTART "?" (lit "bytestart=") _ eq_refl
                qm_bytestart_literal H3) as N3.
  pose proof (test_none_everywhere AMP_BYTESTART "&" (lit "bytestart=") _ eq_refl
                amp_bytestart_literal A1) as M1.
  pose proof (test_none_everywhere AMP_BYTEEND "&" (lit "byteend=") _ eq_refl
                amp_byteend_literal A2) as M2.
  unfold cleanByteRangeUrl.
  rewrite (strip_first y d (lit "&" ++ t) ps); try assumption; try reflexivity.
  - change (skipAmp true (lit "&" ++ t)) with t.
    apply replaceAll_none. exact H4.
  - intros total.
    exact (search_None_prefix true _ "&" (lit "bytestart=") amp_bytestart_literal total y _
             (N1 total)).
  - intros total.
    exact (search_None_prefix true _ "&" (lit "byteend=") amp_byteend_literal total y _
             (N2 total)).
  - intros total.
    exact (search_None_prefix true _ "?" (lit "bytestart=") qm_bytestart_literal total y _
             (N3 total)).
  - intros total. change (skipAmp true (lit "&" ++ t)) with t.
    apply (search_None_tail true _ total (y ++ lit "?") t).
    rewrite <- app_assoc. apply N3.
Qed.

(** What [ranged] relates a URL to is its clean form, a clean URL. *)
Lemma ranged_clean (x z : str) :
  ranged x z -> cleanByteRangeUrl x = z /\ isClean z = true.
Proof.
  intros [y t ps Hc Ht Hw | y d ps Hc Hd Hw | y d t ps Hc Ha Hd Hw].
  - split; [now apply clean_params | exact Hc].
  - split; [now apply clean_first_last | exact Hc].
  - split; [now apply clean_first | exact Hc].
Qed.

(** Both parameters in [&] position after a clean URL. *)
Lemma clean_amp_both (y d1 d2 : str) :
  isClean y = true -> allDigits d1 = true -> allDigits d2 = true ->
  cleanByteRangeUrl (y ++ lit "&bytestart=" ++ d1 ++ lit "&byteend=" ++ d2) = y.
Proof.
  intros Hy H1 H2.
  pose proof (clean_params y [] [Bytestart d1; Byteend d2]) as H.
  cbn [paramsText flat_map paramText wellWritten forallb] in H.
  rewrite !app_nil_r, <- !app_assoc in H. apply H; [exact Hy | reflexivity|].
  now rewrite H1, H2.
Qed.

(** [/\?$/g] finds nothing in a string that does not end in [?]. *)
Lemma search_qm_at_end (s : str) (c : ascii) total :
  c <> "?"%char -> Re.search false total (Re.pattern QM_AT_END) (s ++ [c]) = None.
Proof.
  intros Hc. induction s as [|c0 s IH].
  - cbn [app Re.search]. rewrite !matchAt_qm_at_end.
    destruct (Ascii.eqb_spec "?" c); [congruence | reflexivity].
  - cbn [app Re.search]. rewrite matchAt_qm_at_end, IH.
    destruct (s ++ [c]) eqn:E; [|reflexivity].
    now destruct s.
Qed.

(** There is no replacement for [?byteend=]: after a clean URL it
    stays. *)
Lemma clean_keeps_first_byteend (y d : str) :
  isClean y = true -> allDigits d = true ->
  cleanByteRangeUrl (y ++ lit "?byteend=" ++ d) = y ++ lit "?byteend=" ++ d.
Proof.
  intros Hc Hd. apply cleanByteRangeUrl_clean.
  apply isClean_tests in Hc as (H1 & H2 & H3 & H4).
  pose proof (test_none_everywhere AMP_BYTESTART "&" (lit "bytestart=") _ eq_refl
                amp_bytestart_literal H1) as N1.
  pose proof (test_none_everywhere AMP_BYTEEND "&" (lit "byteend=") _ eq_refl
                amp_byteend_literal H2) as N2.
  pose proof (test_none_everywhere QM_BYTESTART "?" (lit "bytestart=") _ eq_refl
                qm_bytestart_literal H3) as N3.
  destruct (digit_starts_nothing d Hd) as [Hamp Hqm].
  assert (T : forall (P : Re.t) (x : str),
            Re.search (Re.ignoreCase P) (List.length x) (Re.pattern P) x = None ->
            Re.test P x = false) by (intros P x H; unfold Re.test; now rewrite H).
  unfold isClean.
  rewrite (T AMP_BYTESTART), (T AMP_BYTEEND), (T QM_BYTESTART), (T QM_AT_END);
    [reflexivity|..]; cbn [Re.ignoreCase].
  - destruct (rev d) as [|c d'] eqn:E.
    + apply (f_equal (@rev ascii)) in E. rewrite rev_involutive in E. subst d.
      change (y ++ lit "?byteend=" ++ rev []) with (y ++ lit "?byteend" ++ ["="%char]).
      rewrite !app_assoc. now apply search_qm_at_end.
    + apply (f_equal (@rev ascii)) in E. rewrite rev_involutive in E. subst d.
      cbn [rev]. rewrite !app_assoc. apply search_qm_at_end.
      intros ->. unfold allDigits in Hd. cbn [rev] in Hd.
      rewrite forallb_app in Hd. apply andb_true_iff in Hd as [_ Hd]. discriminate.
  - rewrite (search_skip true _ _ y).
    + rewrite (search_skip true _ _ (lit "?byteend=")).
      * apply (search_heads_none true _ "?" (lit "bytestart=") qm_bytestart_literal).
        exact Hqm.
      * apply (quiet_clashes true _ "?" (lit "bytestart=") qm_bytestart_literal).
        vm_compute. reflexivity.
    + apply (quiet_junction true _ "?" (lit "bytestart=") qm_bytestart_literal y _ "?" 0);
        [apply N3 | vm_compute; reflexivity].
  - rewrite (search_skip true _ _ y).
    + apply (search_heads_none true _ "&" (lit "byteend=") amp_byteend_literal).
      unfold noneStarts in *. rewrite forallb_app, Hamp. reflexivity.
    + apply (quiet_junction true _ "&" (lit "byteend=") amp_byteend_literal y _ "?" 0);
        [apply N2 | vm_compute; reflexivity].
  - rewrite (search_skip true _ _ y).
    + apply (search_heads_none true _ "&" (lit "bytestart=") amp_bytestart_literal).
      unfold noneStarts in *. rewrite forallb_app, Hamp. reflexivity.
    + apply (quiet_junction true _ "&" (lit "bytestart=") amp_bytestart_literal y _ "?" 0);
        [apply N1 | vm_compute; reflexivity].
Qed.

(** [C7] URL normalization.  A URL in which none of the four patterns
    matches is returned as it is, so scheme, host, path and the other
    parameters stay.  A run of [&bytestart=] and [&byteend=] parameters
    with their digits is removed wherever it stands in such a URL, and
    what is before and after it stays; [?bytestart=] with its digits and
    the run of parameters after it is removed with the question mark at
    the end of a URL, and leaves the question mark to the parameters that
    follow it otherwise.  On all these URLs the function is idempotent,
    as for [a?x=1&bytestart=5], which becomes [a?x=1].  There is no
    replacement for [?byteend=], which stays. *)
Theorem cleanByteRangeUrl_normalizes :
  (forall x, isClean x = true -> cleanByteRangeUrl x = x) /\
  (forall x z, ranged x z ->
     cleanByteRangeUrl x = z /\
     isClean z = true /\
     cleanByteRangeUrl (cleanByteRangeUrl x) = cleanByteRangeUrl x) /\
  (forall y d, isClean y = true -> allDigits d = true ->
     cleanByteRangeUrl (y ++ lit "?byteend=" ++ d) = y ++ lit "?byteend=" ++ d) /\
  ranged (lit "a?x=1&bytestart=5") (lit "a?x=1") /\
  cleanByteRangeUrl (lit "a?x=1&bytestart=5") = lit "a?x=1" /\
  cleanByteRangeUrl (cleanByteRangeUrl (lit "a?x=1&bytestart=5")) =
  cleanByteRangeUrl (lit "a?x=1&bytestart=5").
Proof.
  split; [|split; [|split; [|split; [|split]]]].
  - exact cleanByteRangeUrl_clean.
  - intros x z Hr. destruct (ranged_clean x z Hr) as [Hz Hc].
    split; [exact Hz|]. split; [exact Hc|].
    rewrite Hz. now apply cleanByteRangeUrl_clean.
  - exact clean_keeps_first_byteend.
  - exact (ranged_amp (lit "a?x=1") [] [Bytestart (lit "5")] eq_refl eq_refl eq_refl).
  - vm_compute. reflexivity.
  - vm_compute. reflexivity.
Qed.

Lemma cleanByteRangeUrl_normalizes_witness :
  cleanByteRangeUrl
    (lit "https://cdn.example/v.mp4?a=1" ++
     paramsText [Bytestart (lit "0"); Byteend (lit "65535")] ++ lit "&b=2") =
  lit "https://cdn.example/v.mp4?a=1" ++ lit "&b=2".
Proof.
  refine (proj1 (proj1 (proj2 cleanByteRangeUrl_normalizes) _ _
                   (ranged_amp (lit "https://cdn.example/v.mp4?a=1") (lit "&b=2")
                      [Bytestart (lit "0"); Byteend (lit "65535")] _ _ _)));
    vm_compute; reflexivity.
Defined.

(** Normalizing twice is not normalizing once when the first pass leaves a
    question mark at the end, and [?byteend=] is not removed. *)
Lemma cleanByteRangeUrl_normalizes_counterexample :
  ~ ((forall x, cleanByteRangeUrl (cleanByteRangeUrl x) = cleanByteRangeUrl x) \/
     cleanByteRangeUrl (lit "https://cdn.example/v.mp4?byteend=65535") =
     lit "https://cdn.example/v.mp4").
Proof.
  intros [H|H].
  - specialize (H (lit "https://cdn.example/v.mp4?bytestart=0?")).
    vm_compute in H. discriminate.
  - vm_compute in H. discriminate.
Qed.

(** ** The star of a single character

    [.] and a class take one character at a time; their star gives back
    characters from the end until what follows can go on. *)
Section CharStar.
Context {A : Type}.
Variable step : str -> Re.captures -> (str -> Re.captures -> option A) -> option A.
Variable accepts : ascii -> bool.
Hypothesis step_char :
  forall s cs k,
    step s cs k = match s with
                  | c :: s' => if accepts c then k s' cs else None
                  | [] => None
                  end.
Variable K : str -> Re.captures -> option A.
Variable cs : Re.captures.




End CharStar.

(** ** Sorting the variants *)




(** ** The directory of a manifest URL *)




Lemma firstn_before {X : Type} (a b : list X) :
  firstn (List.length (a ++ b) - List.length b) (a ++ b) = a.
Proof.
  rewrite length_app. replace (List.length a + List.length b - List.length b)%nat
    with (List.length a) by lia.
  rewrite firstn_app, Nat.sub_diag, firstn_all. simpl. apply app_nil_r.
Qed.



(** ** The resolution attribute *)

Lemma litMatches_startsWith (l s : str) : litMatches false l s = Str.startsWith s l.
Proof.
  revert s. induction l as [|p l IH]; intros [|c s]; try reflexivity.
  cbn [litMatches Str.startsWith Re.chrMatches]. rewrite IH.
  now destruct (Ascii.eqb p c).
Qed.

Lemma includes_false_suffix (s p y1 y2 : str) :
  Str.includes s p = false -> s = y1 ++ y2 -> Str.startsWith y2 p = false.
Proof.
  revert s. induction y1 as [|c y1 IH]; intros s Hs ->.
  - cbn [app] in Hs. destruct y2; cbn [Str.includes] in Hs;
      apply orb_false_iff in Hs; tauto.
  - cbn [app Str.includes] in Hs. apply orb_false_iff in Hs as [_ Hs].
    now apply (IH (y1 ++ y2)).
Qed.

Lemma startsWith_self (p s : str) : Str.startsWith (p ++ s) p = true.
Proof.
  induction p as [|c p IH]; [now destruct s|]. cbn [app Str.startsWith].
  now rewrite Ascii.eqb_refl.
Qed.

Lemma includes_middle (pre p s : str) : Str.includes (pre ++ p ++ s) p = true.
Proof.
  induction pre as [|c pre IH].
  - cbn [app]. destruct (p ++ s) eqn:E; cbn [Str.includes]; rewrite <- E;
      now rewrite startsWith_self.
  - cbn [app Str.includes]. rewrite IH. apply orb_true_r.
Qed.

(** A stretch without the literal, before a character that cannot
    continue it, starts no match of a pattern that begins with it. *)
Lemma quiet_literal icase (r : re) (p : ascii) (l y t : str) (c : ascii) :
  (forall total s, litMatches icase (p :: l) s = false -> Re.matchAt icase total r s = None) ->
  (forall y1 y2, y = y1 ++ y2 -> litMatches icase (p :: l) y2 = false) ->
  forallb (fun q => negb (Re.chrMatches icase q c)) l = true ->
  quietBefore icase r y (c :: t).
Proof.
  intros Hlit Hy Hl total y1 y2 Heq Hne. apply Hlit.
  rewrite litMatches_junction by assumption. now apply (Hy y1).
Qed.

(** A group of one or more digits captures exactly the digits. *)
Lemma run_group_digits {A : Type} icase total (i : nat) (c : ascii) (d rest : str)
    (cs : Re.captures) (K : str -> Re.captures -> option A) (a : A) :
  Str.isDigit c = true -> allDigits d = true -> noDigitAhead rest = true ->
  K rest ((i, c :: d) :: cs) = Some a ->
  Re.run icase total (Grp i (Re.Plus Re.digit)) (c :: d ++ rest) cs K = Some a.
Proof.
  intros Hc Hd Hr HK. unfold Re.Plus. cbn [Re.run]. unfold Re.digit at 1.
  cbn [Re.run]. rewrite digit_class, Hc.
  apply rounds_digits; [reflexivity|].
  rewrite skipDigits_app by assumption.
  change (c :: d ++ rest) with ((c :: d) ++ rest). now rewrite firstn_before.
Qed.

Lemma resolution_at total (cw ch : ascii) (w h post : str) :
  allDigits (cw :: w) = true -> allDigits (ch :: h) = true -> noDigitAhead post = true ->
  Re.matchAt false total (Re.pattern RESOLUTION)
    (lit "RESOLUTION=" ++ (cw :: w) ++ "x"%char :: (ch :: h) ++ post) =
  Some (post, [(2%nat, ch :: h); (1%nat, cw :: w)]).
Proof.
  intros Hw Hh Hp. cbn [allDigits forallb] in Hw, Hh.
  apply andb_true_iff in Hw as [Hcw Hw]. apply andb_true_iff in Hh as [Hch Hh].
  unfold Re.matchAt, RESOLUTION. cbn [Re.pattern].
  rewrite run_word, litMatches_self, skipn_self.
  change (Re.run false total
            (Seq (Grp 1 (Re.Plus Re.digit)) (Seq (Chr "x") (Grp 2 (Re.Plus Re.digit))))
            ((cw :: w) ++ "x"%char :: (ch :: h) ++ post) []
            (fun s1 cs1 => Some (s1, cs1)))
    with (Re.run false total (Grp 1 (Re.Plus Re.digit))
            (cw :: w ++ "x"%char :: (ch :: h) ++ post) []
            (fun s1 cs1 =>
               Re.run false total (Seq (Chr "x") (Grp 2 (Re.Plus Re.digit))) s1 cs1
                 (fun s2 cs2 => Some (s2, cs2)))).
  apply run_group_digits; try assumption; [reflexivity|].
  change (Re.run false total (Grp 2 (Re.Plus Re.digit)) (ch :: h ++ post)
            [(1%nat, cw :: w)] (fun s2 cs2 => Some (s2, cs2)) =
          Some (post, [(2%nat, ch :: h); (1%nat, cw :: w)])).
  now apply run_group_digits.
Qed.

Lemma resolution_exec (cw ch : ascii) (pre w h post : str) :
  Str.includes pre (lit "RESOLUTION=") = false ->
  allDigits (cw :: w) = true -> allDigits (ch :: h) = true -> noDigitAhead post = true ->
  Re.exec RESOLUTION
    (pre ++ lit "RESOLUTION=" ++ (cw :: w) ++ "x"%char :: (ch :: h) ++ post) =
  Some [(2%nat, ch :: h); (1%nat, cw :: w)].
Proof.
  intros Hpre Hw Hh Hp. unfold Re.exec.
  change (Re.ignoreCase RESOLUTION) with false.
  generalize (List.length
                (pre ++ lit "RESOLUTION=" ++ (cw :: w) ++ "x"%char :: (ch :: h) ++ post)).
  intros total. rewrite search_skip.
  - change (lit "RESOLUTION=" ++ (cw :: w) ++ "x"%char :: (ch :: h) ++ post)
      with ("R"%char :: lit "ESOLUTION=" ++ (cw :: w) ++ "x"%char :: (ch :: h) ++ post)
      at 1.
    cbn [Re.search].
    change ("R"%char :: lit "ESOLUTION=" ++ (cw :: w) ++ "x"%char :: (ch :: h) ++ post)
      with (lit "RESOLUTION=" ++ (cw :: w) ++ "x"%char :: (ch :: h) ++ post).
    now rewrite resolution_at.
  - change (lit "RESOLUTION=" ++ (cw :: w) ++ "x"%char :: (ch :: h) ++ post)
      with ("R"%char :: lit "ESOLUTION=" ++ (cw :: w) ++ "x"%char :: (ch :: h) ++ post).
    apply (quiet_literal false _ "R" (lit "ESOLUTION=")).
    + intros total' s Hs. unfold Re.matchAt, RESOLUTION. cbn [Re.pattern].
      rewrite run_word. change (lit "RESOLUTION=") with ("R"%char :: lit "ESOLUTION=").
      now rewrite Hs.
    + intros y1 y2 Hy. rewrite litMatches_startsWith.
      now apply (includes_false_suffix pre _ y1).
    + vm_compute. reflexivity.
Qed.

(** ** [parseInt] on decimal digits *)

Lemma digit_facts (c : ascii) :
  Str.isDigit c = true ->
  Str.isSpace c = false /\ Ascii.eqb c "-" = false /\ Ascii.eqb c "+" = false /\
  Ascii.eqb c "x" = false /\ Ascii.eqb c "X" = false /\
  Str.digitVal 10 c = Some (Z.of_nat (Str.code c) - 48).
Proof.
  destruct c as [[] [] [] [] [] [] [] []]; vm_compute; intros H;
    (discriminate || (repeat split; reflexivity)).
Qed.

Lemma digitsGo_digits (s : str) (a : Z) :
  allDigits s = true ->
  Str.digitsGo 10 s (Some a) =
  Some (fold_left (fun a c => a * 10 + (Z.of_nat (Str.code c) - 48)) s a).
Proof.
  revert a. induction s as [|c s IH]; intros a Hs; [reflexivity|].
  cbn [allDigits forallb] in Hs. apply andb_true_iff in Hs as [Hc Hs].
  destruct (digit_facts c Hc) as (_ & _ & _ & _ & _ & Hv).
  cbn [Str.digitsGo fold_left]. rewrite Hv. now apply IH.
Qed.

Lemma parseInt_digits (c : ascii) (s : str) :
  allDigits (c :: s) = true -> Str.parseInt (c :: s) = Some (decimalValue (c :: s)).
Proof.
  intros Hs. cbn [allDigits forallb] in Hs. apply andb_true_iff in Hs as [Hc Hs].
  destruct (digit_facts c Hc) as (Hsp & Hm & Hp & _ & _ & Hv).
  unfold Str.parseInt. cbn [Str.trimStart]. rewrite Hsp, Hm, Hp.
  assert (Hradix : (match c :: s with
                    | c0 :: cx :: r =>
                        if (Ascii.eqb c0 "0" && (Ascii.eqb cx "x" || Ascii.eqb cx "X"))%bool
                        then (16, r) else (10, c :: s)
                    | _ => (10, c :: s)
                    end) = (10, c :: s)).
  { destruct s as [|cx r]; [reflexivity|].
    cbn [forallb] in Hs. apply andb_true_iff in Hs as [Hcx _].
    destruct (digit_facts cx Hcx) as (_ & _ & _ & Hx & HX & _).
    now rewrite Hx, HX, andb_false_r. }
  rewrite Hradix. cbn [Str.digitsGo]. rewrite Hv.
  rewrite digitsGo_digits by exact Hs.
  unfold decimalValue. cbn [fold_left]. reflexivity.
Qed.

(** A line which, trimmed, has [RESOLUTION=WxH] sets the quality to the
    lesser of the two numbers, followed by [p]. *)
Lemma scanLine_resolution (acc : js str * js str) (line : str) (cw ch : ascii)
    (pre w h post : str) :
  Str.trim line = pre ++ lit "RESOLUTION=" ++ (cw :: w) ++ "x"%char :: (ch :: h) ++ post ->
  Str.includes pre (lit "RESOLUTION=") = false ->
  allDigits (cw :: w) = true -> allDigits (ch :: h) = true -> noDigitAhead post = true ->
  fst (scanLine acc line) =
  val (Str.ofNumber (Z.min (decimalValue (cw :: w)) (decimalValue (ch :: h))) ++ lit "p").
Proof.
  intros Htrim Hpre Hw Hh Hp. unfold scanLine. destruct acc as [quality variantUrl].
  rewrite Htrim, includes_middle, resolution_exec by assumption.
  cbn [fst Re.group List.find Nat.eqb]. unfold minOfParsed.
  now rewrite !parseInt_digits by assumption.
Qed.

Lemma scanLine_quality (acc : js str * js str) (cw ch : ascii) (pre w h post : str) :
  Str.includes pre (lit "RESOLUTION=") = false ->
  allDigits (cw :: w) = true -> allDigits (ch :: h) = true -> noDigitAhead post = true ->
  Str.trim (pre ++ lit "RESOLUTION=" ++ (cw :: w) ++ "x"%char :: (ch :: h) ++ post) =
    pre ++ lit "RESOLUTION=" ++ (cw :: w) ++ "x"%char :: (ch :: h) ++ post ->
  fst (scanLine acc
         (pre ++ lit "RESOLUTION=" ++ (cw :: w) ++ "x"%char :: (ch :: h) ++ post)) =
  val (Str.ofNumber (Z.min (decimalValue (cw :: w)) (decimalValue (ch :: h))) ++ lit "p").
Proof.
  intros Hpre Hw Hh Hp Htrim. now apply scanLine_resolution with (pre := pre) (post := post).
Qed.

(** ** Lines and blocks *)

Lemma startsWith_nil (s : str) : Str.startsWith s [] = true.
Proof. now destruct s. Qed.






















(** A failed fetch, or a body without the manifest signature, leaves the
    registry as it was; the example playlist adds its two variants, tagged
    [hls], to the registry of the tab. *)
Lemma fetchAndParseM3U8_swallows (now : Z) (reg : Registry) (url : str) (tabId : js Z) :
  fetchAndParseM3U8 now reg url tabId None = reg /\
  (forall text, Str.includes text (lit "#EXTM3U") = false ->
     fetchAndParseM3U8 now reg url tabId (Some text) = reg).
Proof.
  split; [reflexivity|]. intros text H. unfold fetchAndParseM3U8, masterVariants.
  now rewrite H.
Qed.

Lemma fetchAndParseM3U8_example :
  List.map (fun e => (fst e, Info.quality (snd e), Info.source (snd e)))
    (default [] (fetchAndParseM3U8 1000 ∅ Manifest.url (val 7) (Some Manifest.master) !! 7)) =
  [(lit "https://cdn.example/hi/index.m3u8", val (lit "720p"), val (lit "hls"));
   (lit "https://cdn.example/live/low/index.m3u8", val (lit "360p"), val (lit "hls"))].
Proof. vm_compute. reflexivity. Qed.

(** What the two parsers make of a portrait stream: the background script
    takes the lesser of width and height, the page watcher the height. *)
Lemma portrait_quality :
  (exists url, masterVariants Manifest.url Manifest.portrait =
               Some [Variant.mk url (val (lit "360p"))]) /\
  List.map Found.quality (HLSParser_onLoad (lit "title") Manifest.portrait Manifest.url) =
  [val (lit "640p")].
Proof. split; [eexists|]; vm_compute; reflexivity. Qed.

(** ** Header embedding *)

Section WatcherFacts.
Context {URL : Type}.
Variable newURL : str -> option URL.
Variable protocol : URL -> str.
Variable searchParamsSet : URL -> str -> str -> URL.
Variable toString : URL -> str.

Lemma embedHeaders_cases (videoUrl referer origin : str) :
  embedHeaders newURL protocol searchParamsSet toString videoUrl referer origin =
  if Str.includes videoUrl (lit "headers=") then videoUrl
  else match validHeaders newURL protocol referer origin, newURL videoUrl with
       | (_ :: _) as headers, Some url =>
           toString (searchParamsSet url (lit "headers") (Json.object headers))
       | _, _ => videoUrl
       end.
Proof.
  unfold embedHeaders, validHeaders.
  destruct referer as [|r0 referer], origin as [|o0 origin]; cbn [negb andb];
    destruct (Str.includes videoUrl (lit "headers=")); try reflexivity;
    repeat match goal with
           | |- context [isValidUrl ?f ?g ?u] => destruct (isValidUrl f g u)
           end;
    cbn [app]; now destruct (newURL videoUrl).
Qed.

(** [C9] Header embedding in [dispatchVideo].  A candidate with a
    non-empty URL that was not dispatched before is dispatched, and its
    possibly rewritten URL is remembered.  A URL on the relay allow-list
    is flagged as already proxied and left as it is; a URL that already
    contains [headers=] is left as it is.  Otherwise the page's document
    URL and origin, each only if it is a valid http(s) URL, are set as
    one [headers] search parameter holding the serialized object,
    provided there is at least one of them and the candidate URL itself
    parses as an absolute URL; if not, the URL is left as it is. *)
Theorem dispatchVideo_headers (pageReferer pageOrigin : str) (foundVideos : list str)
    (video : Found.t) (url : str) :
  Found.url video = val url ->
  url <> [] ->
  has foundVideos url = false ->
  exists url' flag,
    dispatchVideo newURL protocol searchParamsSet toString pageReferer pageOrigin
      foundVideos video =
    ((if has foundVideos url' then foundVideos else foundVideos ++ [url']),
     Some (Found.mk (val url') (Found.quality video) (Found.source video)
             (Found.title video) (Found.playlist video) flag)) /\
    (isAlreadyProxied url = true -> flag = val true /\ url' = url) /\
    (isAlreadyProxied url = false -> flag = Found.alreadyProxied video) /\
    (Str.includes url (lit "headers=") = true -> url' = url) /\
    (isAlreadyProxied url = false ->
     Js.truthyBool (Found.alreadyProxied video) = false ->
     Str.includes url (lit "headers=") = false ->
     url' = match validHeaders newURL protocol pageReferer pageOrigin, newURL url with
            | (_ :: _) as headers, Some parsed =>
                toString (searchParamsSet parsed (lit "headers") (Json.object headers))
            | _, _ => url
            end /\
     (isValidUrl newURL protocol pageReferer = true ->
      isValidUrl newURL protocol pageOrigin = true ->
      pageReferer <> [] -> pageOrigin <> [] ->
      forall parsed, newURL url = Some parsed ->
        url' = toString
                 (searchParamsSet parsed (lit "headers")
                    (Json.object [(lit "referer", pageReferer); (lit "origin", pageOrigin)]))) /\
     (newURL url = None -> url' = url) /\
     (isValidUrl newURL protocol pageReferer = false ->
      isValidUrl newURL protocol pageOrigin = false -> url' = url)).
Proof.
  intros Hurl Hne Hnew. unfold dispatchVideo. rewrite Hurl, Hnew.
  assert (Ht : Js.truthyStr (val url) = true) by (destruct url; [congruence | reflexivity]).
  rewrite Ht. cbn [negb orb].
  set (flag := if isAlreadyProxied url then val true else Found.alreadyProxied video).
  set (url' := if (negb (Str.includes url (lit "headers=")) && negb (Js.truthyBool flag))%bool
               then embedHeaders newURL protocol searchParamsSet toString url
                      pageReferer pageOrigin
               else url).
  exists url', flag. split; [reflexivity|].
  split; [|split; [|split]].
  - intros Hp. subst url' flag. rewrite Hp. cbn [Js.truthyBool negb].
    now rewrite andb_false_r.
  - intros Hp. subst flag. now rewrite Hp.
  - intros Hh. subst url'. now rewrite Hh.
  - intros Hp Hflag Hh. subst url' flag. rewrite Hp, Hflag, Hh. cbn [negb andb].
    rewrite embedHeaders_cases, Hh.
    split; [reflexivity|]. split; [|split].
    + intros Hr Ho Hrne Hone parsed Hparsed. unfold validHeaders.
      rewrite Hr, Ho, Hparsed.
      destruct pageReferer; [congruence|]. destruct pageOrigin; [congruence|]. reflexivity.
    + intros ->. now destruct (validHeaders _ _ _ _).
    + intros Hr Ho. unfold validHeaders. rewrite Hr, Ho, !andb_false_r. reflexivity.
Qed.
End WatcherFacts.

Lemma dispatchVideo_headers_witness :
  exists url' flag,
    dispatchVideo SimpleURL.newURL SimpleURL.protocol SimpleURL.searchParamsSet
      SimpleURL.toString (lit "https://video.example/watch/1") (lit "https://video.example")
      [] (found "https://cdn.example/v.mp4" "api") =
    ([url'],
     Some (Found.mk (val url') null (val (lit "api")) (val (lit "title")) undefined flag)) /\
    Str.includes url' (lit "headers=") = true.
Proof.
  destruct (dispatchVideo_headers SimpleURL.newURL SimpleURL.protocol
              SimpleURL.searchParamsSet SimpleURL.toString
              (lit "https://video.example/watch/1") (lit "https://video.example") []
              (found "https://cdn.example/v.mp4" "api") (lit "https://cdn.example/v.mp4")
              eq_refl ltac:(discriminate) eq_refl)
    as (url' & flag & Hd & _ & _ & _ & Hstamp).
  exists url', flag. split.
  - rewrite Hd. reflexivity.
  - destruct Hstamp as [-> _]; vm_compute; reflexivity.
Defined.

(** On a page whose URL and origin are not valid http(s) URLs nothing is
    stamped into a valid absolute candidate URL that has no [headers=] and
    is not on the relay list. *)
Lemma dispatchVideo_headers_counterexample :
  ~ exists url' detail,
      snd (dispatchVideo SimpleURL.newURL SimpleURL.protocol SimpleURL.searchParamsSet
             SimpleURL.toString (lit "file:///home/user/clip.html") (lit "null") []
             (found "https://cdn.example/v.mp4" "api")) = Some detail /\
      Found.url detail = val url' /\
      Str.includes url' (lit "headers=") = true.
Proof.
  intros (url' & detail & Hd & Hu & Hh). vm_compute in Hd.
  injection Hd as <-. cbn [Found.url] in Hu. injection Hu as <-.
  vm_compute in Hh. discriminate.
Qed.

(** * Further properties of the code *)

(** ** The scorer *)

Lemma qualityBoost_falsy (quality : js str) :
  Js.truthyStr quality = false -> qualityBoost quality = 0.
Proof. destruct quality as [| |[|c s]]; try reflexivity. discriminate. Qed.

(** Under a tag that names a member of [Object.prototype] the score is a
    string: the digits of 10, the text of the member, and the digits of
    each boost. *)
Lemma scoreVideo_inherited (url : str) (size : js Z) (source quality : js str) :
  plainTag source = false ->
  exists text s,
    sourcePriority source = Priority.inherited text /\
    scoreVideo url size source quality = Score.text (lit "10" ++ text ++ s).
Proof.
  unfold plainTag. destruct (sourcePriority source) as [p|text|] eqn:E; try discriminate.
  intros _. exists text.
  assert (Ht : Js.truthyStr source = true)
    by (apply sourcePriority_truthy; rewrite E; discriminate).
  unfold scoreVideo. rewrite Ht, E. unfold Score.append. cbn [Score.toString].
  change (Str.ofNumber 10) with (lit "10").
  assert (Hadd : forall t n, Score.add (Score.text (lit "10" ++ text ++ t)) n =
                             Score.text (lit "10" ++ text ++ t ++ Str.ofNumber n)).
  { intros t n. cbn [Score.add]. now rewrite <- !app_assoc. }
  replace (lit "10" ++ text) with (lit "10" ++ text ++ []) by now rewrite app_nil_r.
  destruct (Re.test MP4_EXTENSION (Str.toLowerCase url)),
           (Re.test M3U8_EXTENSION (Str.toLowerCase url)),
           (Re.test HD_HINT (Str.toLowerCase url)),
           (Re.test HINT_720 (Str.toLowerCase url)).
  all: destruct size as [| |n]; cbn [Js.truthyNum].
  all: try (destruct (negb (n =? 0))).
  all: try (destruct (50000000 <? n), (10000000 <? n), (5000000 <? n)).
  all: destruct quality as [| |[|c qs]]; cbn [Js.truthyStr].
  all: try (destruct (Str.parseInt (c :: qs)) as [q|];
            [destruct (1080 <=? q), (720 <=? q), (480 <=? q)|]).
  all: rewrite ?Hadd; eexists; split; reflexivity.
Qed.

(** [X1] The score of a candidate whose source tag does not name a member
    inherited from [Object.prototype] is a number, never below the base
    of 10 and never above 183 (the base, the highest source priority, and
    every boost), and both bounds are reached: by a candidate about which
    nothing is known, and by a large [.mp4] of a site parser with a 1080p
    quality and both quality hints in its URL.  Under a tag that names
    such a member ([constructor], say) the score is no number but a
    string that begins with 10 and the text of the member. *)
Theorem scoreVideo_bounds :
  (forall url size source quality,
     plainTag source = true ->
     exists n, scoreVideo url size source quality = Score.number n /\ 10 <= n <= 183) /\
  (forall url size source quality,
     plainTag source = false ->
     exists text s,
       sourcePriority source = Priority.inherited text /\
       scoreVideo url size source quality = Score.text (lit "10" ++ text ++ s)) /\
  (forall source,
     plainTag source = false <->
     prop SOURCE_PRIORITY (propertyKey source) = None /\
     exists text, prop Object_prototype (propertyKey source) = Some text) /\
  scoreVideo (lit "v") undefined undefined undefined = Score.number 10 /\
  scoreVideo (lit "https://cdn.example/1080/720.mp4") (val 60000000)
    (val (lit "instagram")) (val (lit "1080p")) = Score.number 183 /\
  scoreVideo (lit "v") undefined (val (lit "constructor")) undefined =
    Score.text (lit "10function Object() { [native code] }").
Proof.
  split; [exact scoreVideo_plain|]. split; [exact scoreVideo_inherited|].
  split; [|repeat split; vm_compute; reflexivity].
  intros source. unfold plainTag, sourcePriority.
  destruct (prop SOURCE_PRIORITY (propertyKey source)) as [p|].
  - split; [discriminate | intros [H _]; discriminate].
  - destruct (prop Object_prototype (propertyKey source)) as [text|].
    + split; [intros _; split; [reflexivity | now exists text] | reflexivity].
    + split; [discriminate | intros [_ [text H]]; discriminate].
Qed.

(** [X2] Merging a candidate into a stored entry whose score is a number
    leaves it a number and never lowers it: the source priority can only
    rise, a quality is only ever filled in, and the size is kept. *)
Theorem merge_never_lowers_score (url : str) (existing : Info.t) (video : Video.t) (n : Z) :
  scoreVideo url (Info.size existing) (Info.source existing) (Info.quality existing) =
    Score.number n ->
  exists m,
    scoreVideo url (Info.size (mergeExisting existing video))
      (Info.source (mergeExisting existing video))
      (Info.quality (mergeExisting existing video)) = Score.number m /\
    n <= m.
Proof.
  intros Hn.
  assert (Hplain : plainTag (Info.source existing) = true).
  { destruct (plainTag (Info.source existing)) eqn:E; [reflexivity|].
    destruct (scoreVideo_inherited url (Info.size existing) _ (Info.quality existing) E)
      as (text & s & _ & Hs).
    rewrite Hs in Hn. discriminate. }
  destruct (priorityOrZero_plain _ Hplain) as (p & Hp & _).
  assert (Hp' : exists p', priorityOrZero (Info.source (mergeExisting existing video)) =
                           Priority.number p' /\ p <= p').
  { destruct (mergeExisting_rises existing video) as [->|Hgt].
    - exists p. split; [exact Hp | lia].
    - rewrite Hp in Hgt.
      destruct (priorityOrZero (Info.source (mergeExisting existing video))) as [q| |];
        cbn [Priority.gt] in Hgt; try discriminate.
      exists q. split; [reflexivity|]. apply Z.ltb_lt in Hgt. lia. }
  destruct Hp' as (p' & Hp' & Hle).
  rewrite (scoreVideo_parts _ _ _ _ p Hp) in Hn. injection Hn as <-.
  eexists. split; [apply (scoreVideo_parts _ _ _ _ p' Hp')|].
  assert (Hq : qualityBoost (Info.quality existing) <=
               qualityBoost (Info.quality (mergeExisting existing video))).
  { unfold mergeExisting. cbn [Info.quality].
    destruct (Js.truthyStr (Video.quality video)); cbn [andb]; [|lia].
    destruct (Js.truthyStr (Info.quality existing)) eqn:E; cbn [negb]; [lia|].
    rewrite (qualityBoost_falsy _ E).
    apply (qualityBoost_range (Video.quality video)). }
  assert (Hs : Info.size (mergeExisting existing video) = Info.size existing) by reflexivity.
  rewrite Hs. lia.
Qed.

Lemma merge_never_lowers_score_witness :
  exists m,
    scoreVideo (lit "https://cdn.example/v.mp4")
      (Info.size (mergeExisting (newEntry 1000 (tagged "https://cdn.example/v.mp4" "dom" ""))
                    (tagged "https://cdn.example/v.mp4" "instagram" "720p")))
      (Info.source (mergeExisting (newEntry 1000 (tagged "https://cdn.example/v.mp4" "dom" ""))
                      (tagged "https://cdn.example/v.mp4" "instagram" "720p")))
      (Info.quality (mergeExisting (newEntry 1000 (tagged "https://cdn.example/v.mp4" "dom" ""))
                       (tagged "https://cdn.example/v.mp4" "instagram" "720p"))) =
    Score.number m /\ 80 <= m.
Proof.
  apply (merge_never_lowers_score (lit "https://cdn.example/v.mp4")
           (newEntry 1000 (tagged "https://cdn.example/v.mp4" "dom" ""))
           (tagged "https://cdn.example/v.mp4" "instagram" "720p") 80).
  vm_compute. reflexivity.
Defined.

(** ** Letter case *)

Lemma lowerChar_idem (c : ascii) : Str.lowerChar (Str.lowerChar c) = Str.lowerChar c.
Proof. destruct c as [[] [] [] [] [] [] [] []]; reflexivity. Qed.

Lemma toLowerCase_idem (s : str) : Str.toLowerCase (Str.toLowerCase s) = Str.toLowerCase s.
Proof.
  unfold Str.toLowerCase. rewrite List.map_map. apply List.map_ext, lowerChar_idem.
Qed.

(** [X3] The classifier and the scorer read the URL only through its
    lower-case form: two URLs that differ in the case of their letters get
    the same verdict and the same score. *)
Theorem verdict_and_score_ignore_case (url url' : str) (contentType : js str)
    (size : js Z) (source quality : js str) :
  Str.toLowerCase url = Str.toLowerCase url' ->
  isPlayableVideo url contentType size source =
    isPlayableVideo url' contentType size source /\
  scoreVideo url size source quality = scoreVideo url' size source quality /\
  isPlayableVideo (Str.toLowerCase url) contentType size source =
    isPlayableVideo url contentType size source.
Proof.
  intros H. unfold isPlayableVideo, scoreVideo.
  rewrite toLowerCase_idem, H. repeat split; reflexivity.
Qed.

Lemma verdict_and_score_ignore_case_witness :
  isPlayableVideo (lit "https://cdn.example/Clip.MP4") undefined undefined undefined =
    isPlayableVideo (lit "https://cdn.example/clip.mp4") undefined undefined undefined /\
  scoreVideo (lit "https://cdn.example/Clip.MP4") undefined undefined undefined =
    scoreVideo (lit "https://cdn.example/clip.mp4") undefined undefined undefined /\
  isPlayableVideo (Str.toLowerCase (lit "https://cdn.example/Clip.MP4"))
    undefined undefined undefined =
    isPlayableVideo (lit "https://cdn.example/Clip.MP4") undefined undefined undefined.
Proof.
  exact (verdict_and_score_ignore_case (lit "https://cdn.example/Clip.MP4")
           (lit "https://cdn.example/clip.mp4") undefined undefined undefined undefined
           eq_refl).
Defined.

(** ** What a write keeps *)

Lemma keysOf_add_target now (reg : Registry) tabId video tab url :
  target tabId video = Some (tab, url) ->
  keysOf (addVideoToTab now reg tabId video) tab =
  match entryOf reg tab url with
  | Some _ => keysOf reg tab
  | None => keysOf reg tab ++ [url]
  end.
Proof.
  intros Ht. rewrite (addVideoToTab_target _ _ _ _ _ _ Ht).
  unfold keysOf. rewrite lookup_insert_eq. cbn [default].
  rewrite entryOf_default.
  destruct (JSMap.get (default [] (reg !! tab)) url) as [b|] eqn:E.
  - cbn [storedAfter]. now apply keys_set_present with (b := b).
  - rewrite set_absent by exact E. unfold JSMap.keys, id. now rewrite List.map_app.
Qed.

Lemma keysOf_add_other now (reg : Registry) tabId video tab url tab' :
  target tabId video = Some (tab, url) -> tab' <> tab ->
  keysOf (addVideoToTab now reg tabId video) tab' = keysOf reg tab'.
Proof.
  intros Ht Hne. rewrite (addVideoToTab_target _ _ _ _ _ _ Ht).
  unfold keysOf. now rewrite lookup_insert_ne by congruence.
Qed.

Lemma addVideoToTab_keeps_entries now (reg : Registry) tabId video tab url info :
  entryOf reg tab url = Some info ->
  exists info',
    entryOf (addVideoToTab now reg tabId video) tab url = Some info' /\
    Info.timestamp info' = Info.timestamp info.
Proof.
  intros H. destruct (target tabId video) as [[tab0 url0]|] eqn:Ht.
  2:{ rewrite addVideoToTab_ignored by exact Ht. now exists info. }
  destruct (decide ((tab, url) = (tab0, url0))) as [[= -> ->]|Hne].
  - rewrite (entryOf_add_same _ _ _ _ _ _ Ht), H. cbn [storedAfter].
    eexists. split; reflexivity.
  - rewrite (entryOf_add_other _ _ _ _ _ _ _ _ Ht Hne). now exists info.
Qed.

Lemma addVideoToTab_keys_cases now (reg : Registry) tabId video tab :
  keysOf (addVideoToTab now reg tabId video) tab = keysOf reg tab \/
  exists url,
    target tabId video = Some (tab, url) /\
    entryOf reg tab url = None /\
    keysOf (addVideoToTab now reg tabId video) tab = keysOf reg tab ++ [url].
Proof.
  destruct (target tabId video) as [[tab0 url0]|] eqn:Ht.
  2:{ rewrite addVideoToTab_ignored by exact Ht. now left. }
  destruct (decide (tab = tab0)) as [->|Hne].
  - rewrite (keysOf_add_target _ _ _ _ _ _ Ht).
    destruct (entryOf reg tab0 url0) eqn:E; [now left|].
    right. exists url0. auto.
  - left. now apply keysOf_add_other with (tab := tab0) (url := url0).
Qed.

(** [X4] A write never deletes or reorders: every entry of a tab is still
    there afterwards, with its timestamp, and the tab's URLs are the same
    list as before or that list with the clean URL of the candidate
    appended, which happens exactly when that URL was not stored. *)
Theorem addVideoToTab_appends (now : Z) (reg : Registry) (tabId : js Z)
    (video : Video.t) (tab : Z) :
  (forall url info,
     entryOf reg tab url = Some info ->
     exists info',
       entryOf (addVideoToTab now reg tabId video) tab url = Some info' /\
       Info.timestamp info' = Info.timestamp info) /\
  (keysOf (addVideoToTab now reg tabId video) tab = keysOf reg tab \/
   exists url,
     target tabId video = Some (tab, url) /\
     entryOf reg tab url = None /\
     keysOf (addVideoToTab now reg tabId video) tab = keysOf reg tab ++ [url]) /\
  (forall url,
     target tabId video = Some (tab, url) ->
     entryOf reg tab url = None ->
     keysOf (addVideoToTab now reg tabId video) tab = keysOf reg tab ++ [url]).
Proof.
  split; [|split].
  - intros url info. apply addVideoToTab_keeps_entries.
  - apply addVideoToTab_keys_cases.
  - intros url Ht Hnone. now rewrite (keysOf_add_target _ _ _ _ _ _ Ht), Hnone.
Qed.

(** ** What a query leaves behind *)

Lemma results_by_lookup now (reg reg' : Registry) tabId :
  (forall tab, tabId = val tab -> reg !! tab = reg' !! tab) ->
  fst (getVideosForTab now reg tabId) = fst (getVideosForTab now reg' tabId).
Proof.
  intros H. destruct tabId as [| |tab]; try reflexivity.
  unfold getVideosForTab. rewrite <- (H tab eq_refl).
  destruct (reg !! tab) as [tabVideos|]; [|reflexivity].
  now destruct (fold_left (visitEntry now) tabVideos (tabVideos, [])).
Qed.

Lemma expired_later now now' info :
  now <= now' -> expired now info = true -> expired now' info = true.
Proof. unfold expired. rewrite !Z.ltb_lt. lia. Qed.

Lemma filter_listed_kept now now' (tabVideos : TabVideos) :
  now <= now' ->
  List.filter (listed now') (List.filter (kept now) tabVideos) =
  List.filter (listed now') tabVideos.
Proof.
  intros Hle. induction tabVideos as [|e m IH]; [reflexivity|].
  cbn [List.filter]. destruct (kept now e) eqn:K.
  - cbn [List.filter]. now rewrite IH.
  - rewrite IH. unfold listed, kept in *.
    apply negb_false_iff in K. now rewrite (expired_later _ _ _ Hle K).
Qed.

Lemma filter_kept_kept now (tabVideos : TabVideos) :
  List.filter (kept now) (List.filter (kept now) tabVideos) = List.filter (kept now) tabVideos.
Proof.
  induction tabVideos as [|e m IH]; [reflexivity|].
  cbn [List.filter]. destruct (kept now e) eqn:K; [|exact IH].
  cbn [List.filter]. now rewrite K, IH.
Qed.

(** [X5] The deletions a query makes are not seen by later queries: at
    any later time, a query of any tab returns the same list whether or
    not the earlier query took place; and asking again at the same time
    changes nothing more. *)
Theorem query_leaves_later_queries_alone (now now' : Z) (reg : Registry)
    (tabId tabId' : js Z) :
  wellFormed reg ->
  now <= now' ->
  fst (getVideosForTab now' (snd (getVideosForTab now reg tabId)) tabId') =
    fst (getVideosForTab now' reg tabId') /\
  snd (getVideosForTab now (snd (getVideosForTab now reg tabId)) tabId) =
    snd (getVideosForTab now reg tabId).
Proof.
  intros Hwf Hle.
  destruct tabId as [| |tab]; try (split; reflexivity).
  destruct (reg !! tab) as [tabVideos|] eqn:E.
  2:{ unfold getVideosForTab at 2 4 5. rewrite E. cbn [snd]. split; [reflexivity|].
      unfold getVideosForTab. now rewrite E. }
  pose proof (Hwf _ _ E) as Hnd.
  rewrite (getVideosForTab_known now reg tab tabVideos E Hnd). cbn [snd].
  assert (E1 : (<[tab := List.filter (kept now) tabVideos]> reg) !! tab =
               Some (List.filter (kept now) tabVideos)) by apply lookup_insert_eq.
  pose proof (NoDup_keys_filter (kept now) _ Hnd) as Hnd1.
  split.
  - destruct tabId' as [| |tab']; try reflexivity.
    destruct (decide (tab' = tab)) as [->|Hne].
    + rewrite (getVideosForTab_known now' _ tab _ E1 Hnd1).
      rewrite (getVideosForTab_known now' reg tab tabVideos E Hnd). cbn [fst].
      now rewrite filter_listed_kept.
    + apply results_by_lookup. intros t [= <-].
      now rewrite lookup_insert_ne by congruence.
  - rewrite (getVideosForTab_known now _ tab _ E1 Hnd1). cbn [snd].
    now rewrite filter_kept_kept, insert_insert_eq.
Qed.

Lemma query_leaves_later_queries_alone_witness :
  fst (getVideosForTab 900000
         (snd (getVideosForTab 700000 (Scenario.fed ∅ 7 1000 2000) (val 7))) (val 7)) =
    fst (getVideosForTab 900000 (Scenario.fed ∅ 7 1000 2000) (val 7)) /\
  snd (getVideosForTab 700000
         (snd (getVideosForTab 700000 (Scenario.fed ∅ 7 1000 2000) (val 7))) (val 7)) =
    snd (getVideosForTab 700000 (Scenario.fed ∅ 7 1000 2000) (val 7)).
Proof.
  apply (query_leaves_later_queries_alone 700000 900000 (Scenario.fed ∅ 7 1000 2000)
           (val 7) (val 7)).
  - unfold Scenario.fed. repeat apply wellFormed_addVideoToTab. apply wellFormed_empty.
  - lia.
Defined.

Lemma NoDup_firstn_of {A : Type} (n : nat) (l : list A) : NoDup l -> NoDup (firstn n l).
Proof.
  intros H. rewrite <- (firstn_skipn n l) in H. now apply NoDup_app_remove_r in H.
Qed.

Lemma results_known now (reg : Registry) tab (tabVideos : TabVideos) :
  reg !! tab = Some tabVideos ->
  NoDup (JSMap.keys tabVideos) ->
  forall r, In r (fst (getVideosForTab now reg (val tab))) ->
    exists info, In (Result.url r, info) tabVideos /\
                 listed now (Result.url r, info) = true /\
                 r = resultOf (Result.url r) info.
Proof.
  intros E Hnd r Hr.
  rewrite (getVideosForTab_known now reg tab tabVideos E Hnd) in Hr. cbn [fst] in Hr.
  apply firstn_In_inv in Hr.
  apply (Permutation_in _ (sort_perm byScoreThenTime _)) in Hr.
  apply in_map_iff in Hr as ([url info] & <- & Hin).
  apply filter_In in Hin as [Hin Hl]. now exists info.
Qed.

(** [X6] A query never lists a URL twice. *)
Theorem getVideosForTab_distinct_urls (now : Z) (reg : Registry) (tabId : js Z) :
  wellFormed reg ->
  NoDup (List.map Result.url (fst (getVideosForTab now reg tabId))).
Proof.
  intros Hwf. destruct tabId as [| |tab]; try constructor.
  destruct (reg !! tab) as [tabVideos|] eqn:E.
  2:{ unfold getVideosForTab. rewrite E. constructor. }
  pose proof (Hwf _ _ E) as Hnd.
  rewrite (getVideosForTab_known now reg tab tabVideos E Hnd). cbn [fst].
  rewrite <- firstn_map. apply NoDup_firstn_of.
  apply (Permutation_NoDup
           (Permutation_map Result.url
              (Permutation_sym (sort_perm byScoreThenTime _)))).
  rewrite List.map_map. cbn [resultOf Result.url].
  now apply (NoDup_keys_filter (listed now)).
Qed.

Lemma getVideosForTab_distinct_urls_witness :
  NoDup (List.map Result.url
           (fst (getVideosForTab 3000 (Scenario.fed ∅ 7 1000 2000) (val 7)))).
Proof.
  apply (getVideosForTab_distinct_urls 3000 (Scenario.fed ∅ 7 1000 2000) (val 7)).
  unfold Scenario.fed. repeat apply wellFormed_addVideoToTab. apply wellFormed_empty.
Defined.

(** [X7] A merge does not refresh an entry.  When a candidate arrives for
    an entry that has outlived the TTL and no query has deleted it yet,
    it is merged into the old entry, and the next query deletes the entry
    and does not list the URL, however recent the candidate was. *)
Theorem stale_entry_swallows_candidate (now now' : Z) (reg : Registry) (tabId : js Z)
    (video : Video.t) (tab : Z) (url : str) (existing : Info.t) :
  wellFormed reg ->
  target tabId video = Some (tab, url) ->
  entryOf reg tab url = Some existing ->
  expired now existing = true ->
  entryOf (snd (getVideosForTab now (addVideoToTab now' reg tabId video) (val tab))) tab url
    = None /\
  forall r, In r (fst (getVideosForTab now (addVideoToTab now' reg tabId video) (val tab))) ->
    Result.url r <> url.
Proof.
  intros Hwf Ht He Hx.
  pose proof (wellFormed_addVideoToTab now' reg tabId video Hwf) as Hwf1.
  pose proof (entryOf_add_same now' reg tabId video tab url Ht) as Hs.
  rewrite He in Hs. cbn [storedAfter] in Hs.
  set (reg1 := addVideoToTab now' reg tabId video) in *.
  assert (Hm : expired now (mergeExisting existing video) = true) by exact Hx.
  unfold entryOf in Hs. destruct (reg1 !! tab) as [tabVideos|] eqn:E; [|discriminate].
  pose proof (Hwf1 _ _ E) as Hnd.
  split.
  - rewrite (getVideosForTab_known now reg1 tab tabVideos E Hnd). cbn [snd].
    unfold entryOf. rewrite lookup_insert_eq, get_filter by exact Hnd.
    rewrite Hs. unfold kept. cbn [snd]. now rewrite Hm.
  - intros r Hr Hu.
    destruct (results_known now reg1 tab tabVideos E Hnd r Hr) as (info & Hin & Hl & _).
    rewrite Hu in Hin, Hl. apply (In_get _ _ _ Hnd) in Hin.
    rewrite Hs in Hin. injection Hin as <-.
    unfold listed, kept in Hl. cbn [snd] in Hl. now rewrite Hm in Hl.
Qed.

Lemma stale_entry_swallows_candidate_witness :
  entryOf (snd (getVideosForTab 700000
                  (addVideoToTab 699999 (Scenario.fed ∅ 7 1000 2000) (val 7)
                     (tagged "v.mp4" "instagram" "720p")) (val 7))) 7 (lit "v.mp4")
    = None /\
  forall r, In r (fst (getVideosForTab 700000
                         (addVideoToTab 699999 (Scenario.fed ∅ 7 1000 2000) (val 7)
                            (tagged "v.mp4" "instagram" "720p")) (val 7))) ->
    Result.url r <> lit "v.mp4".
Proof.
  apply (stale_entry_swallows_candidate 700000 699999 (Scenario.fed ∅ 7 1000 2000) (val 7)
           (tagged "v.mp4" "instagram" "720p") 7 (lit "v.mp4") (Scenario.stored 1000)).
  - unfold Scenario.fed. repeat apply wellFormed_addVideoToTab. apply wellFormed_empty.
  - vm_compute. reflexivity.
  - vm_compute. reflexivity.
  - vm_compute. reflexivity.
Defined.

(** ** The playlist fetch *)

Lemma target_tab tabId video tab url : target tabId video = Some (tab, url) -> tabId = val tab.
Proof.
  unfold target. destruct tabId as [| |t]; try discriminate.
  destruct (Video.url video) as [| |u]; try discriminate.
  destruct (_ && _)%bool; [|discriminate]. now intros [= -> _].
Qed.

Lemma addVideoToTab_other_tab now (reg : Registry) tabId video tab' :
  tabId <> val tab' -> addVideoToTab now reg tabId video !! tab' = reg !! tab'.
Proof.
  intros Hne. destruct (target tabId video) as [[tab url]|] eqn:Ht.
  - rewrite (addVideoToTab_target _ _ _ _ _ _ Ht).
    apply target_tab in Ht. apply lookup_insert_ne. congruence.
  - now rewrite addVideoToTab_ignored.
Qed.

Section PlaylistVariants.
Variable now : Z.
Variable tabId : js Z.

Lemma addAll_keys (variants : list Variant.t) (reg : Registry) tab :
  (List.length (keysOf (addVariants now tabId variants reg) tab) <=
   List.length (keysOf reg tab) + List.length variants)%nat.
Proof.
  revert reg. induction variants as [|v vs IH]; intros reg; cbn [addVariants fold_left List.length].
  - lia.
  - etransitivity; [apply IH|].
    destruct (addVideoToTab_keys_cases now reg tabId (playlistCandidate v) tab)
      as [->|(u & _ & _ & ->)]; rewrite ?length_app; simpl; lia.
Qed.

Lemma addAll_keeps (variants : list Variant.t) (reg : Registry) tab url info :
  entryOf reg tab url = Some info ->
  exists info', entryOf (addVariants now tabId variants reg) tab url = Some info' /\
                Info.timestamp info' = Info.timestamp info.
Proof.
  revert reg info. induction variants as [|v vs IH]; intros reg info H; cbn [addVariants fold_left].
  - now exists info.
  - destruct (addVideoToTab_keeps_entries now reg tabId (playlistCandidate v) tab url info H)
      as (info1 & H1 & T1).
    destruct (IH _ _ H1) as (info2 & H2 & T2). exists info2. split; [exact H2 | congruence].
Qed.

Lemma addAll_other_tab (variants : list Variant.t) (reg : Registry) tab' :
  tabId <> val tab' -> addVariants now tabId variants reg !! tab' = reg !! tab'.
Proof.
  intros Hne. revert reg. induction variants as [|v vs IH]; intros reg; cbn [addVariants fold_left].
  - reflexivity.
  - etransitivity; [apply IH|]. now apply addVideoToTab_other_tab.
Qed.

Lemma fromPlaylist_merge (info : Info.t) (v : Variant.t) :
  fromPlaylist now info -> fromPlaylist now (mergeExisting info (playlistCandidate v)).
Proof.
  intros (Hs & Hp & Hz & Hc & Ht & Hn). unfold fromPlaylist, mergeExisting.
  cbn [Info.source Info.playlist Info.size Info.contentType Info.title Info.timestamp
       playlistCandidate Video.source Video.title Js.truthyStr andb].
  rewrite Hs, gt_irrefl. repeat split; assumption.
Qed.

Lemma addAll_fresh (variants : list Variant.t) (reg0 reg : Registry) tab url info :
  (forall info0, entryOf reg0 tab url = None -> entryOf reg tab url = Some info0 ->
     fromPlaylist now info0) ->
  entryOf reg0 tab url = None ->
  entryOf (addVariants now tabId variants reg) tab url = Some info ->
  fromPlaylist now info.
Proof.
  revert reg. induction variants as [|v vs IH]; intros reg Hinv H0 H; cbn [addVariants fold_left] in H.
  - now apply Hinv.
  - apply (IH (addVideoToTab now reg tabId (playlistCandidate v))); [|exact H0|exact H].
    intros info0 _ H1.
    destruct (target tabId (playlistCandidate v)) as [[tab1 url1]|] eqn:Ht.
    2:{ rewrite addVideoToTab_ignored in H1 by exact Ht. now apply Hinv. }
    destruct (decide ((tab, url) = (tab1, url1))) as [[= <- <-]|Hne].
    + rewrite (entryOf_add_same _ _ _ _ _ _ Ht) in H1. injection H1 as <-.
      destruct (entryOf reg tab url) as [e|] eqn:E; cbn [storedAfter].
      * apply fromPlaylist_merge. now apply Hinv.
      * repeat split.
    + rewrite (entryOf_add_other _ _ _ _ _ _ _ _ Ht Hne) in H1. now apply Hinv.
Qed.

End PlaylistVariants.

Lemma fetchAndParseM3U8_unfold now (reg : Registry) url tabId response :
  fetchAndParseM3U8 now reg url tabId response = reg \/
  exists variants,
    (List.length variants <= 3)%nat /\
    fetchAndParseM3U8 now reg url tabId response = addVariants now tabId variants reg.
Proof.
  unfold fetchAndParseM3U8. destruct response as [text|]; [|now left].
  destruct (masterVariants url text) as [variants|]; [|now left].
  right. exists (Arr.slice0 3 variants). split; [|reflexivity].
  unfold Arr.slice0. rewrite length_firstn. lia.
Qed.

(** [X8] The playlist fetch adds at most three entries to the tab, and
    only there: the entries that were stored stay, with their timestamps;
    an entry that is new afterwards is tagged [hls], marked as a playlist
    and carries no size, content type or title; the maps of the other
    tabs are not touched.  A fetch that fails changes nothing, and
    neither does a response that is not a master playlist. *)
Theorem fetchAndParseM3U8_at_most_three (now : Z) (reg : Registry) (url : str)
    (tabId : js Z) (response : option str) (tab : Z) :
  (List.length (keysOf (fetchAndParseM3U8 now reg url tabId response) tab) <=
   List.length (keysOf reg tab) + 3)%nat /\
  (forall u info,
     entryOf reg tab u = Some info ->
     exists info',
       entryOf (fetchAndParseM3U8 now reg url tabId response) tab u = Some info' /\
       Info.timestamp info' = Info.timestamp info) /\
  (forall u info,
     entryOf reg tab u = None ->
     entryOf (fetchAndParseM3U8 now reg url tabId response) tab u = Some info ->
     fromPlaylist now info) /\
  (tabId <> val tab -> fetchAndParseM3U8 now reg url tabId response !! tab = reg !! tab) /\
  fetchAndParseM3U8 now reg url tabId None = reg /\
  (forall text,
     Str.includes text (lit "#EXTM3U") = false \/
     Str.includes text (lit "#EXT-X-STREAM-INF:") = false ->
     fetchAndParseM3U8 now reg url tabId (Some text) = reg).
Proof.
  assert (Hplain : forall text,
     Str.includes text (lit "#EXTM3U") = false \/
     Str.includes text (lit "#EXT-X-STREAM-INF:") = false ->
     fetchAndParseM3U8 now reg url tabId (Some text) = reg).
  { intros text H. unfold fetchAndParseM3U8, masterVariants.
    destruct H as [-> | ->]; [reflexivity|].
    now destruct (Str.includes text (lit "#EXTM3U")). }
  destruct (fetchAndParseM3U8_unfold now reg url tabId response) as [->|(vs & Hlen & ->)].
  - repeat split; try congruence; try lia; try exact Hplain.
    intros u info H. now exists info.
  - split; [|split; [|split; [|split; [|split; [|exact Hplain]]]]].
    + pose proof (addAll_keys now tabId vs reg tab) as Hk. lia.
    + intros u info. apply addAll_keeps.
    + intros u info H0 H. apply (addAll_fresh now tabId vs reg reg tab u info); auto.
      intros info0 Hn Hs. congruence.
    + apply addAll_other_tab.
    + reflexivity.
Qed.

(** ** Quality labels *)

Lemma digitChar_digit (d : Z) :
  0 <= d < 10 ->
  Str.isDigit (Str.digitChar d) = true /\ Z.of_nat (Str.code (Str.digitChar d)) - 48 = d.
Proof.
  intros H.
  assert (Hd : d = 0 \/ d = 1 \/ d = 2 \/ d = 3 \/ d = 4 \/ d = 5 \/ d = 6 \/ d = 7 \/
               d = 8 \/ d = 9) by lia.
  repeat destruct Hd as [->|Hd]; try subst d; split; reflexivity.
Qed.

Lemma decimalValue_snoc (ds : str) (c : ascii) :
  decimalValue (ds ++ [c]) = decimalValue ds * 10 + (Z.of_nat (Str.code c) - 48).
Proof. unfold decimalValue. now rewrite fold_left_app. Qed.

Lemma allDigits_app (a b : str) : allDigits (a ++ b) = (allDigits a && allDigits b)%bool.
Proof. apply forallb_app. Qed.

(** The digits [decGo] writes in front of [acc] denote [n]. *)
Lemma decGo_digits (fuel : nat) :
  forall (n : Z) (acc : str),
    0 <= n < 2 ^ Z.of_nat fuel ->
    (0 < fuel)%nat ->
    exists (c : ascii) (ds : str),
      Str.decGo fuel n acc = (c :: ds) ++ acc /\
      allDigits (c :: ds) = true /\ decimalValue (c :: ds) = n.
Proof.
  induction fuel as [|fuel IH]; intros n acc Hn Hfuel; [lia|].
  - cbn [Str.decGo].
    assert (Hm : 0 <= n mod 10 < 10) by (apply Z.mod_pos_bound; lia).
    destruct (digitChar_digit _ Hm) as [Hd Hv].
    destruct (Z.ltb_spec n 10) as [Hlt|Hge].
    + exists (Str.digitChar (n mod 10)), []. repeat split.
      * cbn [allDigits forallb]. now rewrite Hd.
      * unfold decimalValue. cbn [fold_left]. rewrite Hv, Z.mod_small; lia.
    + assert (Hq : 0 <= n / 10 < 2 ^ Z.of_nat fuel).
      { split; [apply Z.div_pos; lia|].
        rewrite Nat2Z.inj_succ, Z.pow_succ_r in Hn by lia.
        apply Z.div_lt_upper_bound; lia. }
      assert (Hpos : (0 < fuel)%nat).
      { destruct fuel; [|lia]. change (2 ^ Z.of_nat 0) with 1 in Hq.
        assert (1 <= n / 10) by (apply Z.div_le_lower_bound; lia). lia. }
      destruct (IH (n / 10) (Str.digitChar (n mod 10) :: acc) Hq Hpos)
        as (c & ds & -> & Ha & Hval).
      exists c, (ds ++ [Str.digitChar (n mod 10)]). repeat split.
      * cbn [app]. now rewrite <- app_assoc.
      * change (c :: ds ++ [Str.digitChar (n mod 10)])
          with ((c :: ds) ++ [Str.digitChar (n mod 10)]).
        rewrite allDigits_app, Ha. cbn [allDigits forallb]. now rewrite Hd.
      * change (c :: ds ++ [Str.digitChar (n mod 10)])
          with ((c :: ds) ++ [Str.digitChar (n mod 10)]).
        rewrite decimalValue_snoc, Hval, Hv. pose proof (Z.div_mod n 10). lia.
Qed.

Lemma ofNumber_digits (n : Z) :
  0 <= n ->
  exists (c : ascii) (ds : str),
    Str.ofNumber n = c :: ds /\ allDigits (c :: ds) = true /\ decimalValue (c :: ds) = n.
Proof.
  intros Hn. unfold Str.ofNumber.
  destruct (Z.ltb_spec n 0) as [|_]; [lia|].
  destruct (decGo_digits (S (Z.to_nat (Z.log2 n))) n []) as (c & ds & E & H).
  - split; [exact Hn|].
    rewrite Nat2Z.inj_succ, Z2Nat.id by apply Z.log2_nonneg.
    destruct (Z.eq_dec n 0) as [->|Hne]; [reflexivity|].
    apply Z.log2_spec. lia.
  - lia.
  - exists c, ds. rewrite E, app_nil_r. split; [reflexivity | exact H].
Qed.

Lemma digitsGo_digits_then (s rest : str) (r : ascii) (a : Z) :
  allDigits s = true ->
  Str.digitVal 10 r = None ->
  Str.digitsGo 10 (s ++ r :: rest) (Some a) =
  Some (fold_left (fun a c => a * 10 + (Z.of_nat (Str.code c) - 48)) s a).
Proof.
  intros Hs Hr. revert a. induction s as [|c s IH]; intros a.
  - cbn [app Str.digitsGo fold_left]. now rewrite Hr.
  - cbn [allDigits forallb] in Hs. apply andb_true_iff in Hs as [Hc Hs].
    destruct (digit_facts c Hc) as (_ & _ & _ & _ & _ & Hv).
    cbn [app Str.digitsGo fold_left]. rewrite Hv. now apply IH.
Qed.

(** [parseInt] reads the digits in front of a unit such as [p]. *)
Lemma parseInt_digits_then (c r : ascii) (s rest : str) :
  allDigits (c :: s) = true ->
  Str.digitVal 10 r = None ->
  Ascii.eqb r "x" = false -> Ascii.eqb r "X" = false ->
  Str.parseInt ((c :: s) ++ r :: rest) = Some (decimalValue (c :: s)).
Proof.
  intros Hs Hr Hx HX. cbn [allDigits forallb] in Hs. apply andb_true_iff in Hs as [Hc Hs].
  destruct (digit_facts c Hc) as (Hsp & Hm & Hp & _ & _ & Hv).
  unfold Str.parseInt. cbn [app Str.trimStart]. rewrite Hsp, Hm, Hp.
  assert (Hradix : (match c :: s ++ r :: rest with
                    | c0 :: cx :: t =>
                        if (Ascii.eqb c0 "0" && (Ascii.eqb cx "x" || Ascii.eqb cx "X"))%bool
                        then (16, t) else (10, c :: s ++ r :: rest)
                    | _ => (10, c :: s ++ r :: rest)
                    end) = (10, c :: s ++ r :: rest)).
  { destruct s as [|cx t]; cbn [app].
    - now rewrite Hx, HX, andb_false_r.
    - cbn [forallb] in Hs. apply andb_true_iff in Hs as [Hcx _].
      destruct (digit_facts cx Hcx) as (_ & _ & _ & Hx' & HX' & _).
      now rewrite Hx', HX', andb_false_r. }
  rewrite Hradix. cbn [Str.digitsGo]. rewrite Hv.
  rewrite digitsGo_digits_then by assumption.
  unfold decimalValue. cbn [fold_left]. reflexivity.
Qed.

Lemma decimalValue_nonneg (s : str) : allDigits s = true -> 0 <= decimalValue s.
Proof.
  unfold decimalValue. assert (H : forall a, 0 <= a -> allDigits s = true ->
    0 <= fold_left (fun a c => a * 10 + (Z.of_nat (Str.code c) - 48)) s a).
  { induction s as [|c s IH]; intros a Ha Hs; [exact Ha|].
    cbn [allDigits forallb] in Hs. apply andb_true_iff in Hs as [Hc Hs].
    cbn [fold_left]. apply IH; [|exact Hs].
    assert (48 <= Z.of_nat (Str.code c)).
    { unfold Str.isDigit, Str.between in Hc. apply andb_true_iff in Hc as [Hlo _].
      apply Nat.leb_le in Hlo. change (Str.code "0") with 48%nat in Hlo. lia. }
    lia. }
  now apply H.
Qed.

(** The label of a number, read back. *)
Lemma qualityRank_label (n : Z) :
  0 <= n -> qualityRank (val (Str.ofNumber n ++ lit "p")) = n.
Proof.
  intros Hn. destruct (ofNumber_digits n Hn) as (c & ds & -> & Hd & Hv).
  unfold qualityRank. cbn [propertyKey].
  change (lit "p") with ["p"%char].
  rewrite parseInt_digits_then by (assumption || reflexivity). exact Hv.
Qed.

Lemma quality_label_rank (cw ch : ascii) (w h : str) :
  allDigits (cw :: w) = true ->
  allDigits (ch :: h) = true ->
  qualityRank (val (minOfParsed (cw :: w) (ch :: h) ++ lit "p")) =
  Z.min (decimalValue (cw :: w)) (decimalValue (ch :: h)).
Proof.
  intros Hw Hh. unfold minOfParsed. rewrite !parseInt_digits by assumption.
  apply qualityRank_label.
  pose proof (decimalValue_nonneg _ Hw). pose proof (decimalValue_nonneg _ Hh). lia.
Qed.

(** [X9] The quality label of a variant is read back as the number it was
    made from.  For a stream declared as [RESOLUTION=WxH], with numbers
    in the range where JavaScript's are exact (below 2^53), the label
    [fetchAndParseM3U8] builds from the lesser of the two numbers and
    [p] is parsed by the sort of the variants as exactly that number, and
    the scorer's quality boost is decided by it: 15 from 1080 on, 10 from
    720, 5 from 480, added to a score that is a number. *)
Theorem quality_label_round_trip (cw ch : ascii) (w h : str) :
  allDigits (cw :: w) = true ->
  allDigits (ch :: h) = true ->
  Z.max (decimalValue (cw :: w)) (decimalValue (ch :: h)) < 2 ^ 53 ->
  let least := Z.min (decimalValue (cw :: w)) (decimalValue (ch :: h)) in
  let label := val (minOfParsed (cw :: w) (ch :: h) ++ lit "p") in
  qualityRank label = least /\
  qualityBoost label =
    (if 1080 <=? least then 15 else if 720 <=? least then 10
     else if 480 <=? least then 5 else 0) /\
  forall url size source n,
    scoreVideo url size source null = Score.number n ->
    scoreVideo url size source label = Score.number (n + qualityBoost label).
Proof.
  intros Hw Hh _ least label.
  assert (Hl : 0 <= least).
  { pose proof (decimalValue_nonneg _ Hw). pose proof (decimalValue_nonneg _ Hh).
    unfold least. lia. }
  assert (Hlabel : label = val (Str.ofNumber least ++ lit "p")).
  { unfold label, minOfParsed. now rewrite !parseInt_digits by assumption. }
  assert (Hrank : qualityRank label = least) by (rewrite Hlabel; now apply qualityRank_label).
  split; [exact Hrank|]. split.
  - unfold qualityBoost. unfold qualityRank in Hrank. rewrite Hlabel in *.
    cbn [propertyKey] in Hrank.
    destruct (Str.parseInt (Str.ofNumber least ++ lit "p")) as [q|] eqn:E.
    + now subst q.
    + destruct (ofNumber_digits least Hl) as (c & ds & Ho & Hd & Hv).
      rewrite Ho in E. change (lit "p") with ["p"%char] in E.
      rewrite parseInt_digits_then in E by (assumption || reflexivity). discriminate.
  - intros url size source n Hn.
    assert (Hplain : plainTag source = true).
    { destruct (plainTag source) eqn:E; [reflexivity|].
      destruct (scoreVideo_inherited url size source null E) as (text & s & _ & Hs).
      rewrite Hs in Hn. discriminate. }
    destruct (priorityOrZero_plain _ Hplain) as (p & Hp & _).
    rewrite (scoreVideo_parts _ _ _ _ p Hp) in Hn. injection Hn as <-.
    rewrite (scoreVideo_parts _ _ _ _ p Hp).
    change (qualityBoost null) with 0. f_equal. lia.
Qed.

Lemma quality_label_round_trip_witness :
  qualityRank (val (minOfParsed (lit "1280") (lit "720") ++ lit "p")) =
    Z.min (decimalValue (lit "1280")) (decimalValue (lit "720")).
Proof.
  exact (proj1 (quality_label_round_trip "1" "7" (lit "280") (lit "20") eq_refl eq_refl
                  eq_refl)).
Defined.

(** ** Patterns with the [i] flag on lower-case subjects *)

Lemma upper_of_lower (c : ascii) : Str.upperChar (Str.lowerChar c) = Str.upperChar c.
Proof. destruct c as [[] [] [] [] [] [] [] []]; reflexivity. Qed.

Lemma lower_or_upper (c : ascii) : c = Str.lowerChar c \/ c = Str.upperChar c.
Proof. destruct c as [[] [] [] [] [] [] [] []]; (now left) || (now right). Qed.

Lemma chrMatches_lower (p c : ascii) :
  Re.chrMatches true p (Str.lowerChar c) = Re.chrMatches true p c.
Proof. unfold Re.chrMatches. now rewrite upper_of_lower. Qed.

Lemma clsMatches_lower (negated : bool) (ranges : list (ascii * ascii)) (c : ascii) :
  Re.clsMatches true negated ranges (Str.lowerChar c) = Re.clsMatches true negated ranges c.
Proof.
  unfold Re.clsMatches. rewrite upper_of_lower, lowerChar_idem. f_equal. cbn [andb].
  assert (H : Re.inRanges ranges c = Re.inRanges ranges (Str.lowerChar c) \/
              Re.inRanges ranges c = Re.inRanges ranges (Str.upperChar c))
    by (destruct (lower_or_upper c) as [E|E]; [left | right]; now rewrite <- E).
  destruct H as [-> | ->];
    destruct (Re.inRanges ranges (Str.lowerChar c)),
             (Re.inRanges ranges (Str.upperChar c)); reflexivity.
Qed.

Lemma isLineTerminator_lower (c : ascii) :
  Re.isLineTerminator (Str.lowerChar c) = Re.isLineTerminator c.
Proof. destruct c as [[] [] [] [] [] [] [] []]; reflexivity. Qed.

Lemma toLowerCase_length (s : str) : List.length (Str.toLowerCase s) = List.length s.
Proof. apply length_map. Qed.

Lemma matched_orelse {A : Type} (o1 o2 : option A) :
  matched (match o1 with Some a => Some a | None => o2 end) = (matched o1 || matched o2)%bool.
Proof. now destruct o1. Qed.

Section LowerCaseSubject.
Variable total : nat.

(** Two continuations that succeed on the same rests. *)
Let agree {A B : Type} (K' : str -> Re.captures -> option B)
    (K : str -> Re.captures -> option A) : Prop :=
  forall s1 cs1 cs1', matched (K' (Str.toLowerCase s1) cs1') = matched (K s1 cs1).

Lemma rounds_lower {A B : Type}
    (step : str -> Re.captures -> (str -> Re.captures -> option A) -> option A)
    (step' : str -> Re.captures -> (str -> Re.captures -> option B) -> option B)
    (K : str -> Re.captures -> option A) (K' : str -> Re.captures -> option B) :
  (forall s cs cs' k k', agree k' k ->
     matched (step' (Str.toLowerCase s) cs' k') = matched (step s cs k)) ->
  agree K' K ->
  forall fuel s cs cs',
    matched (Re.rounds step' K' fuel (Str.toLowerCase s) cs') =
    matched (Re.rounds step K fuel s cs).
Proof.
  intros Hstep HK. induction fuel as [|fuel IH]; intros s cs cs'; cbn [Re.rounds].
  - apply HK.
  - rewrite !matched_orelse. f_equal; [|apply HK].
    apply Hstep. intros s1 cs1 cs1'. rewrite !toLowerCase_length.
    destruct (Nat.ltb (List.length s1) (List.length s)); [apply IH | reflexivity].
Qed.

Lemma run_lower (r : re) :
  forall {A B : Type} (s : str) (cs cs' : Re.captures)
         (K : str -> Re.captures -> option A) (K' : str -> Re.captures -> option B),
    agree K' K ->
    matched (Re.run true total r (Str.toLowerCase s) cs' K') =
    matched (Re.run true total r s cs K).
Proof.
  induction r as [|p|negated ranges| |r1 IH1 r2 IH2|r1 IH1 r2 IH2|r1 IH1|i r1 IH1| |];
    intros A B s cs cs' K K' HK; cbn [Re.run].
  - apply HK.
  - destruct s as [|c s]; [reflexivity|]. cbn [Str.toLowerCase List.map].
    rewrite chrMatches_lower. destruct (Re.chrMatches true p c); [apply HK | reflexivity].
  - destruct s as [|c s]; [reflexivity|]. cbn [Str.toLowerCase List.map].
    rewrite clsMatches_lower.
    destruct (Re.clsMatches true negated ranges c); [apply HK | reflexivity].
  - destruct s as [|c s]; [reflexivity|]. cbn [Str.toLowerCase List.map].
    rewrite isLineTerminator_lower.
    destruct (Re.isLineTerminator c); [reflexivity | apply HK].
  - apply IH1. intros s1 cs1 cs1'. now apply IH2.
  - rewrite !matched_orelse. f_equal; [now apply IH1 | now apply IH2].
  - rewrite toLowerCase_length. apply rounds_lower; [|exact HK].
    intros s0 cs0 cs0' k k' Hk. now apply IH1.
  - apply IH1. intros s1 cs1 cs1'. apply HK.
  - rewrite toLowerCase_length.
    destruct (Nat.eqb (List.length s) total); [apply HK | reflexivity].
  - destruct s as [|c s]; [apply (HK [])|reflexivity].
Qed.

Lemma search_lower (r : re) (s : str) :
  matched (Re.search true total r (Str.toLowerCase s)) = matched (Re.search true total r s).
Proof.
  induction s as [|c s IH].
  - reflexivity.
  - change (Str.toLowerCase (c :: s)) with (Str.lowerChar c :: Str.toLowerCase s).
    cbn [Re.search]. rewrite !matched_orelse. f_equal; [|exact IH].
    unfold Re.matchAt. apply (run_lower r (c :: s)). intros s1 cs1 cs1'. reflexivity.
Qed.

End LowerCaseSubject.

(** A pattern with the [i] flag gives the same verdict on a subject and
    on its lower-case form. *)
Lemma test_lower (r : Re.t) (s : str) :
  Re.ignoreCase r = true -> Re.test r (Str.toLowerCase s) = Re.test r s.
Proof.
  intros Hi. unfold Re.test. rewrite Hi, toLowerCase_length.
  pose proof (search_lower (List.length s) (Re.pattern r) s) as H.
  unfold matched in H.
  destruct (Re.search true (List.length s) (Re.pattern r) (Str.toLowerCase s)),
           (Re.search true (List.length s) (Re.pattern r) s); congruence.
Qed.

(** ** The network listener *)

Lemma target_of_plain tab url video :
  Video.url video = val url -> tab <> 0 -> url <> [] ->
  Str.startsWith url (lit "blob:") = false -> Str.startsWith url (lit "data:") = false ->
  target (val tab) video = Some (tab, cleanByteRangeUrl url).
Proof.
  intros Hu Ht Hn Hb Hd. unfold target. rewrite Hu, Hb, Hd.
  cbn [Js.truthyNum Js.truthyStr]. destruct (Z.eqb_spec tab 0); [contradiction|].
  now destruct url.
Qed.

(** What the listener does with a response that passes its guards. *)
Lemma onCompleted_passed now (reg : Registry) details tab url :
  Details.tabId details = val tab -> 0 < tab ->
  Details.url details = val url -> url <> [] ->
  Str.startsWith url (lit "data:") = false -> Str.startsWith url (lit "blob:") = false ->
  onCompleted now reg details =
  if (isHLS (responseContentType details) || Str.includes url (lit ".m3u8"))%bool then
    (addVideoToTab now reg (val tab)
       (Video.mk (val url) undefined (val (responseContentType details)) (val (lit "hls"))
          undefined undefined (val true)),
     Some (url, val tab))
  else if (negb (Re.test VIDEO_EXTENSIONS url || Re.test SEGMENT_EXTENSIONS url) &&
           negb (Re.test VIDEO_CONTENT_TYPES (responseContentType details)))%bool
  then (reg, None)
  else
    (addVideoToTab now reg (val tab)
       (Video.mk (val url) (responseSize details) (val (responseContentType details))
          (val (lit "webRequest")) undefined undefined undefined),
     None).
Proof.
  intros Ht Hpos Hu Hn Hd Hb. unfold onCompleted, responseContentType, responseSize.
  rewrite Ht, Hu, Hd, Hb. cbn [Js.truthyNum Js.truthyStr].
  destruct (Z.eqb_spec tab 0); [lia|]. destruct (Z.ltb_spec tab 0); [lia|].
  destruct url as [|c url]; [contradiction|]. reflexivity.
Qed.

(** [X10] The listener's own filter loses nothing the classifier would
    take.  When the classifier accepts the URL of a response with the
    content type of the response under the tag [webRequest], whatever the
    size, and the URL is not a YouTube one, the listener stores the
    response (as a playlist or as a plain candidate). *)
Theorem listener_keeps_what_classifier_accepts (now : Z) (reg : Registry)
    (details : Details.t) (tab : Z) (url : str) (size : js Z) :
  Details.tabId details = val tab -> 0 < tab ->
  Details.url details = val url -> url <> [] ->
  Str.startsWith url (lit "data:") = false -> Str.startsWith url (lit "blob:") = false ->
  isYouTubeUrl url = false ->
  isPlayableVideo url (val (responseContentType details)) size (val (lit "webRequest"))
    = true ->
  exists info,
    entryOf (fst (onCompleted now reg details)) tab (cleanByteRangeUrl url) = Some info.
Proof.
  intros Ht Hpos Hu Hn Hd Hb Hy Hp.
  rewrite (onCompleted_passed now reg details tab url) by assumption.
  assert (Hstore : forall video, Video.url video = val url ->
            exists info, entryOf (addVideoToTab now reg (val tab) video) tab
                           (cleanByteRangeUrl url) = Some info).
  { intros video Hv. eexists.
    apply entryOf_add_same, target_of_plain; try assumption. lia. }
  destruct (isHLS (responseContentType details) || Str.includes url (lit ".m3u8"))%bool;
    [now apply Hstore|].
  rewrite isPlayableVideo_rules in Hp. cbv zeta in Hp. rewrite Hy in Hp.
  change (trustedSource (val (lit "webRequest"))) with false in Hp. cbv iota in Hp.
  rewrite (test_lower VIDEO_EXTENSIONS), (test_lower SEGMENT_EXTENSIONS) in Hp
    by reflexivity.
  destruct (Re.test WEBM_EXTENSION (Str.toLowerCase url)); [discriminate|].
  destruct (Re.test M4S_EXTENSION (Str.toLowerCase url)); [discriminate|].
  unfold hasVideoContentType in Hp.
  destruct (Re.test VIDEO_EXTENSIONS url), (Re.test SEGMENT_EXTENSIONS url),
    (Re.test VIDEO_CONTENT_TYPES (responseContentType details));
    cbn [andb orb negb]; try (now apply Hstore).
  rewrite andb_false_r in Hp. cbn [andb orb negb] in Hp. discriminate.
Qed.

Lemma listener_keeps_what_classifier_accepts_witness :
  exists info,
    entryOf (fst (onCompleted 1000 ∅
                    (Details.mk (val 7) (val (lit "https://cdn.example/v.mp4")) None)))
      7 (cleanByteRangeUrl (lit "https://cdn.example/v.mp4")) = Some info.
Proof.
  apply (listener_keeps_what_classifier_accepts 1000 ∅
           (Details.mk (val 7) (val (lit "https://cdn.example/v.mp4")) None)
           7 (lit "https://cdn.example/v.mp4") undefined);
    try reflexivity; try lia; try discriminate.
Defined.

Lemma trusted_by_priority (source : js str) :
  Priority.atLeast (priorityOrZero source) 75 = true -> trustedSource source = true.
Proof.
  unfold trustedSource, priorityOrZero, Priority.orZero.
  destruct (sourcePriority source) as [p|text|] eqn:E; cbn [Priority.truthy Priority.atLeast];
    try discriminate.
  intros Hp. rewrite (sourcePriority_truthy source) by (rewrite E; discriminate).
  destruct (negb (p =? 0)) eqn:Ez; [exact Hp|].
  cbn [Priority.atLeast] in Hp. discriminate.
Qed.

Lemma trusted_is_playable url contentType size source :
  trustedSource source = true -> isPlayableVideo url contentType size source = true.
Proof. intros H. rewrite isPlayableVideo_rules. cbv zeta. now rewrite H. Qed.

Lemma addVideoToTab_keeps_priority now (reg : Registry) tabId video tab url info (n : Z) :
  entryOf reg tab url = Some info ->
  Priority.atLeast (priorityOrZero (Info.source info)) n = true ->
  exists info',
    entryOf (addVideoToTab now reg tabId video) tab url = Some info' /\
    Priority.atLeast (priorityOrZero (Info.source info')) n = true.
Proof.
  intros H Hn. destruct (target tabId video) as [[tab0 url0]|] eqn:Ht.
  2:{ rewrite addVideoToTab_ignored by exact Ht. now exists info. }
  destruct (decide ((tab, url) = (tab0, url0))) as [[= -> ->]|Hne].
  - rewrite (entryOf_add_same _ _ _ _ _ _ Ht), H. eexists. split; [reflexivity|].
    cbn [storedAfter]. now apply mergeExisting_atLeast.
  - rewrite (entryOf_add_other _ _ _ _ _ _ _ _ Ht Hne). now exists info.
Qed.

Lemma addVariants_keeps_priority now tabId (variants : list Variant.t) (reg : Registry)
    tab url info (n : Z) :
  entryOf reg tab url = Some info ->
  Priority.atLeast (priorityOrZero (Info.source info)) n = true ->
  exists info',
    entryOf (addVariants now tabId variants reg) tab url = Some info' /\
    Priority.atLeast (priorityOrZero (Info.source info')) n = true.
Proof.
  revert reg info. induction variants as [|v vs IH]; intros reg info H Hn;
    cbn [addVariants fold_left].
  - now exists info.
  - destruct (addVideoToTab_keeps_priority now reg tabId (playlistCandidate v) tab url info n
                H Hn) as (info1 & H1 & P1).
    exact (IH _ _ H1 P1).
Qed.

(** [X11] A response recognised as HLS, by its content type or by [.m3u8]
    in its URL, is stored and playable: the listener asks for the
    playlist to be fetched, and the entry under the clean URL has a
    source of priority 85 or more, so the classifier accepts it whatever
    the URL looks like, and whatever was stored for it before under a tag
    that is no name inherited from [Object.prototype] (an entry stored
    under such a name keeps its tag, and need not be playable).  This
    still holds when the fetch has resolved, whatever it returned. *)
Theorem hls_response_is_stored_playable (now later : Z) (reg : Registry)
    (details : Details.t) (tab : Z) (url : str) (response : option str) :
  Details.tabId details = val tab -> 0 < tab ->
  Details.url details = val url -> url <> [] ->
  Str.startsWith url (lit "data:") = false -> Str.startsWith url (lit "blob:") = false ->
  (isHLS (responseContentType details) || Str.includes url (lit ".m3u8"))%bool = true ->
  (forall stored, entryOf reg tab (cleanByteRangeUrl url) = Some stored ->
     plainTag (Info.source stored) = true) ->
  snd (onCompleted now reg details) = Some (url, val tab) /\
  (exists info,
     entryOf (fst (onCompleted now reg details)) tab (cleanByteRangeUrl url) = Some info /\
     Priority.atLeast (priorityOrZero (Info.source info)) 85 = true /\
     isPlayableVideo (cleanByteRangeUrl url) (Info.contentType info) (Info.size info)
       (Info.source info) = true) /\
  (exists info,
     entryOf (onCompletedSettled now later reg details response) tab (cleanByteRangeUrl url)
       = Some info /\
     Priority.atLeast (priorityOrZero (Info.source info)) 85 = true /\
     isPlayableVideo (cleanByteRangeUrl url) (Info.contentType info) (Info.size info)
       (Info.source info) = true).
Proof.
  intros Ht Hpos Hu Hn Hd Hb Hhls Hplain. unfold onCompletedSettled.
  rewrite (onCompleted_passed now reg details tab url) by assumption.
  rewrite Hhls. cbn [fst snd].
  set (video := Video.mk (val url) undefined (val (responseContentType details))
                  (val (lit "hls")) undefined undefined (val true)).
  assert (Htarget : target (val tab) video = Some (tab, cleanByteRangeUrl url))
    by (apply target_of_plain; try assumption; [reflexivity | lia]).
  pose proof (entryOf_add_same now reg (val tab) video tab _ Htarget) as Hs.
  assert (Hprio : Priority.atLeast
                    (priorityOrZero
                       (Info.source (storedAfter now (entryOf reg tab (cleanByteRangeUrl url))
                                       video))) 85 = true).
  { apply storedAfter_atLeast; [reflexivity | exact Hplain]. }
  assert (Hweak : forall info,
            Priority.atLeast (priorityOrZero (Info.source info)) 85 = true ->
            Priority.atLeast (priorityOrZero (Info.source info)) 75 = true).
  { intros info. destruct (priorityOrZero (Info.source info)); cbn [Priority.atLeast];
      try discriminate. rewrite !Z.leb_le. lia. }
  split; [reflexivity|]. split.
  - eexists. split; [exact Hs|]. split; [exact Hprio|].
    apply trusted_is_playable, trusted_by_priority, Hweak, Hprio.
  - destruct (fetchAndParseM3U8_unfold later (addVideoToTab now reg (val tab) video) url
                (val tab) response) as [->|(vs & _ & ->)].
    + eexists. split; [exact Hs|]. split; [exact Hprio|].
      apply trusted_is_playable, trusted_by_priority, Hweak, Hprio.
    + destruct (addVariants_keeps_priority later (val tab) vs _ tab _ _ 85 Hs Hprio)
        as (info' & H' & P').
      exists info'. split; [exact H'|]. split; [exact P'|].
      apply trusted_is_playable, trusted_by_priority, Hweak, P'.
Qed.

Lemma hls_response_is_stored_playable_witness :
  snd (onCompleted 1000 ∅
         (Details.mk (val 7) (val (lit "https://cdn.example/live/stream"))
            (Some [Header.mk (lit "Content-Type")
                     (val (lit "application/vnd.apple.mpegurl"))]))) =
  Some (lit "https://cdn.example/live/stream", val 7).
Proof.
  refine (proj1 (hls_response_is_stored_playable 1000 2000 ∅
            (Details.mk (val 7) (val (lit "https://cdn.example/live/stream"))
               (Some [Header.mk (lit "Content-Type")
                        (val (lit "application/vnd.apple.mpegurl"))]))
            7 (lit "https://cdn.example/live/stream") None _ _ _ _ _ _ _ _));
    try reflexivity; try lia; try discriminate.
Defined.

(** ** The message handler and the tab listener *)

Lemma onMessage_get now (reg : Registry) tabId senderTab :
  onMessage now reg (getVideosMessage tabId) senderTab =
  Handled.mk (snd (getVideosForTab now reg tabId)) (Some (fst (getVideosForTab now reg tabId)))
    true.
Proof.
  unfold onMessage, getVideosMessage.
  change (typeIs _ "GET_VIDEOS") with true. cbv iota. cbn [Message.tabId].
  now destruct (getVideosForTab now reg tabId).
Qed.

Lemma onMessage_add now (reg : Registry) (m : Message.t) senderTab :
  Message.type m = val (lit "ADD_VIDEO") ->
  onMessage now reg (val m) senderTab =
  Handled.mk (addVideoToTab now reg (addressedTab m senderTab) (announced m)) None true.
Proof.
  intros Hty. unfold onMessage, typeIs. rewrite Hty. reflexivity.
Qed.

Lemma getVideosForTab_emptied now (reg : Registry) tab :
  reg !! tab = Some [] \/ reg !! tab = None ->
  fst (getVideosForTab now reg (val tab)) = [].
Proof. unfold getVideosForTab. now intros [-> | ->]. Qed.

(** [X12] Cleanup empties the listing of a tab and nothing else.  After
    [CLEAR_VIDEOS] from a tab, and after the tab is removed, a
    [GET_VIDEOS] for that tab is answered with the empty list, at any
    time; the maps of the other tabs are as they were.  A
    [CLEAR_VIDEOS] that comes with no sender tab changes nothing, and
    with or without one it is not answered. *)
Theorem cleanup_empties_listing (now now' : Z) (reg : Registry) (tab : Z)
    (senderTab : js Z) :
  (tab <> 0 ->
   Handled.response
     (onMessage now' (Handled.registry (onMessage now reg clearVideosMessage (val tab)))
        (getVideosMessage (val tab)) senderTab) = Some []) /\
  Handled.response (onMessage now' (onRemoved reg tab) (getVideosMessage (val tab)) senderTab)
    = Some [] /\
  (forall tab', tab' <> tab ->
     Handled.registry (onMessage now reg clearVideosMessage (val tab)) !! tab' = reg !! tab' /\
     onRemoved reg tab !! tab' = reg !! tab') /\
  Handled.registry (onMessage now reg clearVideosMessage undefined) = reg /\
  Handled.response (onMessage now reg clearVideosMessage (val tab)) = None /\
  Handled.response (onMessage now reg clearVideosMessage undefined) = None.
Proof.
  assert (Hclear : forall t, Handled.registry (onMessage now reg clearVideosMessage (val t)) =
            if (negb (t =? 0) && match reg !! t with Some _ => true | None => false end)%bool
            then <[t := []]> reg else reg) by reflexivity.
  split; [|split; [|split; [|split; [|split]]]].
  - intros Hne. rewrite onMessage_get. cbn [Handled.response]. f_equal.
    apply getVideosForTab_emptied. rewrite Hclear.
    destruct (Z.eqb_spec tab 0); [contradiction|]. cbn [negb andb].
    destruct (reg !! tab) eqn:E; [left; apply lookup_insert_eq | now right].
  - rewrite onMessage_get. cbn [Handled.response]. f_equal.
    apply getVideosForTab_emptied. right. apply lookup_delete_eq.
  - intros tab' Hne. split.
    + rewrite Hclear. destruct (_ && _)%bool; [|reflexivity].
      now apply lookup_insert_ne.
    + now apply lookup_delete_ne.
  - reflexivity.
  - reflexivity.
  - reflexivity.
Qed.

Lemma keysOf_length (reg : Registry) tab (tabVideos : TabVideos) :
  reg !! tab = Some tabVideos -> List.length (keysOf reg tab) = List.length tabVideos.
Proof. intros E. unfold keysOf, JSMap.keys. rewrite E. apply length_map. Qed.

(** [X13] What is announced can be asked for.  A candidate announced with
    [ADD_VIDEO] for a URL the tab does not hold yet, which the classifier
    accepts with no size and no content type (as it does any source of
    priority 75 or more), is in the answer to a [GET_VIDEOS] for that
    tab as long as the TTL has not passed and the tab held fewer than
    five entries: with its clean URL, its source, quality, title and
    playlist flag, no size, the time of the announcement, and the score
    of the scorer. *)
Theorem announced_video_is_listed (now now' : Z) (reg : Registry) (m : Message.t)
    (senderTab senderTab' : js Z) (tab : Z) (url : str) :
  wellFormed reg ->
  Message.type m = val (lit "ADD_VIDEO") ->
  addressedTab m senderTab = val tab -> tab <> 0 ->
  Message.url m = val url -> url <> [] ->
  Str.startsWith url (lit "blob:") = false -> Str.startsWith url (lit "data:") = false ->
  isPlayableVideo (cleanByteRangeUrl url) null null (Message.source m) = true ->
  entryOf reg tab (cleanByteRangeUrl url) = None ->
  (List.length (keysOf reg tab) < MAX_RESULTS)%nat ->
  now' - now <= ENTRY_TTL_MS ->
  exists videos,
    Handled.response
      (onMessage now' (Handled.registry (onMessage now reg (val m) senderTab))
         (getVideosMessage (val tab)) senderTab') = Some videos /\
    In (Result.mk (cleanByteRangeUrl url) null
          (scoreVideo (cleanByteRangeUrl url) null (Message.source m) (Message.quality m))
          now (Message.quality m) (Message.source m) (Message.title m) (Message.playlist m))
       videos.
Proof.
  intros Hwf Hty Htab Hne Hu Hn Hb Hd Htrust Hnew Hlen Httl.
  rewrite (onMessage_add now reg m senderTab Hty), onMessage_get, Htab.
  cbn [Handled.registry Handled.response]. eexists. split; [reflexivity|].
  assert (Htarget : target (val tab) (announced m) = Some (tab, cleanByteRangeUrl url))
    by (apply target_of_plain; assumption).
  pose proof (wellFormed_addVideoToTab now reg (val tab) (announced m) Hwf) as Hwf1.
  pose proof (entryOf_add_same now reg (val tab) (announced m) tab _ Htarget) as Hs.
  pose proof (keysOf_add_target now reg (val tab) (announced m) tab _ Htarget) as Hk.
  rewrite Hnew in Hs, Hk. cbn [storedAfter] in Hs.
  set (reg1 := addVideoToTab now reg (val tab) (announced m)) in *.
  unfold entryOf in Hs. destruct (reg1 !! tab) as [tabVideos|] eqn:E; [|discriminate].
  pose proof (Hwf1 _ _ E) as Hnd.
  rewrite (getVideosForTab_known now' reg1 tab tabVideos E Hnd). cbn [fst].
  rewrite firstn_all2.
  2:{ rewrite (Permutation_length (sort_perm byScoreThenTime _)), length_map.
      etransitivity; [apply filter_length_le|].
      rewrite <- (keysOf_length reg1 tab tabVideos E), Hk, length_app. simpl.
      unfold MAX_RESULTS in *. lia. }
  apply (Permutation_in _ (Permutation_sym (sort_perm byScoreThenTime _))).
  apply in_map_iff. exists (cleanByteRangeUrl url, newEntry now (announced m)).
  split; [reflexivity|]. apply filter_In. split; [now apply get_In|].
  unfold listed, kept, expired. cbn [fst snd newEntry Info.timestamp Info.source
    Info.contentType Info.size announced Video.source].
  change (Js.strOrNull (Video.contentType (announced m))) with (@null str).
  change (Js.numOrNull (Video.size (announced m))) with (@null Z).
  rewrite Htrust, andb_true_r.
  apply negb_true_iff, Z.ltb_ge. exact Httl.
Qed.

Lemma announced_video_is_listed_witness :
  exists videos,
    Handled.response
      (onMessage 2000
         (Handled.registry
            (onMessage 1000 ∅
               (val (Message.mk (val (lit "ADD_VIDEO")) undefined
                       (val (lit "https://cdn.example/v.mp4")) (val (lit "instagram"))
                       (val (lit "720p")) (val (lit "A clip")) undefined undefined))
               (val 7)))
         (getVideosMessage (val 7)) undefined) = Some videos /\
    In (Result.mk (cleanByteRangeUrl (lit "https://cdn.example/v.mp4")) null
          (scoreVideo (cleanByteRangeUrl (lit "https://cdn.example/v.mp4")) null
             (val (lit "instagram")) (val (lit "720p")))
          1000 (val (lit "720p")) (val (lit "instagram")) (val (lit "A clip")) undefined)
       videos.
Proof.
  refine (announced_video_is_listed 1000 2000 ∅
            (Message.mk (val (lit "ADD_VIDEO")) undefined
               (val (lit "https://cdn.example/v.mp4")) (val (lit "instagram"))
               (val (lit "720p")) (val (lit "A clip")) undefined undefined)
            (val 7) undefined 7 (lit "https://cdn.example/v.mp4")
            wellFormed_empty _ _ _ _ _ _ _ _ _ _ _);
    try reflexivity; try discriminate; try (vm_compute; lia).
Defined.

(** ** The found set of the page watcher *)

Lemma has_app (l : list str) (x y : str) :
  has (l ++ [x]) y = (has l y || Str.eqb y x)%bool.
Proof. unfold has. rewrite existsb_app. cbn [existsb]. now rewrite orb_false_r. Qed.

Lemma has_add (l : list str) (x : str) : has (if has l x then l else l ++ [x]) x = true.
Proof.
  destruct (has l x) eqn:E; [exact E|]. rewrite has_app, Str_eqb_refl. apply orb_true_r.
Qed.

Section DispatchedFacts.
Context {URL : Type}.
Variable newURL : str -> option URL.
Variable protocol : URL -> str.
Variable searchParamsSet : URL -> str -> str -> URL.
Variable toString : URL -> str.
Variables pageReferer pageOrigin : str.

Abbreviation dispatch := (dispatchVideo newURL protocol searchParamsSet toString
                        pageReferer pageOrigin).
Abbreviation rewrittenUrl := (rewritten newURL protocol searchParamsSet toString
                            pageReferer pageOrigin).
Abbreviation detail := (detailOf newURL protocol searchParamsSet toString
                      pageReferer pageOrigin).

Lemma dispatchVideo_new (foundVideos : list str) (video : Found.t) (url : str) :
  Found.url video = val url -> url <> [] -> has foundVideos url = false ->
  dispatch foundVideos video =
  ((if has foundVideos (rewrittenUrl video url) then foundVideos
    else foundVideos ++ [rewrittenUrl video url]),
   Some (detail video url)).
Proof.
  intros Hu Hn Hh. unfold dispatchVideo. rewrite Hu, Hh.
  destruct url as [|c url]; [contradiction|]. reflexivity.
Qed.

Lemma dispatchVideo_seen (foundVideos : list str) (video : Found.t) (url : str) :
  Found.url video = val url -> has foundVideos url = true ->
  dispatch foundVideos video = (foundVideos, None).
Proof.
  intros Hu Hh. unfold dispatchVideo. rewrite Hu, Hh. now rewrite orb_true_r.
Qed.

(** [X14] What the found set remembers is the URL of the event, not the
    URL that was found.  A candidate with a non-empty URL that is not in
    the set is dispatched, and the URL of its event is in the set
    afterwards, so a candidate found at that URL is dropped.  The same
    candidate found again is dropped only if its URL was left as it was;
    if headers were embedded, it is dispatched again with the same
    detail, and the set stays as it is.  After a navigation the set is
    empty and every candidate with a URL is dispatched. *)
Theorem dispatchVideo_remembers_event_url (foundVideos : list str) (video : Found.t)
    (url : str) :
  Found.url video = val url -> url <> [] -> has foundVideos url = false ->
  let found' := fst (dispatch foundVideos video) in
  let url' := rewrittenUrl video url in
  snd (dispatch foundVideos video) = Some (detail video url) /\
  Found.url (detail video url) = val url' /\
  has found' url' = true /\
  (forall again, Found.url again = val url' -> dispatch found' again = (found', None)) /\
  (url' = url -> dispatch found' video = (found', None)) /\
  (url' <> url -> dispatch found' video = (found', Some (detail video url))) /\
  (forall href lastUrl,
     href <> lastUrl ->
     checkUrlChange href lastUrl found' = (href, [], true) /\
     snd (dispatch [] video) = Some (detail video url)).
Proof.
  intros Hu Hn Hh found' url'.
  assert (Hf : found' = if has foundVideos url' then foundVideos else foundVideos ++ [url'])
    by (unfold found'; now rewrite (dispatchVideo_new foundVideos video url)).
  assert (Hin : has found' url' = true) by (rewrite Hf; apply has_add).
  split; [now rewrite (dispatchVideo_new foundVideos video url)|].
  split; [reflexivity|]. split; [exact Hin|].
  split; [intros again Ha; now apply dispatchVideo_seen with (url := url')|].
  split; [intros E; apply dispatchVideo_seen with (url := url); [exact Hu | now rewrite <- E]|].
  split.
  - intros Hne.
    assert (Hnot : has found' url = false).
    { rewrite Hf. destruct (has foundVideos url'); [exact Hh|].
      rewrite has_app, Hh. cbn [orb]. apply Str_eqb_neq. congruence. }
    rewrite (dispatchVideo_new found' video url Hu Hn Hnot).
    fold url'. now rewrite Hin.
  - intros href lastUrl Hne. split.
    + unfold checkUrlChange. now rewrite Str_eqb_neq.
    + now rewrite (dispatchVideo_new [] video url).
Qed.

End DispatchedFacts.

Lemma dispatchVideo_remembers_event_url_witness :
  dispatchVideo SimpleURL.newURL SimpleURL.protocol SimpleURL.searchParamsSet
    SimpleURL.toString (lit "https://site.example/watch") (lit "https://site.example")
    (fst (dispatchVideo SimpleURL.newURL SimpleURL.protocol SimpleURL.searchParamsSet
            SimpleURL.toString (lit "https://site.example/watch")
            (lit "https://site.example") [] (found "https://cdn.example/v.mp4" "api")))
    (found "https://cdn.example/v.mp4" "api") =
  (fst (dispatchVideo SimpleURL.newURL SimpleURL.protocol SimpleURL.searchParamsSet
          SimpleURL.toString (lit "https://site.example/watch")
          (lit "https://site.example") [] (found "https://cdn.example/v.mp4" "api")),
   Some (detailOf SimpleURL.newURL SimpleURL.protocol SimpleURL.searchParamsSet
           SimpleURL.toString (lit "https://site.example/watch")
           (lit "https://site.example") (found "https://cdn.example/v.mp4" "api")
           (lit "https://cdn.example/v.mp4"))).
Proof.
  refine (proj1 (proj2 (proj2 (proj2 (proj2 (proj2
            (dispatchVideo_remembers_event_url SimpleURL.newURL SimpleURL.protocol
               SimpleURL.searchParamsSet SimpleURL.toString
               (lit "https://site.example/watch") (lit "https://site.example") []
               (found "https://cdn.example/v.mp4" "api") (lit "https://cdn.example/v.mp4")
               eq_refl _ eq_refl)))))) _).
  - discriminate.
  - vm_compute. discriminate.
Defined.

Section EmbeddedOnce.
Context {URL : Type}.
Variable newURL : str -> option URL.
Variable protocol : URL -> str.
Variable searchParamsSet : URL -> str -> str -> URL.
Variable toString : URL -> str.

(** A search parameter that was set shows in the serialized URL, as it
    does with the [URL] class of the platform. *)
Hypothesis headers_visible :
  forall url value,
    Str.includes (toString (searchParamsSet url (lit "headers") value)) (lit "headers=") = true.

Abbreviation embed := (embedHeaders newURL protocol searchParamsSet toString).

Lemma embedHeaders_changed (videoUrl referer origin : str) :
  embed videoUrl referer origin = videoUrl \/
  Str.includes (embed videoUrl referer origin) (lit "headers=") = true.
Proof.
  rewrite embedHeaders_cases.
  destruct (Str.includes videoUrl (lit "headers=")); [now left|].
  destruct (validHeaders newURL protocol referer origin); [now left|].
  destruct (newURL videoUrl); [right; apply headers_visible | now left].
Qed.

Lemma rewritten_changed (pageReferer pageOrigin : str) (video : Found.t) (url : str) :
  rewritten newURL protocol searchParamsSet toString pageReferer pageOrigin video url = url \/
  Str.includes
    (rewritten newURL protocol searchParamsSet toString pageReferer pageOrigin video url)
    (lit "headers=") = true.
Proof.
  unfold rewritten. destruct (_ && _)%bool; [apply embedHeaders_changed | now left].
Qed.

(** [X15] Headers are embedded at most once.  [embedHeaders] either
    leaves the URL as it is or returns a URL that contains [headers=],
    so embedding into its own result changes nothing, and the URL
    [dispatchVideo] gives a candidate is a fixed point of the rewriting. *)
Theorem embedHeaders_once :
  (forall videoUrl referer origin,
     embed videoUrl referer origin = videoUrl \/
     Str.includes (embed videoUrl referer origin) (lit "headers=") = true) /\
  (forall videoUrl referer origin,
     embed (embed videoUrl referer origin) referer origin = embed videoUrl referer origin) /\
  (forall pageReferer pageOrigin video url,
     rewritten newURL protocol searchParamsSet toString pageReferer pageOrigin video
       (rewritten newURL protocol searchParamsSet toString pageReferer pageOrigin video url) =
     rewritten newURL protocol searchParamsSet toString pageReferer pageOrigin video url).
Proof.
  split; [exact embedHeaders_changed|]. split.
  - intros videoUrl referer origin.
    destruct (embedHeaders_changed videoUrl referer origin) as [E|E].
    + now rewrite !E.
    + rewrite (embedHeaders_cases _ _ _ _ (embed videoUrl referer origin)). now rewrite E.
  - intros pageReferer pageOrigin video url.
    assert (H : rewritten newURL protocol searchParamsSet toString pageReferer pageOrigin
                  video url = url \/
                Str.includes
                  (rewritten newURL protocol searchParamsSet toString pageReferer pageOrigin
                     video url) (lit "headers=") = true).
    { unfold rewritten. destruct (_ && _)%bool; [apply embedHeaders_changed | now left]. }
    destruct H as [E|E].
    + rewrite E. exact E.
    + unfold rewritten at 1. now rewrite E.
Qed.

End EmbeddedOnce.

Lemma SimpleURL_headers_visible (url : SimpleURL.t) (value : str) :
  Str.includes
    (SimpleURL.toString (SimpleURL.searchParamsSet url (lit "headers") value))
    (lit "headers=") = true.
Proof.
  unfold SimpleURL.toString, SimpleURL.searchParamsSet. cbn [fst snd].
  set (sep := if Str.includes (snd url) (lit "?") then lit "&" else lit "?").
  replace (fst url ++ lit ":" ++ snd url ++ sep ++ Form.pair (lit "headers", value))
    with ((fst url ++ lit ":" ++ snd url ++ sep) ++ lit "headers=" ++ Form.encode value)
    by (rewrite <- !app_assoc; reflexivity).
  apply includes_middle.
Qed.

Lemma embedHeaders_once_witness :
  embedHeaders SimpleURL.newURL SimpleURL.protocol SimpleURL.searchParamsSet
    SimpleURL.toString
    (embedHeaders SimpleURL.newURL SimpleURL.protocol SimpleURL.searchParamsSet
       SimpleURL.toString (lit "https://cdn.example/v.mp4")
       (lit "https://site.example/watch") (lit "https://site.example"))
    (lit "https://site.example/watch") (lit "https://site.example") =
  embedHeaders SimpleURL.newURL SimpleURL.protocol SimpleURL.searchParamsSet
    SimpleURL.toString (lit "https://cdn.example/v.mp4")
    (lit "https://site.example/watch") (lit "https://site.example").
Proof.
  exact (proj1 (proj2 (embedHeaders_once SimpleURL.newURL SimpleURL.protocol
                         SimpleURL.searchParamsSet SimpleURL.toString
                         SimpleURL_headers_visible))
           (lit "https://cdn.example/v.mp4") (lit "https://site.example/watch")
           (lit "https://site.example")).
Defined.

(** ** Literal patterns with the [i] flag *)

Lemma In_allAscii (c : ascii) : In c allAscii.
Proof.
  unfold allAscii. apply in_map_iff. exists (nat_of_ascii c).
  split; [apply ascii_nat_embedding|]. apply in_seq.
  pose proof (nat_ascii_bounded c). lia.
Qed.

Lemma chrMatches_lowercase (p c : ascii) :
  Ascii.eqb (Str.lowerChar p) p = true ->
  Re.chrMatches true p c = Ascii.eqb p (Str.lowerChar c).
Proof.
  assert (H : forallb (fun p => forallb (fun c =>
                implb (Ascii.eqb (Str.lowerChar p) p)
                  (Bool.eqb (Re.chrMatches true p c) (Ascii.eqb p (Str.lowerChar c))))
                allAscii) allAscii = true) by (vm_compute; reflexivity).
  rewrite forallb_forall in H. specialize (H p (In_allAscii p)).
  rewrite forallb_forall in H. specialize (H c (In_allAscii c)).
  intros Hp. rewrite Hp in H. cbn [implb] in H. now apply eqb_prop in H.
Qed.

Lemma litMatches_lowercase (l s : str) :
  isLowerCase l = true -> litMatches true l s = Str.startsWith (Str.toLowerCase s) l.
Proof.
  revert s. induction l as [|p l IH]; intros s Hl;
    [rewrite startsWith_nil; now destruct s|].
  cbn [isLowerCase forallb] in Hl. apply andb_true_iff in Hl as [Hp Hl].
  destruct s as [|c s]; [reflexivity|].
  cbn [litMatches Str.toLowerCase List.map Str.startsWith].
  rewrite (chrMatches_lowercase p c Hp).
  destruct (Ascii.eqb p (Str.lowerChar c)); [now apply IH | reflexivity].
Qed.

(** A lower-case literal with the [i] flag is found exactly when the
    lower-case subject includes it. *)
Lemma test_literal (w : string) (s : str) :
  isLowerCase (lit w) = true ->
  Re.test (Re.mk (word w) true) s = Str.includes (Str.toLowerCase s) (lit w).
Proof.
  intros Hl. unfold Re.test. cbn [Re.ignoreCase Re.pattern].
  generalize (List.length s) as total. intros total.
  induction s as [|c s IH].
  - cbn [Re.search]. unfold Re.matchAt, word. rewrite run_Lit, litMatches_lowercase by exact Hl.
    cbn [Str.toLowerCase List.map Str.includes].
    destruct (Str.startsWith [] (lit w)); reflexivity.
  - cbn [Re.search]. unfold Re.matchAt, word. rewrite run_Lit, litMatches_lowercase by exact Hl.
    change (Str.toLowerCase (c :: s)) with (Str.lowerChar c :: Str.toLowerCase s).
    cbn [Str.includes].
    destruct (Str.startsWith (Str.lowerChar c :: Str.toLowerCase s) (lit w));
      [reflexivity | exact IH].
Qed.

Lemma toLowerCase_app (a b : str) :
  Str.toLowerCase (a ++ b) = Str.toLowerCase a ++ Str.toLowerCase b.
Proof. apply List.map_app. Qed.

(** [X16] A URL counts as already proxied exactly when, letter case
    aside, it contains [m3u8-proxy?url=], [pipe.sideby.me] or
    [/proxy/?url=]; where in the URL does not matter, so a URL that only
    mentions the relay host, in its query for instance, is flagged too. *)
Theorem isAlreadyProxied_substring :
  (forall url,
     isAlreadyProxied url =
     (Str.includes (Str.toLowerCase url) (lit "m3u8-proxy?url=") ||
      Str.includes (Str.toLowerCase url) (lit "pipe.sideby.me") ||
      Str.includes (Str.toLowerCase url) (lit "/proxy/?url="))%bool) /\
  (forall before after, isAlreadyProxied (before ++ lit "pipe.sideby.me" ++ after) = true) /\
  isAlreadyProxied (lit "https://cdn.example/v.mp4?from=PIPE.sideby.me") = true.
Proof.
  assert (H : forall url,
     isAlreadyProxied url =
     (Str.includes (Str.toLowerCase url) (lit "m3u8-proxy?url=") ||
      Str.includes (Str.toLowerCase url) (lit "pipe.sideby.me") ||
      Str.includes (Str.toLowerCase url) (lit "/proxy/?url="))%bool).
  { intros url. unfold isAlreadyProxied, proxyPatterns. cbn [existsb].
    rewrite !test_literal by reflexivity. now rewrite orb_false_r, orb_assoc. }
  split; [exact H|]. split; [|reflexivity].
  intros before after. rewrite H, !toLowerCase_app.
  change (Str.toLowerCase (lit "pipe.sideby.me")) with (lit "pipe.sideby.me").
  rewrite includes_middle. now rewrite orb_true_r.
Qed.

(** ** Splitting at a character *)

Lemma splitGo_char_step (sep : ascii) (fuel : nat) (c : ascii) (s cur : str) :
  Str.splitGo [sep] (S fuel) (c :: s) cur =
  if Ascii.eqb sep c then rev cur :: Str.splitGo [sep] fuel s []
  else Str.splitGo [sep] fuel s (c :: cur).
Proof.
  cbn [Str.splitGo Str.startsWith List.length]. rewrite startsWith_nil, andb_true_r.
  reflexivity.
Qed.

Lemma splitGo_char_fuel (sep : ascii) (s cur : str) :
  forall f1 f2, (List.length s < f1)%nat -> (List.length s < f2)%nat ->
    Str.splitGo [sep] f1 s cur = Str.splitGo [sep] f2 s cur.
Proof.
  revert cur. induction s as [|c s IH]; intros cur [|f1] [|f2] H1 H2; try lia;
    [reflexivity|].
  rewrite !splitGo_char_step. simpl in H1, H2.
  destruct (Ascii.eqb sep c).
  - f_equal. apply IH; lia.
  - apply IH; lia.
Qed.

Lemma splitGo_char_last (sep : ascii) (a : str) :
  lacks sep a = true ->
  forall cur fuel, (List.length a < fuel)%nat ->
    Str.splitGo [sep] fuel a cur = [rev cur ++ a].
Proof.
  induction a as [|c a IH]; intros Ha cur [|fuel] Hf; try (simpl in Hf; lia).
  - cbn [Str.splitGo]. now rewrite app_nil_r.
  - cbn [lacks forallb] in Ha. apply andb_true_iff in Ha as [Hc Ha].
    apply negb_true_iff in Hc. rewrite splitGo_char_step, Hc.
    rewrite IH; [|exact Ha | simpl in Hf; lia].
    cbn [rev]. now rewrite <- app_assoc.
Qed.

Lemma splitGo_char_piece (sep : ascii) (a rest : str) :
  lacks sep a = true ->
  forall cur fuel, (List.length (a ++ sep :: rest) < fuel)%nat ->
    Str.splitGo [sep] fuel (a ++ sep :: rest) cur =
    (rev cur ++ a) :: Str.splitGo [sep] (S (List.length rest)) rest [].
Proof.
  induction a as [|c a IH]; intros Ha cur [|fuel] Hf; try lia.
  - cbn [app]. rewrite splitGo_char_step, Ascii.eqb_refl, app_nil_r. f_equal.
    apply splitGo_char_fuel; cbn [app List.length] in *; lia.
  - cbn [lacks forallb] in Ha. apply andb_true_iff in Ha as [Hc Ha].
    apply negb_true_iff in Hc.
    change ((c :: a) ++ sep :: rest) with (c :: a ++ sep :: rest).
    rewrite splitGo_char_step, Hc.
    rewrite IH; [|exact Ha | cbn [app List.length] in Hf; lia].
    cbn [rev]. now rewrite <- app_assoc.
Qed.

(** Splitting at a character that occurs once gives the two sides. *)
Lemma split_char_once (sep : ascii) (a b : str) :
  lacks sep a = true -> lacks sep b = true ->
  Str.split (a ++ sep :: b) [sep] = [a; b].
Proof.
  intros Ha Hb. unfold Str.split.
  rewrite splitGo_char_piece by (exact Ha || lia). cbn [rev app]. f_equal.
  now rewrite splitGo_char_last by (exact Hb || lia).
Qed.

Lemma lacks_app (sep : ascii) (a b : str) :
  lacks sep (a ++ b) = (lacks sep a && lacks sep b)%bool.
Proof. apply forallb_app. Qed.

Lemma digits_lack (sep : ascii) (s : str) :
  Str.isDigit sep = false -> allDigits s = true -> lacks sep s = true.
Proof.
  intros Hsep. induction s as [|c s IH]; [reflexivity|].
  cbn [allDigits lacks forallb]. intros H. apply andb_true_iff in H as [Hc Hs].
  apply andb_true_iff. split; [|exact (IH Hs)]. apply negb_true_iff.
  destruct (Ascii.eqb_spec sep c) as [->|]; [congruence | reflexivity].
Qed.

(** ** The quality the page watcher reads *)

Lemma scanPart_quality (acc : js str * js str) (w h : str) :
  allDigits w = true -> allDigits h = true ->
  fst (scanPart acc (resolutionToken w h)) = val (h ++ lit "p").
Proof.
  intros Hw Hh. destruct acc as [quality variantUrl]. unfold scanPart, resolutionToken.
  replace (Str.includes (lit "RESOLUTION=" ++ w ++ "x"%char :: h) (lit "RESOLUTION="))
    with true by (symmetry; apply (includes_middle [])).
  assert (Hsplit : Str.split (lit "RESOLUTION=" ++ w ++ "x"%char :: h) (lit "=") =
                   [lit "RESOLUTION"; w ++ "x"%char :: h]).
  { change (lit "RESOLUTION=" ++ w ++ "x"%char :: h)
      with (lit "RESOLUTION" ++ "="%char :: (w ++ "x"%char :: h)).
    apply (split_char_once "="); [reflexivity|].
    rewrite lacks_app. cbn [lacks forallb].
    fold (lacks "=" w). fold (lacks "=" h).
    now rewrite !(digits_lack "=") by (reflexivity || assumption). }
  rewrite Hsplit. cbn [nth_error fst].
  assert (Hres : Str.split (w ++ "x"%char :: h) (lit "x") = [w; h])
    by (apply (split_char_once "x"); apply digits_lack; reflexivity || assumption).
  destruct (w ++ "x"%char :: h) as [|c res] eqn:E; [now destruct w|].
  rewrite Hres. reflexivity.
Qed.

Lemma trim_fixed (s : str) :
  Str.trimStart s = s -> Str.trimStart (rev s) = rev s -> Str.trim s = s.
Proof. intros H1 H2. unfold Str.trim. now rewrite H1, H2, rev_involutive. Qed.

Lemma allDigits_rev (s : str) : allDigits (rev s) = allDigits s.
Proof.
  induction s as [|c s IH]; [reflexivity|].
  cbn [rev]. rewrite allDigits_app, IH. cbn [allDigits forallb].
  now rewrite andb_true_r, andb_comm.
Qed.

Lemma trimStart_digit (c : ascii) (s : str) :
  Str.isDigit c = true -> Str.trimStart (c :: s) = c :: s.
Proof.
  intros Hc. cbn [Str.trimStart]. destruct (digit_facts c Hc) as (-> & _). reflexivity.
Qed.

Lemma resolutionToken_trim (w : str) (ch : ascii) (h : str) :
  allDigits (ch :: h) = true ->
  Str.trim (resolutionToken w (ch :: h)) = resolutionToken w (ch :: h).
Proof.
  intros Hh. apply trim_fixed; [reflexivity|].
  unfold resolutionToken.
  change (lit "RESOLUTION=" ++ w ++ "x"%char :: ch :: h)
    with (lit "RESOLUTION=" ++ w ++ ["x"%char] ++ (ch :: h)).
  rewrite !rev_app_distr.
  rewrite <- allDigits_rev in Hh.
  destruct (rev (ch :: h)) as [|d t] eqn:E.
  - apply (f_equal (@List.length ascii)) in E. rewrite length_rev in E. discriminate.
  - cbn [allDigits forallb] in Hh. apply andb_true_iff in Hh as [Hd _].
    cbn [app]. now apply trimStart_digit.
Qed.

(** [X17] The two playlist parsers label the same stream differently.
    For a declaration [RESOLUTION=WxH] (numbers below 2^53, where
    JavaScript's are exact) the page watcher takes what
    follows the [x], the height, while the background script takes the
    lesser of the two numbers.  So the watcher's label never ranks below
    the background's, and for a stream that is taller than wide it ranks
    strictly above it. *)
Theorem watcher_quality_is_height (acc : js str * js str) (cw ch : ascii) (w h : str) :
  allDigits (cw :: w) = true ->
  allDigits (ch :: h) = true ->
  Z.max (decimalValue (cw :: w)) (decimalValue (ch :: h)) < 2 ^ 53 ->
  let watcher := fst (scanPart acc (resolutionToken (cw :: w) (ch :: h))) in
  let background := fst (scanLine acc (resolutionToken (cw :: w) (ch :: h))) in
  watcher = val ((ch :: h) ++ lit "p") /\
  background = val (minOfParsed (cw :: w) (ch :: h) ++ lit "p") /\
  qualityRank watcher = decimalValue (ch :: h) /\
  qualityRank background = Z.min (decimalValue (cw :: w)) (decimalValue (ch :: h)) /\
  (decimalValue (cw :: w) < decimalValue (ch :: h) ->
   qualityRank background < qualityRank watcher /\ watcher <> background).
Proof.
  intros Hw Hh _ watcher background.
  assert (Hwat : watcher = val ((ch :: h) ++ lit "p")) by now apply scanPart_quality.
  assert (Hback : background = val (minOfParsed (cw :: w) (ch :: h) ++ lit "p")).
  { unfold background.
    pose proof (scanLine_quality acc cw ch [] w h [] eq_refl Hw Hh eq_refl) as H.
    cbn [app] in H. rewrite app_nil_r in H.
    unfold minOfParsed. rewrite !parseInt_digits by assumption.
    apply H. exact (resolutionToken_trim (cw :: w) ch h Hh). }
  assert (Hrw : qualityRank watcher = decimalValue (ch :: h)).
  { rewrite Hwat. unfold qualityRank. cbn [propertyKey].
    change (lit "p") with ["p"%char].
    now rewrite parseInt_digits_then by (assumption || reflexivity). }
  assert (Hrb : qualityRank background =
                Z.min (decimalValue (cw :: w)) (decimalValue (ch :: h))).
  { rewrite Hback. apply (quality_label_rank cw ch w h Hw Hh). }
  clearbody watcher background.
  split; [exact Hwat|]. split; [exact Hback|]. split; [exact Hrw|]. split; [exact Hrb|].
  intros Hlt. split; [lia|].
  intros E. rewrite E in Hrw. lia.
Qed.

Lemma watcher_quality_is_height_witness :
  fst (scanPart (null, null) (resolutionToken (lit "360") (lit "640"))) = val (lit "640p").
Proof.
  exact (proj1 (watcher_quality_is_height (null, null) "3" "6" (lit "60") (lit "40")
                  eq_refl eq_refl eq_refl)).
Defined.

(** ** Searching parsed JSON *)

(** Induction on a JSON value, with the property at hand for every
    element of an array and every property value of an object. *)
Lemma json_nested_ind (P : json -> Prop)
    (HNull : P JNull) (HBool : forall b, P (JBool b)) (HNum : forall n, P (JNum n))
    (HStr : forall s, P (JStr s))
    (HArr : forall items, Forall P items -> P (JArr items))
    (HObj : forall props, Forall (fun kv => P (snd kv)) props -> P (JObj props)) :
  forall j, P j.
Proof.
  fix IH 1. intros [|b|n|s|items|props].
  - exact HNull.
  - apply HBool.
  - apply HNum.
  - apply HStr.
  - apply HArr. revert items. fix IHitems 1. intros [|v items].
    + constructor.
    + constructor; [apply IH | apply IHitems].
  - apply HObj. revert props. fix IHprops 1. intros [|[k v] props].
    + constructor.
    + constructor; [apply IH | apply IHprops].
Qed.

Lemma entries_values (P : json -> Prop) (obj : json) :
  (forall items, obj = JArr items -> Forall P items) ->
  (forall props, obj = JObj props -> Forall (fun kv => P (snd kv)) props) ->
  Forall (fun kv => P (snd kv)) (JsonValue.entries obj).
Proof.
  intros Ha Ho. destruct obj as [| | | |items|props]; try constructor.
  - specialize (Ha items eq_refl). clear Ho. cbn [JsonValue.entries].
    generalize 0%nat. induction Ha as [|v l Hv Hl IH]; intros i; cbn [JsonValue.indexed];
      constructor; auto.
  - exact (Ho props eq_refl).
Qed.

(** The walk of [searchKey] is a loop over the properties. *)
Lemma searchKey_entries (obj : json) (key : str) (results : list json) :
  searchKey obj key results = fold_left (searchStep key) (JsonValue.entries obj) results.
Proof.
  destruct obj as [| | | |items|props]; try reflexivity.
  - cbn [searchKey JsonValue.entries]. generalize 0%nat. revert results.
    induction items as [|v items IH]; intros results i; [reflexivity|].
    cbn [JsonValue.indexed fold_left]. rewrite <- IH. reflexivity.
  - cbn [searchKey JsonValue.entries]. revert results.
    induction props as [|[k v] props IH]; intros results; [reflexivity|].
    cbn [fold_left]. rewrite <- IH. reflexivity.
Qed.

Lemma searchKey_scalar (obj : json) (key : str) (results : list json) :
  JsonValue.isObjectType obj = false -> searchKey obj key results = results.
Proof. now destruct obj. Qed.

Lemma fold_searchStep_append (key : str) (l : list (str * json)) :
  Forall (fun kv => forall results,
            searchKey (snd kv) key results = results ++ searchKey (snd kv) key []) l ->
  forall results,
    fold_left (searchStep key) l results = results ++ fold_left (searchStep key) l [].
Proof.
  induction 1 as [|[k v] l Hv Hl IH]; intros results; cbn [fold_left].
  - now rewrite app_nil_r.
  - cbn [snd] in Hv. rewrite IH. rewrite (IH (searchStep key [] (k, v))).
    rewrite app_assoc. f_equal. unfold searchStep.
    destruct (Str.eqb k key && JsonValue.truthy v)%bool, (JsonValue.isObjectType v);
      cbn [app]; rewrite ?app_nil_r; try reflexivity.
    + rewrite Hv, (Hv [v]). now rewrite app_assoc.
    + apply Hv.
Qed.

(** The results so far are only ever extended. *)
Lemma searchKey_append (obj : json) (key : str) :
  forall results, searchKey obj key results = results ++ searchKey obj key [].
Proof.
  induction obj as [|b|n|s|items IH|props IH] using json_nested_ind; intros results;
    try (cbn [searchKey]; now rewrite app_nil_r).
  - rewrite !(searchKey_entries (JArr items)). apply fold_searchStep_append.
    apply (entries_values
             (fun obj => forall results,
                searchKey obj key results = results ++ searchKey obj key []));
      [|discriminate]. now intros ? [= <-].
  - rewrite !(searchKey_entries (JObj props)). apply fold_searchStep_append.
    exact IH.
Qed.

Lemma searchStep_results (key : str) (results : list json) (k : str) (v : json) :
  searchStep key results (k, v) =
  results ++ (if (Str.eqb k key && JsonValue.truthy v)%bool then [v] else []) ++
  searchKey v key [].
Proof.
  unfold searchStep.
  destruct (JsonValue.isObjectType v) eqn:E.
  - rewrite searchKey_append. destruct (_ && _)%bool; cbn [app];
      now rewrite <- ?app_assoc, ?app_nil_r.
  - rewrite (searchKey_scalar v key [] E). destruct (_ && _)%bool; cbn [app];
      now rewrite ?app_nil_r.
Qed.

Lemma fold_searchStep_In (key : str) (v : json) (l : list (str * json)) :
  forall results,
    In v (fold_left (searchStep key) l results) <->
    In v results \/
    exists k child, In (k, child) l /\
      ((k = key /\ JsonValue.truthy child = true /\ v = child) \/
       In v (searchKey child key [])).
Proof.
  induction l as [|[k c] l IH]; intros results; cbn [fold_left].
  - split; [now left | intros [H|(k & c & [] & _)]; exact H].
  - rewrite IH, searchStep_results, !in_app_iff. split.
    + intros [[H|[H|H]]|(k' & c' & Hin & H)].
      * now left.
      * right. exists k, c. split; [now left|]. left.
        destruct (Str.eqb k key) eqn:Ek; [|destruct H].
        destruct (JsonValue.truthy c) eqn:Et; [|destruct H].
        apply Str_eqb_eq in Ek. destruct H as [<-|[]]. auto.
      * right. exists k, c. split; [now left | now right].
      * right. exists k', c'. split; [now right | exact H].
    + intros [H|(k' & c' & Hin & H)]; [left; now left|].
      destruct Hin as [Heq|Hin]; [|right; exists k', c'; auto].
      injection Heq as <- <-. left. right.
      destruct H as [(-> & Ht & ->)|H]; [|now right].
      left. rewrite Str_eqb_refl, Ht. now left.
Qed.

Lemma searchKey_In (obj : json) (key : str) (v : json) :
  In v (searchKey obj key []) <-> storedUnder key obj v.
Proof.
  split.
  - revert v. induction obj as [|b|n|s|items IH|props IH] using json_nested_ind; intros v;
      try (intros []).
    + rewrite searchKey_entries, fold_searchStep_In.
      intros [[]|(k & child & Hin & H)].
      assert (Hc : forall w, In w (searchKey child key []) -> storedUnder key child w).
      { assert (HF : Forall (fun kv => forall w, In w (searchKey (snd kv) key []) ->
                                 storedUnder key (snd kv) w) (JsonValue.entries (JArr items)))
          by (apply (entries_values
                       (fun obj => forall w, In w (searchKey obj key []) ->
                                             storedUnder key obj w));
              [now intros ? [= <-] | discriminate]).
        rewrite Forall_forall in HF. apply (HF (k, child) Hin). }
      destruct H as [(-> & Ht & ->)|H].
      * now apply storedHere.
      * apply storedDeeper with (k := k) (child := child); auto.
    + rewrite searchKey_entries, fold_searchStep_In.
      intros [[]|(k & child & Hin & H)].
      assert (Hc : forall w, In w (searchKey child key []) -> storedUnder key child w).
      { rewrite Forall_forall in IH. apply (IH (k, child) Hin). }
      destruct H as [(-> & Ht & ->)|H].
      * now apply storedHere.
      * apply storedDeeper with (k := k) (child := child); auto.
  - induction 1 as [obj v Hin Ht|obj k child v Hin _ IH];
      rewrite searchKey_entries, fold_searchStep_In; right.
    + exists key, v. auto.
    + exists k, child. auto.
Qed.

(** [X18] [searchKey] returns exactly the truthy values stored under the
    key, in the value it is given or at any depth inside it (an array
    counts with its indices as keys); a value that is not an object or an
    array yields nothing; and the results it is handed are only ever
    extended at the end. *)
Theorem searchKey_exact (obj : json) (key : str) :
  (forall v, In v (searchKey obj key []) <-> storedUnder key obj v) /\
  (forall results, searchKey obj key results = results ++ searchKey obj key []) /\
  (JsonValue.isObjectType obj = false -> forall results, searchKey obj key results = results).
Proof.
  split; [intros v; apply searchKey_In|].
  split; [apply searchKey_append | intros H results; now apply searchKey_scalar].
Qed.

(** ** The generic parser *)

Lemma GenericParser_candidates_In (title : str) (data : json) (c : Found.t) :
  In c (GenericParser_candidates title data) <->
  exists key s,
    In key videoKeys /\ storedUnder key data (JStr s) /\ acceptsApiUrl s = true /\
    c = apiCandidate title s.
Proof.
  unfold GenericParser_candidates. rewrite in_flat_map. split.
  - intros (key & Hkey & Hc). apply in_flat_map in Hc as (value & Hv & Hc).
    apply searchKey_In in Hv.
    destruct value as [| | |s| |]; try destruct Hc.
    destruct (acceptsApiUrl s) eqn:E; [|destruct Hc].
    destruct Hc as [<-|[]]. exists key, s. auto.
  - intros (key & s & Hkey & Hs & Ha & ->). exists key. split; [exact Hkey|].
    apply in_flat_map. exists (JStr s). split; [now apply searchKey_In|].
    rewrite Ha. now left.
Qed.

(** [X19] What the generic parser dispatches.  Its candidates are exactly
    the strings stored, at any depth of the parsed response, under one of
    the eight video keys, that end in [.mp4] or [.m3u8] (before a query
    or the end), contain neither [bytestart=] nor [byteend=] and no
    numbered segment name.  Each carries the source [api], whose priority
    makes the classifier accept it whatever its URL. *)
Theorem GenericParser_candidates_exact (title : str) (data : json) :
  (forall c,
     In c (GenericParser_candidates title data) <->
     exists key s,
       In key videoKeys /\ storedUnder key data (JStr s) /\ acceptsApiUrl s = true /\
       c = apiCandidate title s) /\
  (forall c,
     In c (GenericParser_candidates title data) ->
     exists s,
       Found.url c = val s /\
       Re.test API_VIDEO s = true /\
       Str.includes s (lit "bytestart=") = false /\
       Str.includes s (lit "byteend=") = false /\
       Re.test SEGMENT_NAME s = false /\
       Found.source c = val (lit "api") /\
       forall url contentType size,
         isPlayableVideo url contentType size (Found.source c) = true) /\
  (forall parse responseText url,
     parse responseText = None -> GenericParser_onLoad parse title responseText url = []).
Proof.
  split; [apply GenericParser_candidates_In|]. split.
  - intros c Hc. apply GenericParser_candidates_In in Hc as (key & s & _ & _ & Ha & ->).
    exists s. unfold acceptsApiUrl in Ha.
    apply andb_true_iff in Ha as [Ha Hseg]. apply andb_true_iff in Ha as [Hext Hbyte].
    apply negb_true_iff in Hseg, Hbyte. apply orb_false_iff in Hbyte as [Hs He].
    split; [reflexivity|]. split.
    { unfold Re.test. unfold Re.exec, matched in Hext.
      now destruct (Re.search _ _ _ s) as [[]|]. }
    split; [exact Hs|]. split; [exact He|]. split.
    { unfold Re.test. unfold Re.exec, matched in Hseg.
      now destruct (Re.search _ _ _ s) as [[]|]. }
    split; [reflexivity|].
    intros url contentType size. now apply trusted_is_playable.
  - intros parse responseText url H. unfold GenericParser_onLoad. now rewrite H.
Qed.

(** ** Which parsers run on a page *)

Lemma startsWith_prefix (s p : str) :
  Str.startsWith s p = true -> exists rest, s = p ++ rest.
Proof.
  revert s. induction p as [|a p IH]; intros s H; [now exists s|].
  destruct s as [|b s]; [discriminate|]. cbn [Str.startsWith] in H.
  apply andb_true_iff in H as [Hab H]. apply Ascii.eqb_eq in Hab. subst b.
  destruct (IH s H) as (rest & ->). now exists rest.
Qed.

Lemma includes_occurrence (s p : str) :
  Str.includes s p = true <-> exists before after, s = before ++ p ++ after.
Proof.
  split.
  - induction s as [|c s IH]; cbn [Str.includes]; intros H.
    + rewrite orb_false_r in H. apply startsWith_prefix in H as (rest & ->).
      now exists [], rest.
    + apply orb_true_iff in H as [H|H].
      * apply startsWith_prefix in H as (rest & ->). now exists [], rest.
      * destruct (IH H) as (before & after & ->). now exists (c :: before), after.
  - intros (before & after & ->). apply includes_middle.
Qed.

(** A literal without the [i] flag is found exactly when the subject
    includes it. *)
Lemma test_literal_exact (w : string) (s : str) :
  Re.test (Re.mk (word w) false) s = Str.includes s (lit w).
Proof.
  unfold Re.test. cbn [Re.ignoreCase Re.pattern].
  generalize (List.length s) as total. intros total.
  induction s as [|c s IH].
  - cbn [Re.search]. unfold Re.matchAt, word. rewrite run_Lit, litMatches_startsWith.
    cbn [Str.includes]. destruct (Str.startsWith [] (lit w)); reflexivity.
  - cbn [Re.search]. unfold Re.matchAt, word. rewrite run_Lit, litMatches_startsWith.
    cbn [Str.includes].
    destruct (Str.startsWith (c :: s) (lit w)); [reflexivity | exact IH].
Qed.

Lemma includes_tail_of (s a b : str) :
  Str.includes s (a ++ b) = true -> Str.includes s b = true.
Proof.
  intros H. apply includes_occurrence in H as (before & after & ->).
  apply includes_occurrence. exists (before ++ a), after.
  now rewrite <- !app_assoc.
Qed.

Lemma includes_self (s : str) : Str.includes s s = true.
Proof. apply includes_occurrence. exists [], []. now rewrite app_nil_r. Qed.

(** [X20] Which pages a parser runs on.  The Instagram parser runs
    exactly on the hosts whose name contains [instagram.com], the Vimeo
    parser on those containing [vimeo.com], the Twitter parser on those
    containing [twitter.com] or [x.com], and so on every host whose name
    ends in [x.com], [www.netflix.com] among them; the playlist parser and
    the generic parser run on every page. *)
Theorem parser_selection (hostname : str) :
  parserApplies InstagramParser.origins hostname =
    Str.includes hostname (lit "instagram.com") /\
  parserApplies TwitterParser.origins hostname =
    (Str.includes hostname (lit "twitter.com") || Str.includes hostname (lit "x.com"))%bool /\
  parserApplies VimeoParser.origins hostname = Str.includes hostname (lit "vimeo.com") /\
  parserApplies HLSParser.origins hostname = true /\
  parserApplies GenericParser.origins hostname = true /\
  parserApplies TwitterParser.origins (hostname ++ lit "x.com") = true /\
  parserApplies TwitterParser.origins (lit "www.netflix.com") = true.
Proof.
  assert (Htw : forall h, parserApplies TwitterParser.origins h =
            (Str.includes h (lit "twitter.com") || Str.includes h (lit "x.com"))%bool).
  { intros h. unfold parserApplies, TwitterParser.origins. cbn [List.length Nat.eqb existsb orb].
    rewrite !test_literal_exact. now rewrite orb_false_r. }
  split; [|split; [apply Htw|split; [|split; [reflexivity|split; [reflexivity|split]]]]].
  - unfold parserApplies, InstagramParser.origins. cbn [List.length Nat.eqb existsb orb].
    rewrite test_literal_exact, orb_false_r.
    destruct (Str.includes hostname (lit "instagram.com")) eqn:A.
    + now rewrite !orb_true_r.
    + assert (H1 : Str.includes hostname (lit "www.instagram.com") = false).
      { destruct (Str.includes hostname (lit "www.instagram.com")) eqn:E; [|reflexivity].
        apply (includes_tail_of hostname (lit "www.") (lit "instagram.com")) in E.
        congruence. }
      assert (H2 : Str.eqb hostname (lit "www.instagram.com") = false).
      { destruct (Str.eqb hostname (lit "www.instagram.com")) eqn:E; [|reflexivity].
        apply Str_eqb_eq in E. subst hostname. discriminate. }
      assert (H3 : Str.eqb hostname (lit "instagram.com") = false).
      { destruct (Str.eqb hostname (lit "instagram.com")) eqn:E; [|reflexivity].
        apply Str_eqb_eq in E. subst hostname. discriminate. }
      now rewrite H1, H2, H3.
  - unfold parserApplies, VimeoParser.origins. cbn [List.length Nat.eqb existsb orb].
    rewrite test_literal_exact. now rewrite orb_false_r.
  - rewrite Htw.
    replace (hostname ++ lit "x.com") with (hostname ++ lit "x.com" ++ [])
      by now rewrite app_nil_r.
    rewrite includes_middle. apply orb_true_r.
  - reflexivity.
Qed.

(** ** Scanning the [video] elements *)

Section SendUnique.
Variables documentTitle href source : str.

Lemma sendUnique_In (m : Message.t) (urls : list str) :
  forall seen sent,
    In m (snd (fold_left (sendUnique documentTitle href source) urls (seen, sent))) <->
    In m sent \/
    exists url, In url urls /\ has seen url = false /\ showsByteRange url = false /\
                m = domMessage documentTitle href source url.
Proof.
  induction urls as [|u urls IH]; intros seen sent; cbn [fold_left].
  - split; [now left | intros [H|(url & [] & _)]; exact H].
  - unfold sendUnique at 2. destruct (has seen u) eqn:Hs.
    + rewrite IH. split.
      * intros [H|(url & Hin & H)]; [now left|]. right. exists url. split; [now right | exact H].
      * intros [H|(url & [<-|Hin] & Hn & H)]; [now left | congruence |].
        right. exists url. auto.
    + fold (showsByteRange u). destruct (showsByteRange u) eqn:Hb; rewrite IH.
      * split.
        -- intros [H|(url & Hin & Hn & H)]; [now left|]. right. exists url.
           split; [now right|]. split; [|exact H].
           rewrite has_app in Hn. now apply orb_false_iff in Hn as [Hn _].
        -- intros [H|(url & [<-|Hin] & Hn & Hok & H)]; [now left | congruence |].
           destruct (has (seen ++ [u]) url) eqn:E.
           ++ rewrite has_app, Hn in E. cbn [orb] in E. apply Str_eqb_eq in E. subst url.
              congruence.
           ++ right. exists url. auto.
      * rewrite in_app_iff. split.
        -- intros [[H|[<-|[]]]|(url & Hin & Hn & H)].
           ++ now left.
           ++ right. exists u. split; [now left|]. auto.
           ++ right. exists url. split; [now right|]. split; [|exact H].
              rewrite has_app in Hn. now apply orb_false_iff in Hn as [Hn _].
        -- intros [H|(url & [<-|Hin] & Hn & Hok & H)].
           ++ left. now left.
           ++ left. right. left. now symmetry.
           ++ destruct (has (seen ++ [u]) url) eqn:E.
              ** rewrite has_app, Hn in E. cbn [orb] in E. apply Str_eqb_eq in E. subst url.
                 left. right. left. now symmetry.
              ** right. exists url. auto.
Qed.

Lemma sendUnique_length (urls : list str) :
  forall seen sent,
    (List.length (snd (fold_left (sendUnique documentTitle href source) urls (seen, sent)))
     <= List.length sent + List.length urls)%nat.
Proof.
  induction urls as [|u urls IH]; intros seen sent; cbn [fold_left List.length snd]; [lia|].
  unfold sendUnique at 2. destruct (has seen u).
  - etransitivity; [apply IH|]. lia.
  - destruct (_ || _)%bool; (etransitivity; [apply IH|]); rewrite ?length_app; simpl; lia.
Qed.

End SendUnique.

Lemma collectedUrls_plain (video : VideoElement.t) (url : str) :
  In url (collectedUrls video) <->
  isPlainSrc url = true /\
  (url = VideoElement.src video \/ url = VideoElement.currentSrc video \/
   In url (VideoElement.sources video)).
Proof.
  unfold collectedUrls. rewrite !in_app_iff, filter_In. split.
  - intros [H|[H|[H1 H2]]].
    + destruct (isPlainSrc (VideoElement.src video)) eqn:E; [|destruct H].
      destruct H as [<-|[]]. auto.
    + destruct (isPlainSrc (VideoElement.currentSrc video)) eqn:E; [|destruct H].
      destruct H as [<-|[]]. auto.
    + auto.
  - intros (Hp & [->|[->|H]]).
    + left. rewrite Hp. now left.
    + right. left. rewrite Hp. now left.
    + right. right. auto.
Qed.

Lemma collectedUrls_length (video : VideoElement.t) :
  (List.length (collectedUrls video) <= 2 + List.length (VideoElement.sources video))%nat.
Proof.
  unfold collectedUrls. rewrite !length_app.
  pose proof (filter_length_le isPlainSrc (VideoElement.sources video)).
  destruct (isPlainSrc (VideoElement.src video)),
           (isPlainSrc (VideoElement.currentSrc video)); simpl; lia.
Qed.

(** [X21] What a scan of a [video] element reports.  The messages are
    exactly those for the element's [src], [currentSrc] and [source]
    URLs that are non-empty, are no [blob:] or [data:] URL and show no
    byte range after cleaning; each carries the clean URL, the document
    title, and the tag [dom-playing] when the element is playing and in
    the viewport, [dom] otherwise; there are no more of them than the
    element has such attributes.  The element is marked, and scanning it
    again reports nothing. *)
Theorem scanVideo_reports (documentTitle href : str) (innerWidth innerHeight : Z)
    (video : VideoElement.t) :
  let scan := scanVideo documentTitle href innerWidth innerHeight in
  (forall m,
     In m (fst (scan video)) <->
     VideoElement.processed video = false /\
     exists url,
       isPlainSrc url = true /\
       (url = VideoElement.src video \/ url = VideoElement.currentSrc video \/
        In url (VideoElement.sources video)) /\
       showsByteRange url = false /\
       m = domMessage documentTitle href (domSource innerWidth innerHeight video) url) /\
  (forall m,
     In m (fst (scan video)) ->
     exists url,
       Message.url m = val url /\
       Str.includes url (lit "bytestart=") = false /\
       Str.includes url (lit "byteend=") = false /\
       Message.type m = val (lit "ADD_VIDEO") /\
       Message.title m = val documentTitle /\
       (Message.source m = val (lit "dom") \/ Message.source m = val (lit "dom-playing"))) /\
  (List.length (fst (scan video)) <= 2 + List.length (VideoElement.sources video))%nat /\
  VideoElement.processed (snd (scan video)) = true /\
  fst (scan (snd (scan video))) = [].
Proof.
  intros scan.
  assert (Hin : forall m,
     In m (fst (scan video)) <->
     VideoElement.processed video = false /\
     exists url,
       isPlainSrc url = true /\
       (url = VideoElement.src video \/ url = VideoElement.currentSrc video \/
        In url (VideoElement.sources video)) /\
       showsByteRange url = false /\
       m = domMessage documentTitle href (domSource innerWidth innerHeight video) url).
  { intros m. unfold scan, scanVideo.
    destruct (VideoElement.processed video) eqn:Hp; cbn [fst].
    - split; [intros [] | intros [? _]; discriminate].
    - rewrite sendUnique_In. split.
      + intros [[]|(url & Hu & _ & Hb & ->)]. split; [reflexivity|].
        apply collectedUrls_plain in Hu as [Hplain Hu]. exists url. auto.
      + intros (_ & url & Hplain & Hu & Hb & ->). right. exists url.
        split; [apply collectedUrls_plain; auto|]. auto. }
  split; [exact Hin|]. split; [|split; [|split]].
  - intros m Hm. apply Hin in Hm as (_ & url & _ & _ & Hb & ->).
    exists (cleanByteRangeUrl url). unfold showsByteRange in Hb.
    apply orb_false_iff in Hb as [Hs He].
    split; [reflexivity|]. split; [exact Hs|]. split; [exact He|].
    split; [reflexivity|]. split.
    + unfold domMessage, sendVideo. cbn [Message.title Found.title].
      now destruct (Js.truthyStr (val documentTitle)).
    + unfold domMessage, sendVideo, domSource. cbn [Message.source Found.source].
      destruct (_ && _)%bool; auto.
  - unfold scan, scanVideo. destruct (VideoElement.processed video); cbn [fst List.length];
      [lia|].
    etransitivity; [apply sendUnique_length|]. cbn [List.length plus].
    apply collectedUrls_length.
  - unfold scan, scanVideo. now destruct (VideoElement.processed video) eqn:E.
  - unfold scan, scanVideo. destruct (VideoElement.processed video) eqn:E; cbn [snd].
    + now rewrite E.
    + reflexivity.
Qed.

(** ** The YouTube page candidate *)

Lemma checkYouTube_sent (hostname href documentTitle : str) (m : Message.t) :
  checkYouTube hostname href documentTitle = Some m ->
  m = sendVideo documentTitle href
        (Found.mk (val href) undefined (val (lit "youtube"))
           (val (replaceFirst documentTitle (lit " - YouTube") (lit "")))
           undefined undefined) /\
  Str.includes hostname (lit "youtube.com") = true /\
  (Str.includes href (lit "/watch") || Str.includes href (lit "/shorts/"))%bool = true.
Proof.
  unfold checkYouTube.
  destruct (Str.includes hostname (lit "youtube.com")); cbn [negb]; [|discriminate].
  destruct (Str.includes href (lit "/watch") || Str.includes href (lit "/shorts/"))%bool;
    [|discriminate].
  intros [= <-]. auto.
Qed.

(** [X22] The candidate for a YouTube page has no priority.  The message
    [checkYouTube] sends carries the page URL, the tag [youtube] and no
    quality; its title is the document title without its first
    [ - YouTube], or the document title when nothing else is left.  The
    tag is not in the priority table, so the candidate is accepted only
    by the rules on the URL (as a YouTube watch or shorts URL is), and
    with no size known it scores at most 38, below the 50 that every
    candidate with a source of the table reaches. *)
Theorem checkYouTube_candidate (hostname href documentTitle : str) (m : Message.t) :
  checkYouTube hostname href documentTitle = Some m ->
  Message.type m = val (lit "ADD_VIDEO") /\
  Message.url m = val href /\
  Message.source m = val (lit "youtube") /\
  Message.quality m = undefined /\
  Message.title m =
    val (match replaceFirst documentTitle (lit " - YouTube") (lit "") with
         | [] => documentTitle
         | (_ :: _) as stripped => stripped
         end) /\
  trustedSource (Message.source m) = false /\
  (forall url contentType size,
     isYouTubeUrl url = true ->
     isPlayableVideo url contentType size (Message.source m) = true) /\
  (forall url, exists n,
     scoreVideo url null (Message.source m) (Message.quality m) = Score.number n /\
     n <= 38) /\
  (forall url size source quality p,
     sourcePriority source = Priority.number p ->
     exists n, scoreVideo url size source quality = Score.number n /\ 50 <= n).
Proof.
  intros H. apply checkYouTube_sent in H as (-> & _ & _).
  split; [reflexivity|]. split; [reflexivity|]. split; [reflexivity|].
  split; [reflexivity|]. split.
  { unfold sendVideo. cbn [Message.title Found.title Js.truthyStr].
    now destruct (replaceFirst documentTitle (lit " - YouTube") (lit "")). }
  split; [reflexivity|]. split.
  { intros url contentType size Hy. rewrite isPlayableVideo_rules. cbv zeta.
    rewrite Hy. now destruct (trustedSource _). }
  split.
  - intros url. cbn [sendVideo Message.source Message.quality Found.source Found.quality].
    eexists. split; [apply (scoreVideo_parts _ _ _ _ 0); reflexivity|].
    change (sizeBoost null) with 0. change (qualityBoost undefined) with 0.
    pose proof (extensionBoost_range url). pose proof (hintBoost_range url). lia.
  - intros url size source quality p Hp.
    pose proof (sourcePriority_range _ _ Hp) as Hr.
    assert (Hq : priorityOrZero source = Priority.number p).
    { unfold priorityOrZero, Priority.orZero. rewrite Hp. cbn [Priority.truthy].
      destruct (Z.eqb_spec p 0); [lia | reflexivity]. }
    eexists. split; [apply (scoreVideo_parts _ _ _ _ p Hq)|].
    pose proof (extensionBoost_range url). pose proof (sizeBoost_range size).
    pose proof (qualityBoost_range quality). pose proof (hintBoost_range url). lia.
Qed.

Lemma checkYouTube_candidate_witness :
  Message.title
    (sendVideo (lit "A clip - YouTube") (lit "https://www.youtube.com/watch?v=abc")
       (Found.mk (val (lit "https://www.youtube.com/watch?v=abc")) undefined
          (val (lit "youtube"))
          (val (replaceFirst (lit "A clip - YouTube") (lit " - YouTube") (lit "")))
          undefined undefined)) =
  val (match replaceFirst (lit "A clip - YouTube") (lit " - YouTube") (lit "") with
       | [] => lit "A clip - YouTube"
       | (_ :: _) as stripped => stripped
       end).
Proof.
  exact (proj1 (proj2 (proj2 (proj2 (proj2
           (checkYouTube_candidate (lit "www.youtube.com")
              (lit "https://www.youtube.com/watch?v=abc") (lit "A clip - YouTube") _
              eq_refl)))))).
Defined.

(** ** The link of the context menu *)

Lemma encodeChar_written (c : ascii) : forallb Form.written (Form.encodeChar c) = true.
Proof. destruct c as [[] [] [] [] [] [] [] []]; reflexivity. Qed.

Lemma encode_written (s : str) : forallb Form.written (Form.encode s) = true.
Proof.
  induction s as [|c s IH]; [reflexivity|].
  cbn [Form.encode flat_map]. rewrite forallb_app, encodeChar_written. exact IH.
Qed.

Lemma written_lacks (sep : ascii) (s : str) :
  Form.written sep = false -> forallb Form.written s = true -> lacks sep s = true.
Proof.
  intros Hsep. induction s as [|c s IH]; [reflexivity|].
  cbn [forallb lacks]. intros H. apply andb_true_iff in H as [Hc Hs].
  apply andb_true_iff. split; [|exact (IH Hs)]. apply negb_true_iff.
  destruct (Ascii.eqb_spec sep c) as [->|]; [congruence | reflexivity].
Qed.

Lemma decodeHead_encodeChar (c : ascii) (rest : str) :
  Form.decodeHead (Form.encodeChar c ++ rest) = Some (c, rest).
Proof. destruct c as [[] [] [] [] [] [] [] []]; reflexivity. Qed.

Lemma encode_injective (a b : str) : Form.encode a = Form.encode b -> a = b.
Proof.
  revert b. induction a as [|c a IH]; intros [|d b] H.
  - reflexivity.
  - apply (f_equal Form.decodeHead) in H. cbn [Form.encode flat_map] in H.
    rewrite decodeHead_encodeChar in H. discriminate.
  - apply (f_equal Form.decodeHead) in H. cbn [Form.encode flat_map] in H.
    rewrite decodeHead_encodeChar in H. discriminate.
  - cbn [Form.encode flat_map] in H. apply (f_equal Form.decodeHead) in H.
    rewrite !decodeHead_encodeChar in H. injection H as -> H.
    f_equal. now apply IH.
Qed.

Lemma onClicked_link (info : ClickInfo.t) :
  onClicked info =
  if Str.eqb (ClickInfo.menuItemId info) (lit "sideby-pass") then
    match clickedUrl info with
    | val ((_ :: _) as v) =>
        Some (lit "https://sideby.me/create?videoUrl=" ++ Form.encode v ++ lit "&autoplay=1")
    | _ => None
    end
  else None.
Proof.
  unfold onClicked, clickedUrl.
  destruct (Str.eqb (ClickInfo.menuItemId info) (lit "sideby-pass")); [|reflexivity].
  cbn [negb].
  destruct (if Js.truthyStr (ClickInfo.srcUrl info) then ClickInfo.srcUrl info
            else ClickInfo.linkUrl info) as [| |[|c v]]; reflexivity.
Qed.

(** [X23] The link the context menu opens.  For the menu item of the
    extension and a click with a source or link URL, the new tab goes to
    [https://sideby.me/create?videoUrl=] followed by the encoded video
    URL and [&autoplay=1]; another menu item, or a click with neither
    URL, opens nothing.  The encoded URL is made of letters, digits and
    [* - . _ + %] only, so nothing in the video URL can end the parameter
    or add one; and the encoding loses nothing: two clicks that open the
    same link picked the same video URL. *)
Theorem onClicked_link_is_faithful :
  (forall info,
     onClicked info =
     if Str.eqb (ClickInfo.menuItemId info) (lit "sideby-pass") then
       match clickedUrl info with
       | val ((_ :: _) as v) =>
           Some (lit "https://sideby.me/create?videoUrl=" ++ Form.encode v ++
                 lit "&autoplay=1")
       | _ => None
       end
     else None) /\
  (forall v,
     forallb Form.written (Form.encode v) = true /\
     lacks "&" (Form.encode v) = true /\ lacks "=" (Form.encode v) = true /\
     lacks "#" (Form.encode v) = true /\ lacks "?" (Form.encode v) = true /\
     lacks " " (Form.encode v) = true) /\
  (forall info info' link,
     onClicked info = Some link -> onClicked info' = Some link ->
     clickedUrl info = clickedUrl info') /\
  onClicked (ClickInfo.mk (lit "sideby-pass") undefined
               (val (lit "https://cdn.example/a b.mp4?x=1&y=2"))) =
  Some (lit "https://sideby.me/create?videoUrl=https%3A%2F%2Fcdn.example%2Fa+b.mp4%3Fx%3D1%26y%3D2&autoplay=1").
Proof.
  split; [apply onClicked_link|]. split; [|split; [|reflexivity]].
  - intros v. pose proof (encode_written v) as H.
    split; [exact H|]. repeat split; apply written_lacks; (reflexivity || exact H).
  - intros info info' link. rewrite !onClicked_link.
    destruct (Str.eqb (ClickInfo.menuItemId info) (lit "sideby-pass")); [|discriminate].
    destruct (Str.eqb (ClickInfo.menuItemId info') (lit "sideby-pass")); [|discriminate].
    destruct (clickedUrl info) as [| |[|c v]]; try discriminate.
    destruct (clickedUrl info') as [| |[|c' v']]; try discriminate.
    intros [= <-] [= H]. apply app_inv_tail in H.
    change (Form.encode (c' :: v') = Form.encode (c :: v)) in H.
    apply encode_injective in H. now rewrite H.
Qed.

(** ** Declared lengths *)

Lemma parseInt10_digits (c : ascii) (s : str) :
  allDigits (c :: s) = true -> parseInt10 (c :: s) = Some (decimalValue (c :: s)).
Proof.
  intros Hs. cbn [allDigits forallb] in Hs. apply andb_true_iff in Hs as [Hc Hs].
  destruct (digit_facts c Hc) as (Hsp & Hm & Hp & _ & _ & Hv).
  unfold parseInt10. cbn [Str.trimStart]. rewrite Hsp, Hm, Hp.
  cbn [Str.digitsGo]. rewrite Hv, digitsGo_digits by exact Hs.
  unfold decimalValue. cbn [fold_left]. reflexivity.
Qed.

Lemma small_is_not_playable url contentType (n : Z) source :
  trustedSource source = false -> isYouTubeUrl url = false ->
  n <> 0 -> n < MIN_VIDEO_SIZE_BYTES ->
  isPlayableVideo url contentType (val n) source = false.
Proof.
  intros Ht Hy Hn Hlt. rewrite isPlayableVideo_rules. cbv zeta. rewrite Ht, Hy.
  repeat match goal with
         | |- (if ?b then false else _) = false => destruct b; [reflexivity|]
         end.
  unfold laterChecks, declaredBelow. cbn [Js.truthyNum].
  destruct (Z.eqb_spec n 0); [contradiction|]. cbn [negb andb].
  apply Z.ltb_lt in Hlt. rewrite Hlt. now rewrite !andb_false_r.
Qed.

(** [find] returns the first header of the name, wherever it stands. *)
Lemma findHeader_at (name : str) (before rest : list Header.t) (h : Header.t) :
  forallb (fun h0 => negb (Str.eqb (Str.toLowerCase (Header.name h0)) name)) before = true ->
  Str.toLowerCase (Header.name h) = name ->
  findHeader name (Some (before ++ h :: rest)) = Some h.
Proof.
  intros Hb Hh. cbn [findHeader].
  induction before as [|h0 before IH]; cbn [app List.find].
  - now rewrite Hh, Str_eqb_refl.
  - cbn [forallb] in Hb. apply andb_true_iff in Hb as [H0 Hb].
    apply negb_true_iff in H0. rewrite H0. now apply IH.
Qed.

(** [X24] A small download is stored but never listed.  When a response
    that is no playlist, has a video extension or content type and
    declares a length between 1 and 499,999 bytes (in the first of its
    headers named [content-length] in any letter case, wherever that
    header stands among the others) is the first candidate for its URL,
    the listener stores it with that size under the tag [webRequest]; the
    classifier rejects the entry, and a query does not list the URL,
    unless it is a YouTube one. *)
Theorem small_response_is_not_listed (now now' : Z) (reg : Registry) (details : Details.t)
    (tab : Z) (url name : str) (c : ascii) (digits : str) (before others : list Header.t) :
  wellFormed reg ->
  Details.tabId details = val tab -> 0 < tab ->
  Details.url details = val url -> url <> [] ->
  Str.startsWith url (lit "data:") = false -> Str.startsWith url (lit "blob:") = false ->
  Details.responseHeaders details =
    Some (before ++ Header.mk name (val (c :: digits)) :: others) ->
  forallb (fun h => negb (Str.eqb (Str.toLowerCase (Header.name h)) (lit "content-length")))
    before = true ->
  Str.toLowerCase name = lit "content-length" ->
  allDigits (c :: digits) = true ->
  0 < decimalValue (c :: digits) < MIN_VIDEO_SIZE_BYTES ->
  isHLS (responseContentType details) = false ->
  Str.includes url (lit ".m3u8") = false ->
  (Re.test VIDEO_EXTENSIONS url || Re.test SEGMENT_EXTENSIONS url ||
   Re.test VIDEO_CONTENT_TYPES (responseContentType details))%bool = true ->
  isYouTubeUrl (cleanByteRangeUrl url) = false ->
  entryOf reg tab (cleanByteRangeUrl url) = None ->
  exists info,
    entryOf (fst (onCompleted now reg details)) tab (cleanByteRangeUrl url) = Some info /\
    Info.size info = val (decimalValue (c :: digits)) /\
    Info.source info = val (lit "webRequest") /\
    isPlayableVideo (cleanByteRangeUrl url) (Info.contentType info) (Info.size info)
      (Info.source info) = false /\
    forall r,
      In r (fst (getVideosForTab now' (fst (onCompleted now reg details)) (val tab))) ->
      Result.url r <> cleanByteRangeUrl url.
Proof.
  intros Hwf Ht Hpos Hu Hn Hd Hb Hh Hbefore Hname Hdig Hsmall Hhls Hm3u8 Hext Hy Hnew.
  rewrite (onCompleted_passed now reg details tab url) by assumption.
  rewrite Hhls, Hm3u8. cbn [orb].
  replace (negb (Re.test VIDEO_EXTENSIONS url || Re.test SEGMENT_EXTENSIONS url) &&
           negb (Re.test VIDEO_CONTENT_TYPES (responseContentType details)))%bool
    with false.
  2:{ symmetry. rewrite <- negb_orb. now apply negb_false_iff. }
  cbn [fst].
  assert (Hsize : responseSize details = val (decimalValue (c :: digits))).
  { unfold responseSize.
    rewrite Hh, (findHeader_at (lit "content-length") before others
                   (Header.mk name (val (c :: digits))) Hbefore Hname).
    cbn [contentLength Header.value Js.truthyStr]. now rewrite parseInt10_digits. }
  rewrite Hsize.
  set (video := Video.mk (val url) (val (decimalValue (c :: digits)))
                  (val (responseContentType details)) (val (lit "webRequest"))
                  undefined undefined undefined).
  assert (Htarget : target (val tab) video = Some (tab, cleanByteRangeUrl url))
    by (apply target_of_plain; try assumption; [reflexivity | lia]).
  pose proof (entryOf_add_same now reg (val tab) video tab _ Htarget) as Hs.
  rewrite Hnew in Hs. cbn [storedAfter] in Hs.
  assert (Hstored : Info.size (newEntry now video) = val (decimalValue (c :: digits))).
  { unfold newEntry, video. cbn [Info.size Video.size].
    unfold Js.numOrNull, Js.truthyNum.
    destruct (Z.eqb_spec (decimalValue (c :: digits)) 0); [lia | reflexivity]. }
  assert (Hrej : isPlayableVideo (cleanByteRangeUrl url)
                   (Info.contentType (newEntry now video)) (Info.size (newEntry now video))
                   (Info.source (newEntry now video)) = false).
  { rewrite Hstored. apply small_is_not_playable; try assumption; try reflexivity; lia. }
  exists (newEntry now video).
  split; [exact Hs|]. split; [exact Hstored|]. split; [reflexivity|]. split; [exact Hrej|].
  intros r Hr Hurl.
  pose proof (wellFormed_addVideoToTab now reg (val tab) video Hwf) as Hwf1.
  set (reg1 := addVideoToTab now reg (val tab) video) in *.
  unfold entryOf in Hs. destruct (reg1 !! tab) as [tabVideos|] eqn:E; [|discriminate].
  pose proof (Hwf1 _ _ E) as Hnd.
  destruct (results_known now' reg1 tab tabVideos E Hnd r Hr) as (info & Hin & Hl & _).
  rewrite Hurl in Hin, Hl. apply (In_get _ _ _ Hnd) in Hin.
  rewrite Hs in Hin. injection Hin as <-.
  unfold listed in Hl. cbn [fst snd] in Hl. rewrite Hrej in Hl.
  now rewrite andb_false_r in Hl.
Qed.

Lemma small_response_is_not_listed_witness :
  exists info,
    entryOf (fst (onCompleted 1000 ∅ Thumbnail.response)) 7
      (cleanByteRangeUrl Thumbnail.url) = Some info /\
    Info.size info = val (decimalValue ("2"%char :: lit "0480")) /\
    Info.source info = val (lit "webRequest") /\
    isPlayableVideo (cleanByteRangeUrl Thumbnail.url)
      (Info.contentType info) (Info.size info) (Info.source info) = false /\
    forall r,
      In r (fst (getVideosForTab 2000 (fst (onCompleted 1000 ∅ Thumbnail.response))
                   (val 7))) ->
      Result.url r <> cleanByteRangeUrl Thumbnail.url.
Proof.
  refine (small_response_is_not_listed 1000 2000 ∅ Thumbnail.response
            7 Thumbnail.url (lit "content-LENGTH") "2" (lit "0480")
            [Header.mk (lit "Content-Type") (val (lit "video/mp4"));
             Header.mk (lit "Server") undefined]
            [Header.mk (lit "Content-Length") (val (lit "999999999"))]
            wellFormed_empty _ _ _ _ _ _ _ _ _ _ _ _ _ _ _ _);
    try reflexivity; try discriminate; try (vm_compute; split; reflexivity); try lia.
Defined.

(** ** The playlist parser of the page watcher *)



(** ** One video, two detectors *)

(** A mark that the patterns of [cleanByteRangeUrl] cannot touch: its
    first character [h] is in none of their matches. *)
Section KeepsMark.
Variable icase : bool.
Variable r : re.
Variable by_ : str.
Variable h : ascii.
Variable mark : str.

(** No match starts inside the mark, and what a match takes has no
    occurrence of the mark in it or across its end. *)
Hypothesis quiet_mark : forall t, quietBefore icase r (h :: mark) t.
Hypothesis match_keeps :
  forall total s rest cs,
    Re.matchAt icase total r s = Some (rest, cs) ->
    Str.includes s (h :: mark) = true -> Str.includes rest (h :: mark) = true.

Lemma includes_cons (s p : str) (c : ascii) :
  Str.includes s p = true -> Str.includes (c :: s) p = true.
Proof. intros H. cbn [Str.includes]. rewrite H. apply orb_true_r. Qed.

Lemma includes_app_r (a s p : str) :
  Str.includes s p = true -> Str.includes (a ++ s) p = true.
Proof. intros H. induction a as [|c a IH]; [exact H | now apply includes_cons]. Qed.

Lemma replaceGo_keeps total (s : str) :
  forall fuel, (List.length s < fuel)%nat ->
    Str.includes s (h :: mark) = true ->
    Str.includes (Re.replaceGo icase total r by_ fuel s) (h :: mark) = true.
Proof.
  induction s as [s IH] using (induction_ltof1 _ (@List.length ascii)).
  unfold ltof in IH. intros fuel Hf Hs.
  destruct (Str.startsWith s (h :: mark)) eqn:Estart.
  - apply startsWith_prefix in Estart as [rest ->].
    rewrite (replaceGo_skip icase r by_ total (h :: mark) rest (quiet_mark rest) fuel Hf).
    apply includes_occurrence. exists [], (Re.replaceGo icase total r by_ (S (List.length rest)) rest).
    reflexivity.
  - destruct s as [|c s]; [discriminate|].
    assert (Hs' : Str.includes s (h :: mark) = true).
    { cbn [Str.includes] in Hs. now rewrite Estart in Hs. }
    destruct fuel as [|fuel]; [lia|]. cbn [Re.replaceGo].
    destruct (Re.matchAt icase total r (c :: s)) as [[rest cs]|] eqn:Em.
    + destruct (Nat.ltb_spec (List.length rest) (List.length (c :: s))) as [Hlt|Hge].
      * apply includes_app_r. apply IH; [exact Hlt | lia |].
        apply (match_keeps total (c :: s) rest cs Em Hs).
      * apply includes_app_r, includes_cons. apply IH; [simpl; lia | simpl in Hf; lia | exact Hs'].
    + apply includes_cons. apply IH; [simpl; lia | simpl in Hf; lia | exact Hs'].
Qed.

Lemma replaceAll_keeps (P : Re.t) (x : str) :
  Re.ignoreCase P = icase -> Re.pattern P = r ->
  Str.includes x (h :: mark) = true ->
  Str.includes (Re.replaceAll P by_ x) (h :: mark) = true.
Proof.
  intros Hi Hp Hx. unfold Re.replaceAll. rewrite Hi, Hp.
  apply replaceGo_keeps; [lia | exact Hx].
Qed.
End KeepsMark.

(** What is left after a character other than the first of the mark
    still has the mark. *)
Lemma includes_behind (h c : ascii) (mark s : str) :
  Ascii.eqb h c = false ->
  Str.includes (c :: s) (h :: mark) = true -> Str.includes s (h :: mark) = true.
Proof.
  intros Hc H. cbn [Str.includes Str.startsWith] in H. rewrite Hc in H. exact H.
Qed.

Lemma includes_after_literal icase (h : ascii) (mark l s : str) :
  forallb (fun q => negb (Re.chrMatches icase q h)) l = true ->
  litMatches icase l s = true ->
  Str.includes s (h :: mark) = true ->
  Str.includes (skipn (List.length l) s) (h :: mark) = true.
Proof.
  revert s. induction l as [|q l IH]; intros s Hl Hm Hs; [exact Hs|].
  destruct s as [|c s]; [discriminate|].
  cbn [forallb] in Hl. apply andb_true_iff in Hl as [Hq Hl]. apply negb_true_iff in Hq.
  cbn [litMatches] in Hm. destruct (Re.chrMatches icase q c) eqn:Ec; [|discriminate].
  cbn [List.length skipn]. apply IH; [exact Hl | exact Hm |].
  apply (includes_behind h c); [|exact Hs].
  destruct (Ascii.eqb_spec h c) as [->|]; [congruence | reflexivity].
Qed.

Lemma includes_skipDigits (h : ascii) (mark s : str) :
  Str.isDigit h = false ->
  Str.includes s (h :: mark) = true -> Str.includes (skipDigits s) (h :: mark) = true.
Proof.
  intros Hh. induction s as [|c s IH]; intros Hs; [exact Hs|].
  cbn [skipDigits]. destruct (Str.isDigit c) eqn:Ec; [|exact Hs].
  apply IH. apply (includes_behind h c); [|exact Hs].
  destruct (Ascii.eqb_spec h c) as [->|]; [congruence | reflexivity].
Qed.

Lemma includes_skipAmp icase (h : ascii) (mark s : str) :
  Re.chrMatches icase "&" h = false ->
  Str.includes s (h :: mark) = true -> Str.includes (skipAmp icase s) (h :: mark) = true.
Proof.
  intros Hh Hs. destruct s as [|c s]; [exact Hs|]. cbn [skipAmp].
  destruct (Re.chrMatches icase "&" c) eqn:Ec; [|exact Hs].
  apply (includes_behind h c); [|exact Hs].
  destruct (Ascii.eqb_spec h c) as [->|]; [congruence | reflexivity].
Qed.

(** Cleaning a URL leaves a [headers=] in it where it is. *)
Lemma cleanByteRangeUrl_keeps_headers (x : str) :
  Str.includes x (lit "headers=") = true ->
  Str.includes (cleanByteRangeUrl x) (lit "headers=") = true.
Proof.
  intros Hx. unfold cleanByteRangeUrl.
  change (lit "headers=") with ("h"%char :: lit "eaders=") in *.
  apply (replaceAll_keeps false (Re.pattern QM_AT_END)); try reflexivity.
  { intros t total y1 y2 Hy Hne. rewrite matchAt_qm_at_end.
    assert (Hin : In y2 (suffixes ("h"%char :: lit "eaders=")))
      by now apply suffixes_spec with (y1 := y1).
    cbn in Hin.
    repeat (destruct Hin as [<-|Hin]; [now destruct t|]). destruct Hin. }
  { intros total s rest cs. rewrite matchAt_qm_at_end.
    destruct s as [|c [|c' s]]; try discriminate.
    destruct (Ascii.eqb_spec "?" c) as [<-|]; [|discriminate].
    intros _ H. vm_compute in H. discriminate. }
  apply (replaceAll_keeps true (Re.pattern QM_BYTESTART)); try reflexivity.
  { intros t. now apply (quiet_heads true _ "?" (lit "bytestart=") qm_bytestart_literal). }
  { intros total s rest cs. rewrite matchAt_qm_bytestart.
    destruct (litMatches true (lit "?bytestart=") s) eqn:El; [|discriminate].
    intros [= <- _] Hs. apply includes_skipAmp; [reflexivity|].
    apply includes_skipDigits; [reflexivity|].
    now apply (includes_after_literal true "h" _ (lit "?bytestart=")). }
  apply (replaceAll_keeps true (Re.pattern AMP_BYTEEND)); try reflexivity.
  { intros t. now apply (quiet_heads true _ "&" (lit "byteend=") amp_byteend_literal). }
  { intros total s rest cs. unfold AMP_BYTEEND. cbn [Re.pattern]. rewrite matchAt_param.
    destruct (litMatches true (lit "&byteend=") s) eqn:El; [|discriminate].
    intros [= <- _] Hs. apply includes_skipDigits; [reflexivity|].
    now apply (includes_after_literal true "h" _ (lit "&byteend=")). }
  apply (replaceAll_keeps true (Re.pattern AMP_BYTESTART)); try reflexivity.
  { intros t. now apply (quiet_heads true _ "&" (lit "bytestart=") amp_bytestart_literal). }
  { intros total s rest cs. unfold AMP_BYTESTART. cbn [Re.pattern]. rewrite matchAt_param.
    destruct (litMatches true (lit "&bytestart=") s) eqn:El; [|discriminate].
    intros [= <- _] Hs. apply includes_skipDigits; [reflexivity|].
    now apply (includes_after_literal true "h" _ (lit "&bytestart=")). }
  exact Hx.
Qed.

Section TwoDetectors.
Context {URL : Type}.
Variable newURL : str -> option URL.
Variable protocol : URL -> str.
Variable searchParamsSet : URL -> str -> str -> URL.
Variable toString : URL -> str.
Variables pageReferer pageOrigin documentTitle : str.

(** A URL whose [headers] parameter has been set shows [headers=] when
    it is written out. *)
Hypothesis headers_visible :
  forall url value,
    Str.includes (toString (searchParamsSet url (lit "headers") value)) (lit "headers=") = true.

(** [X26] The page watcher and the network listener do not meet on a
    rewritten URL.  When the watcher finds a video at [url] and embeds
    headers, so that the URL it announces is another one, and the clean
    form of [url] has no [headers=] in it, the clean forms of the two
    URLs differ: the one of the announced URL keeps its [headers=].  The
    content script announces the rewritten URL, and the entry is stored
    under its clean form; when the network listener then sees the
    response for [url] itself, it stores a second entry under the clean
    form of [url].  In a tab that held nothing, the two are the only
    entries, in this order. *)
Theorem watcher_and_listener_store_separately (now now' : Z) (reg : Registry)
    (foundVideos : list str) (video : Found.t) (url : str) (details : Details.t) (tab : Z) :
  let url' := rewritten newURL protocol searchParamsSet toString pageReferer pageOrigin
                video url in
  let event := snd (dispatchVideo newURL protocol searchParamsSet toString pageReferer
                      pageOrigin foundVideos video) in
  Found.url video = val url -> url <> [] -> has foundVideos url = false ->
  url' <> url ->
  Str.includes (cleanByteRangeUrl url) (lit "headers=") = false ->
  Str.startsWith url' (lit "blob:") = false -> Str.startsWith url' (lit "data:") = false ->
  Details.tabId details = val tab -> 0 < tab ->
  Details.url details = val url ->
  Str.startsWith url (lit "data:") = false -> Str.startsWith url (lit "blob:") = false ->
  (isHLS (responseContentType details) || Str.includes url (lit ".m3u8") ||
   Re.test VIDEO_EXTENSIONS url || Re.test SEGMENT_EXTENSIONS url ||
   Re.test VIDEO_CONTENT_TYPES (responseContentType details))%bool = true ->
  Str.includes (cleanByteRangeUrl url') (lit "headers=") = true /\
  cleanByteRangeUrl url' <> cleanByteRangeUrl url /\
  exists detail message,
    event = Some detail /\
    onVideoFound documentTitle pageReferer (val detail) = Some message /\
    let announced := Handled.registry (onMessage now reg (val message) (val tab)) in
    let seen := fst (onCompleted now' announced details) in
    (exists fromWatcher fromListener,
       entryOf seen tab (cleanByteRangeUrl url') = Some fromWatcher /\
       entryOf seen tab (cleanByteRangeUrl url) = Some fromListener) /\
    (reg !! tab = None ->
     keysOf seen tab = [cleanByteRangeUrl url'; cleanByteRangeUrl url]).
Proof.
  intros url' event Hu Hn Hh Hchanged Hplain Hb' Hd' Ht Hpos Hdu Hd Hb Hstore.
  assert (Hinc : Str.includes url' (lit "headers=") = true).
  { destruct (rewritten_changed newURL protocol searchParamsSet toString headers_visible
                pageReferer pageOrigin video url) as [E|E]; [|exact E].
    now destruct Hchanged. }
  assert (Hn' : url' <> []).
  { intros E. rewrite E in Hinc. discriminate. }
  pose proof (cleanByteRangeUrl_keeps_headers url' Hinc) as Hclean.
  assert (Hkeys : cleanByteRangeUrl url' <> cleanByteRangeUrl url).
  { intros E. rewrite E in Hclean. congruence. }
  split; [exact Hclean|]. split; [exact Hkeys|].
  unfold event. rewrite (dispatchVideo_new newURL protocol searchParamsSet toString
                           pageReferer pageOrigin foundVideos video url Hu Hn Hh).
  cbn [snd]. eexists. eexists. split; [reflexivity|].
  fold url'.
  assert (Hfound : onVideoFound documentTitle pageReferer
                     (val (detailOf newURL protocol searchParamsSet toString pageReferer
                             pageOrigin video url)) =
                   Some (sendVideo documentTitle pageReferer
                           (detailOf newURL protocol searchParamsSet toString pageReferer
                              pageOrigin video url))).
  { unfold onVideoFound, detailOf. cbn [Found.url Js.truthyStr]. fold url'.
    now destruct url'. }
  split; [exact Hfound|]. cbv zeta.
  set (message := sendVideo documentTitle pageReferer
                    (detailOf newURL protocol searchParamsSet toString pageReferer
                       pageOrigin video url)).
  rewrite (onMessage_add now reg message (val tab) eq_refl). cbn [Handled.registry].
  change (addressedTab message (val tab)) with (val tab).
  assert (Htarget1 : target (val tab) (announced message) =
                     Some (tab, cleanByteRangeUrl url'))
    by (apply target_of_plain; try assumption; [reflexivity | lia]).
  set (reg1 := addVideoToTab now reg (val tab) (announced message)).
  pose proof (entryOf_add_same now reg (val tab) (announced message) tab _ Htarget1) as Hs1.
  fold reg1 in Hs1.
  assert (Hlistener : exists video2,
            Video.url video2 = val url /\
            fst (onCompleted now' reg1 details) = addVideoToTab now' reg1 (val tab) video2).
  { rewrite (onCompleted_passed now' reg1 details tab url) by assumption.
    destruct (isHLS (responseContentType details) || Str.includes url (lit ".m3u8"))%bool
      eqn:E.
    - eexists. split; [|reflexivity]. reflexivity.
    - cbn [orb] in Hstore. rewrite <- negb_orb, Hstore. cbn [negb].
      eexists. split; [|reflexivity]. reflexivity. }
  destruct Hlistener as (video2 & Hv2 & ->).
  assert (Htarget2 : target (val tab) video2 = Some (tab, cleanByteRangeUrl url))
    by (apply target_of_plain; try assumption; lia).
  split.
  - destruct (addVideoToTab_keeps_entries now' reg1 (val tab) video2 tab _ _ Hs1)
      as (info1 & H1 & _).
    exists info1. eexists. split; [exact H1|]. now apply entryOf_add_same.
  - intros Hempty.
    rewrite (keysOf_add_target now' reg1 (val tab) video2 tab _ Htarget2).
    assert (Hk1 : keysOf reg1 tab = [cleanByteRangeUrl url']).
    { unfold reg1. rewrite (keysOf_add_target now reg (val tab) _ tab _ Htarget1).
      unfold entryOf, keysOf. now rewrite Hempty. }
    assert (Hnone : entryOf reg1 tab (cleanByteRangeUrl url) = None).
    { unfold reg1. rewrite (entryOf_add_other now reg (val tab) _ tab _ tab _ Htarget1)
        by congruence.
      unfold entryOf. now rewrite Hempty. }
    now rewrite Hnone, Hk1.
Qed.

End TwoDetectors.

Lemma watcher_and_listener_store_separately_witness :
  Str.includes (cleanByteRangeUrl Page.rewrittenClip) (lit "headers=") = true /\
  cleanByteRangeUrl Page.rewrittenClip <> cleanByteRangeUrl Page.clip /\
  exists detail message,
    snd (dispatchVideo SimpleURL.newURL SimpleURL.protocol SimpleURL.searchParamsSet
           SimpleURL.toString Page.referer Page.origin [] Page.candidate) = Some detail /\
    onVideoFound Page.title Page.referer (val detail) = Some message /\
    let announced := Handled.registry (onMessage 1000 ∅ (val message) (val 7)) in
    let seen := fst (onCompleted 2000 announced Page.response) in
    (exists fromWatcher fromListener,
       entryOf seen 7 (cleanByteRangeUrl Page.rewrittenClip) = Some fromWatcher /\
       entryOf seen 7 (cleanByteRangeUrl Page.clip) = Some fromListener) /\
    ((∅ : Registry) !! 7 = None ->
     keysOf seen 7 = [cleanByteRangeUrl Page.rewrittenClip; cleanByteRangeUrl Page.clip]).
Proof.
  refine (watcher_and_listener_store_separately SimpleURL.newURL SimpleURL.protocol
            SimpleURL.searchParamsSet SimpleURL.toString Page.referer Page.origin
            Page.title SimpleURL_headers_visible 1000 2000 ∅ [] Page.candidate Page.clip
            Page.response 7
            eq_refl _ eq_refl _ _ _ _ eq_refl _ eq_refl eq_refl eq_refl _).
  - discriminate.
  - vm_compute. discriminate.
  - vm_compute. reflexivity.
  - vm_compute. reflexivity.
  - vm_compute. reflexivity.
  - lia.
  - vm_compute. reflexivity.
Defined.

(** ** What the network listener leaves alone *)

Lemma onCompleted_cases now (reg : Registry) details :
  onCompleted now reg details = (reg, None) \/
  exists video url,
    Details.url details = val url /\
    Video.url video = val url /\
    fst (onCompleted now reg details) = addVideoToTab now reg (Details.tabId details) video /\
    (snd (onCompleted now reg details) = None \/
     snd (onCompleted now reg details) = Some (url, Details.tabId details)).
Proof.
  unfold onCompleted.
  destruct (negb (Js.truthyNum (Details.tabId details)) ||
            match Details.tabId details with val n => n <? 0 | _ => false end)%bool;
    [now left|].
  destruct (Details.url details) as [| |url]; try (now left).
  destruct (negb (Js.truthyStr (val url)) || Str.startsWith url (lit "data:") ||
            Str.startsWith url (lit "blob:"))%bool; [now left|].
  cbv zeta.
  destruct (isHLS _ || Str.includes url (lit ".m3u8"))%bool.
  - right. eexists. exists url. split; [reflexivity|].
    split; [|split; [reflexivity | now right]]. reflexivity.
  - destruct (negb _ && negb _)%bool; [now left|].
    right. eexists. exists url. split; [reflexivity|].
    split; [|split; [reflexivity | now left]]. reflexivity.
Qed.

Lemma target_url tabId video tab url :
  target tabId video = Some (tab, url) ->
  exists u, Video.url video = val u /\ url = cleanByteRangeUrl u.
Proof.
  unfold target. destruct tabId as [| |t]; try discriminate.
  destruct (Video.url video) as [| |u]; try discriminate.
  destruct (_ && _)%bool; [|discriminate]. intros [= _ <-]. now exists u.
Qed.

(** [X27] The network listener changes at most one entry of one tab.  It
    never touches the map of a tab other than the one of the request, nor
    an entry under a URL other than the clean URL of the request; it
    never deletes an entry or changes a timestamp, adds at most one URL,
    and does nothing at all for a request that belongs to no tab (an id
    of 0 or below).  When it asks for a playlist to be fetched, it is the
    URL of the request, for the tab of the request. *)
Theorem onCompleted_frame (now : Z) (reg : Registry) (details : Details.t) :
  (forall tab, Details.tabId details <> val tab ->
     fst (onCompleted now reg details) !! tab = reg !! tab) /\
  (forall tab url u,
     Details.url details = val u -> url <> cleanByteRangeUrl u ->
     entryOf (fst (onCompleted now reg details)) tab url = entryOf reg tab url) /\
  (forall tab,
     (List.length (keysOf (fst (onCompleted now reg details)) tab) <=
      List.length (keysOf reg tab) + 1)%nat) /\
  (forall tab url info,
     entryOf reg tab url = Some info ->
     exists info',
       entryOf (fst (onCompleted now reg details)) tab url = Some info' /\
       Info.timestamp info' = Info.timestamp info) /\
  (forall n, Details.tabId details = val n -> n <= 0 ->
     onCompleted now reg details = (reg, None)) /\
  (forall fetched, snd (onCompleted now reg details) = Some fetched ->
     Details.url details = val (fst fetched) /\ snd fetched = Details.tabId details).
Proof.
  destruct (onCompleted_cases now reg details) as [E|(video & url & Hu & Hv & Hf & Hs)].
  - rewrite E. cbn [fst snd]. split; [reflexivity|]. split; [reflexivity|].
    split; [intros tab; lia|].
    split; [intros tab url info H; now exists info|].
    split; [reflexivity | discriminate].
  - split; [|split; [|split; [|split; [|split]]]].
    + intros tab Hne. rewrite Hf. now apply addVideoToTab_other_tab.
    + intros tab url0 u Hdu Hne. rewrite Hf.
      destruct (target (Details.tabId details) video) as [[tab1 url1]|] eqn:Ht.
      * apply (entryOf_add_other _ _ _ _ _ _ _ _ Ht).
        destruct (target_url _ _ _ _ Ht) as (u1 & Hu1 & ->).
        intros [= _ E]. apply Hne. rewrite E. congruence.
      * now rewrite addVideoToTab_ignored.
    + intros tab. rewrite Hf.
      destruct (addVideoToTab_keys_cases now reg (Details.tabId details) video tab)
        as [->|(u & _ & _ & ->)]; rewrite ?length_app; simpl; lia.
    + intros tab u info H. rewrite Hf. now apply addVideoToTab_keeps_entries.
    + intros n Hn Hle. unfold onCompleted. rewrite Hn. cbn [Js.truthyNum].
      destruct (Z.eqb_spec n 0) as [|Hne]; [reflexivity|]. cbn [negb orb].
      destruct (Z.ltb_spec n 0); [reflexivity | lia].
    + intros fetched H. destruct Hs as [Hs|Hs]; rewrite Hs in H; [discriminate|].
      injection H as <-. split; [exact Hu | reflexivity].
Qed.

(** ** Byte ranges of one file *)

Lemma http_is_plain (y t : str) :
  Str.startsWith y (lit "http") = true ->
  y ++ t <> [] /\
  Str.startsWith (y ++ t) (lit "blob:") = false /\
  Str.startsWith (y ++ t) (lit "data:") = false.
Proof.
  intros H. apply startsWith_prefix in H as (rest & ->).
  repeat split; discriminate || reflexivity.
Qed.

(** [X28] Requests for byte ranges of one file meet in one entry.  Two
    candidates whose URLs are the same clean http(s) URL followed by
    [&bytestart=] and [&byteend=] with different numbers are stored, in
    a tab that held nothing, as a single entry under the clean URL: the
    first candidate's, with the second merged into it. *)
Theorem byte_ranges_share_one_entry (now1 now2 : Z) (reg : Registry) (tab : Z)
    (a b : Video.t) (y d1 d2 d3 d4 : str) :
  tab <> 0 ->
  reg !! tab = None ->
  isClean y = true ->
  Str.startsWith y (lit "http") = true ->
  allDigits d1 = true -> allDigits d2 = true ->
  allDigits d3 = true -> allDigits d4 = true ->
  Video.url a = val (y ++ lit "&bytestart=" ++ d1 ++ lit "&byteend=" ++ d2) ->
  Video.url b = val (y ++ lit "&bytestart=" ++ d3 ++ lit "&byteend=" ++ d4) ->
  addVideoToTab now2 (addVideoToTab now1 reg (val tab) a) (val tab) b !! tab =
  Some [(y, mergeExisting (newEntry now1 a) b)].
Proof.
  intros Htab Hempty Hy Hhttp H1 H2 H3 H4 Ha Hb.
  assert (Hta : target (val tab) a = Some (tab, y)).
  { destruct (http_is_plain y (lit "&bytestart=" ++ d1 ++ lit "&byteend=" ++ d2) Hhttp)
      as (Hn & Hblob & Hdata).
    rewrite <- (clean_amp_both y d1 d2 Hy H1 H2). now apply target_of_plain. }
  assert (Htb : target (val tab) b = Some (tab, y)).
  { destruct (http_is_plain y (lit "&bytestart=" ++ d3 ++ lit "&byteend=" ++ d4) Hhttp)
      as (Hn & Hblob & Hdata).
    rewrite <- (clean_amp_both y d3 d4 Hy H3 H4). now apply target_of_plain. }
  rewrite (addVideoToTab_target now2 _ _ _ _ _ Htb).
  rewrite (entryOf_add_same now1 reg _ _ _ _ Hta).
  rewrite (addVideoToTab_target now1 _ _ _ _ _ Hta).
  rewrite !lookup_insert_eq. unfold entryOf. rewrite Hempty.
  unfold default. cbn [from_option id storedAfter JSMap.set]. unfold id.
  cbn [JSMap.set]. now rewrite Str_eqb_refl.
Qed.

Lemma byte_ranges_share_one_entry_witness :
  addVideoToTab 2000
    (addVideoToTab 1000 ∅ (val 7)
       (tagged "https://cdn.example/v.mp4?x=1&bytestart=0&byteend=999" "dom" "720p"))
    (val 7)
    (tagged "https://cdn.example/v.mp4?x=1&bytestart=1000&byteend=1999" "dom" "720p")
    !! 7 =
  Some [(lit "https://cdn.example/v.mp4?x=1",
         mergeExisting
           (newEntry 1000
              (tagged "https://cdn.example/v.mp4?x=1&bytestart=0&byteend=999" "dom" "720p"))
           (tagged "https://cdn.example/v.mp4?x=1&bytestart=1000&byteend=1999" "dom" "720p"))].
Proof.
  refine (byte_ranges_share_one_entry 1000 2000 ∅ 7
            (tagged "https://cdn.example/v.mp4?x=1&bytestart=0&byteend=999" "dom" "720p")
            (tagged "https://cdn.example/v.mp4?x=1&bytestart=1000&byteend=1999" "dom" "720p")
            (lit "https://cdn.example/v.mp4?x=1") (lit "0") (lit "999") (lit "1000")
            (lit "1999") _ _ _ _ _ _ _ _ eq_refl eq_refl);
    try reflexivity; try discriminate.
Defined.
